(** * Relay backend and chat client of the realtime Gemini demo

    A shallow embedding of [backend-node/utils.js], [backend-node/server.js]
    and of the two versions of the React client's message handler, with the
    properties of the relay established on it.

    Conventions.
    - A Node [Buffer] is a list of bytes, each an integer in [0, 256).
    - The numbers [createWavHeader] computes with are integers or eighths
      of integers; they are kept as exact rationals ([Q]), which is what
      IEEE doubles give for integer arguments below 2^53.
    - A JavaScript exception is a value of [js_error]; code that can throw
      returns a [result].
    - Calls on collaborators (the client socket, the AI session, the
      operating system, the stream objects) are appended to a trace, in
      program order. Console output is not modelled.
    - A string is at most [Buf.MAX_STRING_LENGTH] characters long: the
      conversion of a buffer to base64 text and [JSON.stringify] throw
      where their result would be longer. This is modelled where the
      backend builds the audio message of a turn, from an accumulator of
      any length. A string that a handler receives exists, so it is
      within the limit; the chunks of a stream, and the texts of the AI
      that the backend forwards and the client joins, are taken to be
      short enough for the strings built from them. A buffer is of any
      length, and memory is not limited.
    - A JavaScript [Map] keyed by socket objects is a [gmap] keyed by the
      socket's identity.

    Part I holds the definitions, Part II the lemmas and theorems. *)

From Stdlib Require Import ZArith QArith Qround Lia List Ascii String.
From stdpp Require Import gmap strings list pretty.

#[local] Open Scope Z_scope.
#[local] Set Warnings "-register-all".

(** * Part I: the model *)

(** ** Exceptions *)

Inductive js_error :=
| ERR_OUT_OF_RANGE (name : string) (lo hi : Z) (received : Q)
| ERR_BUFFER_OUT_OF_BOUNDS
| ERR_INVALID_ARG_TYPE (name : string)
| ERR_STRING_TOO_LONG
| RangeError (message : string)
| ESRCH
| SyntaxError (message : string)
| TypeError (message : string)
| Error (message : string).

Definition result (A : Type) : Type := js_error + A.

Definition ret {A} (a : A) : result A := inr a.
Definition throw {A} (e : js_error) : result A := inl e.
Definition bind {A B} (r : result A) (k : A -> result B) : result B :=
  match r with
  | inl e => inl e
  | inr a => k a
  end.

Notation "'let*' x ':=' r 'in' k" := (bind r (fun x => k))
  (at level 10, x name, r at level 100, k at level 200).

(** ** Node buffers *)

Module Buf.

Definition Buffer := list Z.

(** [Buffer.alloc(n)]: [n] zero bytes. *)
Definition alloc (n : nat) : Buffer := repeat 0 n.

(** [Buffer.concat([a, b])]. *)
Definition concat (a b : Buffer) : Buffer := a ++ b.

(** The bytes of an ASCII string, as [buf.write] stores them. *)
Fixpoint bytes_of_string (s : string) : list Z :=
  match s with
  | EmptyString => []
  | String c r => Z.of_N (N_of_ascii c) :: bytes_of_string r
  end.

(** Stores [bs] from [offset] on; what does not fit is dropped. *)
Fixpoint store (buf : Buffer) (offset : nat) (bs : list Z) : Buffer :=
  match bs with
  | [] => buf
  | b :: r => store (<[offset := b]> buf) (S offset) r
  end.

(** [buf.write(string, offset)]. *)
Definition write (buf : Buffer) (s : string) (offset : nat) : Buffer :=
  store buf offset (bytes_of_string s).

(** The [n] low bytes of [v], least significant first: the element
    assignments [buf[offset++] = value; value = value >>> 8]. *)
Fixpoint le_bytes (n : nat) (v : Z) : list Z :=
  match n with
  | O => []
  | S k => v mod 256 :: le_bytes k (Z.shiftr v 8)
  end.

(** [checkInt] of Node's buffer module: the value first, then the
    bounds of the buffer. *)
Definition checkInt (value : Q) (lo hi : Z) (buf : Buffer) (offset width : nat)
  : result unit :=
  if Qle_bool (inject_Z lo) value && Qle_bool value (inject_Z hi)
  then if (offset + width <=? length buf)%nat then ret tt
       else throw ERR_BUFFER_OUT_OF_BOUNDS
  else throw (ERR_OUT_OF_RANGE "value" lo hi value).

(** [buf.writeUInt32LE(value, offset)]. A fractional value in range is
    truncated by the element assignment. *)
Definition writeUInt32LE (buf : Buffer) (value : Q) (offset : nat) : result Buffer :=
  let* _ := checkInt value 0 4294967295 buf offset 4 in
  ret (store buf offset (le_bytes 4 (Qfloor value))).

(** [buf.writeUInt16LE(value, offset)]. *)
Definition writeUInt16LE (buf : Buffer) (value : Q) (offset : nat) : result Buffer :=
  let* _ := checkInt value 0 65535 buf offset 2 in
  ret (store buf offset (le_bytes 2 (Qfloor value))).

Definition byte_at (buf : Buffer) (i : nat) : Z := default 0 (buf !! i).

(** [buf.readUInt32LE(offset)] and [buf.readUInt16LE(offset)], on a buffer
    long enough. *)
Definition readUInt32LE (buf : Buffer) (offset : nat) : Z :=
  byte_at buf offset + byte_at buf (offset + 1) * 2 ^ 8
  + byte_at buf (offset + 2) * 2 ^ 16 + byte_at buf (offset + 3) * 2 ^ 24.

Definition readUInt16LE (buf : Buffer) (offset : nat) : Z :=
  byte_at buf offset + byte_at buf (offset + 1) * 2 ^ 8.

(** [buf.toString('base64')]: RFC 4648 with padding. *)
Definition base64_alphabet : list ascii :=
  list_ascii_of_string
    "ABCDEFGHIJKLMNOPQRSTUVWXYZabcdefghijklmnopqrstuvwxyz0123456789+/".

Definition base64_digit (n : Z) : ascii :=
  nth (Z.to_nat n) base64_alphabet "="%char.

Fixpoint toString_base64 (buf : Buffer) : string :=
  match buf with
  | [] => ""
  | [a] =>
      String (base64_digit (a / 4))
        (String (base64_digit (a mod 4 * 16)) "==")
  | [a; b] =>
      String (base64_digit (a / 4))
        (String (base64_digit (a mod 4 * 16 + b / 16))
          (String (base64_digit (b mod 16 * 4)) "="))
  | a :: b :: c :: r =>
      String (base64_digit (a / 4))
        (String (base64_digit (a mod 4 * 16 + b / 16))
          (String (base64_digit (b mod 16 * 4 + c / 64))
            (String (base64_digit (c mod 64)) (toString_base64 r))))
  end.

(** The longest string the engine makes,
    [buffer.constants.MAX_STRING_LENGTH]: 2^29 - 24 = 0x1fffffe8 in the
    Node 20 of the backend's image, on a 64-bit platform. *)
Definition MAX_STRING_LENGTH : Z := 536870888.

(** The length of the base64 text of [n] bytes: four characters for
    every three bytes, the last group padded. *)
Definition base64_length (n : Z) : Z := 4 * ((n + 2) / 3).

(** [buf.toString('base64')]: a text that would be longer than
    [MAX_STRING_LENGTH] is refused with [ERR_STRING_TOO_LONG]. *)
Definition toString (buf : Buffer) : result string :=
  if base64_length (Z.of_nat (length buf)) <=? MAX_STRING_LENGTH
  then ret (toString_base64 buf)
  else throw ERR_STRING_TOO_LONG.

End Buf.

(** ** The WAV header

    [createWavHeader], the same text in [utils.js] and [server.js]. *)

Definition createWavHeader (pcmDataLength sampleRate bitsPerSample numChannels : Z)
  : result Buf.Buffer :=
  let bytesPerSample := (inject_Z bitsPerSample / inject_Z 8)%Q in
  let blockAlign := (inject_Z numChannels * bytesPerSample)%Q in
  let byteRate := (inject_Z sampleRate * blockAlign)%Q in
  let riffChunkSize := (inject_Z pcmDataLength + inject_Z 36)%Q in
  let header := Buf.alloc 44 in
  let header := Buf.write header "RIFF" 0 in
  let* header := Buf.writeUInt32LE header riffChunkSize 4 in
  let header := Buf.write header "WAVE" 8 in
  let header := Buf.write header "fmt " 12 in
  let* header := Buf.writeUInt32LE header (inject_Z 16) 16 in
  let* header := Buf.writeUInt16LE header (inject_Z 1) 20 in
  let* header := Buf.writeUInt16LE header (inject_Z numChannels) 22 in
  let* header := Buf.writeUInt32LE header (inject_Z sampleRate) 24 in
  let* header := Buf.writeUInt32LE header byteRate 28 in
  let* header := Buf.writeUInt16LE header blockAlign 32 in
  let* header := Buf.writeUInt16LE header (inject_Z bitsPerSample) 34 in
  let header := Buf.write header "data" 36 in
  let* header := Buf.writeUInt32LE header (inject_Z pcmDataLength) 40 in
  ret header.

(** The 44 bytes expected for a payload of [L] bytes of 24 kHz, 16-bit,
    mono audio: the markers, the two length fields, and the constant
    format fields. *)
Definition wav24k (L : Z) : Buf.Buffer :=
  [82; 73; 70; 70] ++ Buf.le_bytes 4 (L + 36) ++
  [87; 65; 86; 69; 102; 109; 116; 32; 16; 0; 0; 0; 1; 0; 1; 0;
   192; 93; 0; 0; 128; 187; 0; 0; 2; 0; 16; 0; 100; 97; 116; 97] ++
  Buf.le_bytes 4 L.

(** ** JSON values

    What [JSON.parse] returns, as a tree. The fields of an object are kept
    in insertion order, each key once. A string is a sequence of code
    units, one character each. *)

Inductive json :=
| JNull
| JBool (b : bool)
| JNum (q : Q)
| JStr (s : string)
| JArr (elems : list json)
| JObj (fields : list (string * json)).

(** [fields[key]], [None] standing for [undefined]. *)
Fixpoint field (key : string) (fields : list (string * json)) : option json :=
  match fields with
  | [] => None
  | (k, v) :: r => if String.eqb k key then Some v else field key r
  end.

(** [v.key] for one of the keys the handlers read ([type], [message],
    [audioData], [from], [data], [audio], [mimeType]) on a value other
    than [null]: a primitive or an array has no such property. *)
Definition get (v : json) (key : string) : option json :=
  match v with
  | JObj fields => field key fields
  | _ => None
  end.

(** [v.key] where [v] is itself the result of a guarded read. *)
Definition bind_get (v : option json) (key : string) : option json :=
  match v with
  | Some x => get x key
  | None => None
  end.

(** [v.key] on any value: reading a property of [null] throws. *)
Definition prop (v : json) (key : string) : result (option json) :=
  match v with
  | JNull => throw (TypeError "Cannot read properties of null")
  | _ => ret (get v key)
  end.

(** JavaScript truthiness. *)
Definition truthy (v : option json) : bool :=
  match v with
  | None | Some JNull => false
  | Some (JBool b) => b
  | Some (JNum q) => negb (Qeq_bool q 0)
  | Some (JStr s) => negb (String.eqb s "")
  | Some (JArr _) | Some (JObj _) => true
  end.

(** [v === s] for a string literal [s]. *)
Definition is_string (v : option json) (s : string) : bool :=
  match v with
  | Some (JStr x) => String.eqb x s
  | _ => false
  end.

(** ** Collaborators and their calls *)

(** Identity of a client socket, of an AI session, of a [PassThrough]
    stream. *)
Definition ws_id := positive.
Definition session_id := positive.
Definition stream_id := positive.

(** What [createUserContent] returns: a user turn with one text part for a
    string, the SDK's conversion of the argument otherwise. *)
Inductive content :=
| UserText (text : string)
| UserParts (parts : json).

(** The messages the backend sends to the client, each the argument of one
    [ws.send(JSON.stringify(...))]:
    [{from:'gemini', type:'text', data}],
    [{from:'gemini', type:'audio', data:{audio, mimeType}}],
    [{from:'gemini', type:'turnComplete'}] and
    [{from:'backend', type:'error', data: prefix + (error.message || fallback)}]. *)
Inductive server_msg :=
| MsgText (data : string)
| MsgAudio (audio : string) (mimeType : string)
| MsgTurnComplete
| MsgError (prefix : string) (error : js_error) (fallback : string).

(** [JSON.stringify] of the audio message
    [{from:'gemini', type:'audio', data:{audio, mimeType:'audio/wav'}}].
    The text is [audio] between 75 other characters, no character of a
    base64 text being escaped; a text that would be longer than
    [Buf.MAX_STRING_LENGTH] is refused with a [RangeError]. *)
Definition stringify_audio (audio : string) : result server_msg :=
  if 75 + Z.of_nat (String.length audio) <=? Buf.MAX_STRING_LENGTH
  then ret (MsgAudio audio "audio/wav")
  else throw (RangeError "Invalid string length").

Inductive call :=
| WsSend (ws : ws_id) (m : server_msg)
| WsClose (ws : ws_id) (code : Z) (reason : string)
| WsOn (ws : ws_id) (event : string)
| ProcessKill (pid : option Z) (signal : string)
| StreamDestroy (s : stream_id)
| StreamEnd (s : stream_id) (chunk : Buf.Buffer)
| FfmpegRun (pid : Z) (input output : stream_id)
| SessionClose (s : session_id)
| SendClientContent (s : session_id) (turns : list content) (turnComplete : bool).

(** The process table, the streams and the trace.
    - [running]: the ffmpeg subprocesses that have been started and have
      neither exited nor been killed, each with the connection whose
      handler started it;
    - [open_streams]: the [PassThrough] streams created and not destroyed;
    - [next_pid], [next_stream]: the next fresh identities;
    - [trace]: the calls made so far.

    The events of the model are the calls the handlers make while they
    run. A subprocess leaves [running] when a [process.kill] of a handler
    reaches it; its own exit, and whatever a library does after the
    handler has returned, are not events. [ws.send], [ws.close],
    [destroy], [end] and the calls on a session are taken to return
    normally. *)
Record world := {
  running : gmap Z ws_id;
  open_streams : gset stream_id;
  next_pid : Z;
  next_stream : stream_id;
  trace : list call }.

Definition log (c : call) (w : world) : world :=
  {| running := running w; open_streams := open_streams w;
     next_pid := next_pid w; next_stream := next_stream w;
     trace := trace w ++ [c] |}.

(** [process.kill(pid, 'SIGKILL')]: a [pid] that is not a number is
    refused with [ERR_INVALID_ARG_TYPE] before any signal is sent; a
    number that names no process gives [ESRCH]; SIGKILL ends the process
    it reaches. *)
Definition process_kill (pid : option Z) (w : world) : result unit * world :=
  let w := log (ProcessKill pid "SIGKILL") w in
  match pid with
  | None => (throw (ERR_INVALID_ARG_TYPE "pid"), w)
  | Some p =>
      match running w !! p with
      | None => (throw ESRCH, w)
      | Some _ =>
          (ret tt,
           {| running := delete p (running w); open_streams := open_streams w;
              next_pid := next_pid w; next_stream := next_stream w;
              trace := trace w |})
      end
  end.

(** [stream.destroy()]. *)
Definition destroy (s : stream_id) (w : world) : world :=
  let w := log (StreamDestroy s) w in
  {| running := running w; open_streams := open_streams w ∖ {[s]};
     next_pid := next_pid w; next_stream := next_stream w;
     trace := trace w |}.

(** [new PassThrough()]. *)
Definition new_PassThrough (w : world) : stream_id * world :=
  let s := next_stream w in
  (s, {| running := running w; open_streams := {[s]} ∪ open_streams w;
         next_pid := next_pid w; next_stream := (s + 1)%positive;
         trace := trace w |}).

(** The subprocess that [ffmpeg(input)....pipe(output)] starts for
    connection [ws]; the start is taken to succeed at once. *)
Definition ffmpeg_run (ws : ws_id) (input output : stream_id) (w : world)
  : Z * world :=
  let p := next_pid w in
  (p, {| running := <[p := ws]> (running w); open_streams := open_streams w;
         next_pid := p + 1; next_stream := next_stream w;
         trace := trace w ++ [FfmpegRun p input output] |}).

(** The processes of [w] that connection [ws] started and that are still
    running. *)
Definition pipelines_of (ws : ws_id) (w : world) : gmap Z ws_id :=
  filter (fun kv => kv.2 = ws) (running w).

(** ** Messages of the AI session ([LiveServerMessage])

    [None] is an absent field. *)

Module Live.

Record InlineData := {
  data : option string;
  mimeType : option string }.

Record Part := {
  text : option string;
  inlineData : option InlineData }.

Record ModelTurn := {
  parts : option (list Part) }.

Record ServerContent := {
  modelTurn : option ModelTurn;
  turnComplete : bool }.

Record LiveServerMessage := {
  serverContent : option ServerContent }.

End Live.

(** A string that is present and not empty. *)
Definition nonempty (s : option string) : bool :=
  match s with
  | Some x => negb (String.eqb x "")
  | None => false
  end.

(** [s.startsWith(p)]. *)
Definition startsWith (s : option string) (p : string) : bool :=
  match s with
  | Some x => String.prefix p x
  | None => false
  end.

(** ** The handlers of [backend-node/utils.js] *)

Module Backend.

(** The object kept in [clientState.ffmpegProcess]: the handlers read its
    [pid] property only, [None] standing for [undefined]. *)
Record ffmpegHandle := {
  pid : option Z }.

Record clientState := {
  ffmpegProcess : option ffmpegHandle;
  ffmpegInputStream : option stream_id;
  pcmOutputStream : option stream_id;
  isSendingAudioToGemini : bool;
  audioBuffer : Buf.Buffer;
  mimeType : string;
  firstGeminiResponseReceived : bool }.

(** The two maps the handlers are passed, and the world they act on. A
    handler that changes the state object of a connection is modelled by
    writing the changed record back under the connection's key. *)
Record state := {
  geminiSessionMap : gmap ws_id session_id;
  clientStateMap : gmap ws_id clientState;
  env : world }.

Definition with_env (w : world) (st : state) : state :=
  {| geminiSessionMap := geminiSessionMap st;
     clientStateMap := clientStateMap st; env := w |}.

Definition with_client (ws : ws_id) (cs : clientState) (st : state) : state :=
  {| geminiSessionMap := geminiSessionMap st;
     clientStateMap := <[ws := cs]> (clientStateMap st); env := env st |}.

Section Handlers.

(** The runtime and the libraries:
    - [JSON_parse]: [JSON.parse];
    - [base64_decode]: [Buffer.from(s, 'base64')] on a string;
    - [Buffer_from_other]: [Buffer.from(v, 'base64')] on another value;
    - [toParts]: the SDK's conversion of an argument of
      [createUserContent] that is not a string;
    - [pipe_pid p]: the [pid] property of the object that
      [ffmpeg(...).pipe(stream)] returns, [p] being the subprocess it
      started. *)
Variable JSON_parse : string -> result json.
Variable base64_decode : string -> Buf.Buffer.
Variable Buffer_from_other : json -> result Buf.Buffer.
Variable toParts : option json -> result json.
Variable pipe_pid : Z -> option Z.

Definition createUserContent (x : option json) : result content :=
  match x with
  | Some (JStr s) => ret (UserText s)
  | other => let* p := toParts other in ret (UserParts p)
  end.

Definition Buffer_from (v : option json) : result Buf.Buffer :=
  match v with
  | Some (JStr s) => ret (base64_decode s)
  | Some other => Buffer_from_other other
  | None => throw (ERR_INVALID_ARG_TYPE "first argument")
  end.

Definition stopAudioProcessing (cs : clientState) (w : world)
  : clientState * world :=
  let '(process, w) :=
    match ffmpegProcess cs with
    | Some h =>
        (* try { process.kill(...) } catch (e) { console.debug(...) } *)
        (None, snd (process_kill (pid h) w))
    | None => (ffmpegProcess cs, w)
    end in
  let w := match ffmpegInputStream cs with
           | Some s => destroy s w
           | None => w
           end in
  let w := match pcmOutputStream cs with
           | Some s => destroy s w
           | None => w
           end in
  ({| ffmpegProcess := process;
      ffmpegInputStream := None;
      pcmOutputStream := None;
      isSendingAudioToGemini := false;
      audioBuffer := audioBuffer cs;
      mimeType := mimeType cs;
      firstGeminiResponseReceived := firstGeminiResponseReceived cs |}, w).

(** The calls [stopAudioProcessing] makes on a state, in order. *)
Definition teardown_calls (cs : clientState) : list call :=
  match ffmpegProcess cs with
  | Some h => [ProcessKill (pid h) "SIGKILL"]
  | None => []
  end ++
  match ffmpegInputStream cs with
  | Some s => [StreamDestroy s]
  | None => []
  end ++
  match pcmOutputStream cs with
  | Some s => [StreamDestroy s]
  | None => []
  end.

(** A state with no pipeline: the three handles are [null] and
    [isSendingAudioToGemini] is [false]. *)
Definition idle (buffer : Buf.Buffer) (mime : string) (first : bool) : clientState :=
  {| ffmpegProcess := None;
     ffmpegInputStream := None;
     pcmOutputStream := None;
     isSendingAudioToGemini := false;
     audioBuffer := buffer;
     mimeType := mime;
     firstGeminiResponseReceived := first |}.

Definition cleanupClient (ws : ws_id) (st : state) : state :=
  let w :=
    match clientStateMap st !! ws with
    | Some cs => snd (stopAudioProcessing cs (env st))
    | None => env st
    end in
  let '(sessions, w) :=
    match geminiSessionMap st !! ws with
    | Some session => (delete ws (geminiSessionMap st), log (SessionClose session) w)
    | None => (geminiSessionMap st, w)
    end in
  {| geminiSessionMap := sessions;
     clientStateMap := delete ws (clientStateMap st);
     env := w |}.

Definition processGeminiTextPart (ws : ws_id) (text : string) (w : world) : world :=
  log (WsSend ws (MsgText text)) w.

Definition processGeminiAudioPart (cs : clientState) (d : Live.InlineData)
  : clientState :=
  match Live.data d with
  | Some audioChunkBase64 =>
      if negb (String.eqb audioChunkBase64 "") then
        {| ffmpegProcess := ffmpegProcess cs;
           ffmpegInputStream := ffmpegInputStream cs;
           pcmOutputStream := pcmOutputStream cs;
           isSendingAudioToGemini := isSendingAudioToGemini cs;
           audioBuffer :=
             Buf.concat (audioBuffer cs) (base64_decode audioChunkBase64);
           mimeType := default "" (Live.mimeType d);
           firstGeminiResponseReceived := firstGeminiResponseReceived cs |}
      else cs
  | None => cs
  end.

Definition set_firstGeminiResponseReceived (b : bool) (cs : clientState)
  : clientState :=
  {| ffmpegProcess := ffmpegProcess cs;
     ffmpegInputStream := ffmpegInputStream cs;
     pcmOutputStream := pcmOutputStream cs;
     isSendingAudioToGemini := isSendingAudioToGemini cs;
     audioBuffer := audioBuffer cs;
     mimeType := mimeType cs;
     firstGeminiResponseReceived := b |}.

Definition set_audio (buffer : Buf.Buffer) (mime : string) (cs : clientState)
  : clientState :=
  {| ffmpegProcess := ffmpegProcess cs;
     ffmpegInputStream := ffmpegInputStream cs;
     pcmOutputStream := pcmOutputStream cs;
     isSendingAudioToGemini := isSendingAudioToGemini cs;
     audioBuffer := buffer;
     mimeType := mime;
     firstGeminiResponseReceived := firstGeminiResponseReceived cs |}.

Definition handleGeminiTurnComplete (ws : ws_id) (cs : clientState) (w : world)
  : clientState * world :=
  let cs := set_firstGeminiResponseReceived false cs in
  let '(cs, w) :=
    if (0 <? Z.of_nat (length (audioBuffer cs))) then
      (* try { ... } catch (wavError) { ws.send(error) } *)
      match
        let* wavHeader :=
          createWavHeader (Z.of_nat (length (audioBuffer cs))) 24000 16 1 in
        let finalAudioBuffer := Buf.concat wavHeader (audioBuffer cs) in
        let* finalAudioBase64 := Buf.toString finalAudioBuffer in
        stringify_audio finalAudioBase64
      with
      | inr message =>
          (set_audio (Buf.alloc 0) "" cs, log (WsSend ws message) w)
      | inl wavError =>
          (cs, log (WsSend ws (MsgError "Backend error processing Gemini audio: "
                                        wavError "Unknown audio error")) w)
      end
    else (cs, w) in
  (cs, log (WsSend ws MsgTurnComplete) w).

(** The body of the [forEach] over the parts of a model turn. *)
Definition handleGeminiPart (ws : ws_id) (acc : clientState * world)
  (part : Live.Part) : clientState * world :=
  let '(cs, w) := acc in
  let w := match Live.text part with
           | Some t => if negb (String.eqb t "") then processGeminiTextPart ws t w
                       else w
           | None => w
           end in
  let cs := match Live.inlineData part with
            | Some d =>
                if nonempty (Live.mimeType d) && startsWith (Live.mimeType d) "audio/"
                then processGeminiAudioPart cs d
                else cs
            | None => cs
            end in
  (cs, w).

Definition handleGeminiMessage (ws : ws_id) (m : Live.LiveServerMessage) (st : state) : state :=
  match clientStateMap st !! ws with
  | None => st
  | Some cs =>
      let cs := if firstGeminiResponseReceived cs then cs
                else set_firstGeminiResponseReceived true cs in
      let '(cs, w) :=
        match Live.serverContent m with
        | Some sc =>
            let '(cs, w) :=
              match Live.modelTurn sc with
              | Some mt =>
                  match Live.parts mt with
                  | Some ps => fold_left (handleGeminiPart ws) ps (cs, env st)
                  | None => (cs, env st)
                  end
              | None => (cs, env st)
              end in
            if Live.turnComplete sc then handleGeminiTurnComplete ws cs w
            else (cs, w)
        | None => (cs, env st)
        end in
      with_env w (with_client ws cs st)
  end.

Definition handleGeminiError (ws : ws_id) (error : js_error) (st : state) : state :=
  with_env (log (WsClose ws 1011 "Gemini API Error") (env st)) st.

(** [handleTextMessage] and [handleAudioMessage] return the exception they
    raise, if any, with the state reached when it was raised. *)
Definition handleTextMessage (ws : ws_id) (frontendMessage : json) (st : state)
  : result unit * state :=
  let currentSession := geminiSessionMap st !! ws in
  match clientStateMap st !! ws with
  | None => (throw (TypeError "Cannot read properties of undefined"), st)
  | Some cs =>
      let '(cs, w) := stopAudioProcessing cs (env st) in
      let st := with_env w (with_client ws cs st) in
      match bind (prop frontendMessage "message") createUserContent with
      | inl e => (inl e, st)
      | inr content =>
          match currentSession with
          | None => (throw (TypeError "Cannot read properties of undefined"), st)
          | Some session =>
              (ret tt,
               with_env (log (SendClientContent session [content] true) (env st)) st)
          end
      end
  end.

(** [configureFFmpegProcess]: starts the subprocess and returns what
    [pipe] returns. The callbacks it registers run later and are not part
    of this step. *)
Definition configureFFmpegProcess (ws : ws_id) (inputStream pcmStream : stream_id)
  (w : world) : ffmpegHandle * world :=
  let '(p, w) := ffmpeg_run ws inputStream pcmStream w in
  ({| pid := pipe_pid p |}, w).

Definition handleAudioMessage (ws : ws_id) (frontendMessage : json) (st : state)
  : result unit * state :=
  match bind (prop frontendMessage "audioData") Buffer_from with
  | inl e => (inl e, st)
  | inr audioBlob =>
      match clientStateMap st !! ws with
      | None => (throw (TypeError "Cannot read properties of undefined"), st)
      | Some cs =>
          let '(cs, w) := stopAudioProcessing cs (env st) in
          let '(inputStream, w) := new_PassThrough w in
          let '(pcmStream, w) := new_PassThrough w in
          let '(process, w) := configureFFmpegProcess ws inputStream pcmStream w in
          let cs :=
            {| ffmpegProcess := Some process;
               ffmpegInputStream := Some inputStream;
               pcmOutputStream := Some pcmStream;
               isSendingAudioToGemini := isSendingAudioToGemini cs;
               audioBuffer := Buf.alloc 0;
               mimeType := mimeType cs;
               firstGeminiResponseReceived := false |} in
          let w := log (StreamEnd inputStream audioBlob) w in
          (ret tt, with_env w (with_client ws cs st))
      end
  end.

Definition handleWebSocketMessage (ws : ws_id) (message : string) (st : state)
  : state :=
  let '(outcome, st) :=
    match geminiSessionMap st !! ws with
    | None =>
        (ret tt, with_env (log (WsClose ws 1011 "No active Gemini session") (env st)) st)
    | Some _ =>
        match clientStateMap st !! ws with
        | None =>
            (ret tt,
             with_env (log (WsClose ws 1011 "No active client state") (env st)) st)
        | Some _ =>
            match JSON_parse message with
            | inl e => (inl e, st)
            | inr frontendMessage =>
                match prop frontendMessage "type" with
                | inl e => (inl e, st)
                | inr type =>
                    if is_string type "text"
                    then handleTextMessage ws frontendMessage st
                    else if is_string type "audio"
                            && truthy (get frontendMessage "audioData")
                    then handleAudioMessage ws frontendMessage st
                    else (ret tt, st)
                end
            end
        end
    end in
  match outcome with
  | inl error =>
      with_env (log (WsSend ws (MsgError "Backend error processing message: "
                                         error "Unknown error")) (env st)) st
  | inr _ => st
  end.

(** The messages [msgs], each with the socket it arrives on, handled in
    order. *)
Definition receive (msgs : list (ws_id * string)) (st : state) : state :=
  fold_left (fun st m => handleWebSocketMessage m.1 m.2 st) msgs st.

Definition handleWebSocketClose (ws : ws_id) (st : state) : state :=
  cleanupClient ws st.

Definition handleWebSocketError (ws : ws_id) (st : state) : state :=
  cleanupClient ws st.

End Handlers.

(** [pipe(stream)] of fluent-ffmpeg returns its argument, the output
    stream; a [PassThrough] has no [pid] property. (Nor has the command
    object the chain is built on: it keeps the child process to itself.) *)
Definition fluent_ffmpeg_pipe_pid (p : Z) : option Z := None.

(** A library whose [pipe] returned the child process would give the
    [pid] of the subprocess. *)
Definition child_process_pid (p : Z) : option Z := Some p.

(** The bookkeeping [stopAudioProcessing] relies on: every running
    subprocess is the one whose [pid] the state object of its connection
    holds, and its [pid] has been handed out. *)
Definition tracked (st : state) : Prop :=
  forall p ws, running (env st) !! p = Some ws ->
    p < next_pid (env st) /\
    exists cs, clientStateMap st !! ws = Some cs /\
               ffmpegProcess cs = Some {| pid := Some p |}.

End Backend.

(** ** The handlers of [backend-node/server.js]

    The self-contained server: it keeps one audio buffer per connection,
    keeps no handle on the transcoding it starts, and sends no
    [turnComplete] message. *)

Module Server.

Record audioEntry := {
  buffer : Buf.Buffer;
  mimeType : string }.

Record state := {
  geminiSessionMap : gmap ws_id session_id;
  audioBuffers : gmap ws_id audioEntry;
  env : world }.

Definition with_env (w : world) (st : state) : state :=
  {| geminiSessionMap := geminiSessionMap st;
     audioBuffers := audioBuffers st; env := w |}.

Definition with_buffers (b : gmap ws_id audioEntry) (st : state) : state :=
  {| geminiSessionMap := geminiSessionMap st; audioBuffers := b; env := env st |}.

Definition with_sessions (s : gmap ws_id session_id) (st : state) : state :=
  {| geminiSessionMap := s; audioBuffers := audioBuffers st; env := env st |}.

Section Handlers.

Variable JSON_parse : string -> result json.
Variable base64_decode : string -> Buf.Buffer.
Variable Buffer_from_other : json -> result Buf.Buffer.
Variable toParts : option json -> result json.

(** The connection handler up to its [await]. *)
Definition connection_start (ws : ws_id) (st : state) : state :=
  with_buffers (<[ws := {| buffer := Buf.alloc 0; mimeType := "" |}]> (audioBuffers st)) st.

(** The connection handler from the [await] on: [connect] is the outcome
    of [ai.live.connect(connectParams)]. *)
Definition connection_settled (ws : ws_id) (connect : result session_id)
  (st : state) : state :=
  match connect with
  | inr session =>
      let st := with_sessions (<[ws := session]> (geminiSessionMap st)) st in
      with_env (log (WsOn ws "error")
                 (log (WsOn ws "close") (log (WsOn ws "message") (env st)))) st
  | inl error =>
      let st := with_buffers (delete ws (audioBuffers st)) st in
      with_env (log (WsClose ws 1011 "Backend connection error") (env st)) st
  end.

Definition connection (ws : ws_id) (connect : result session_id) (st : state)
  : state :=
  connection_settled ws connect (connection_start ws st).

(** The body of the [forEach] of the [onmessage] callback; [Buffer.from]
    is not guarded there, and an exception ends the loop. *)
Definition onmessage_part (ws : ws_id) (acc : result unit * (audioEntry * world))
  (part : Live.Part) : result unit * (audioEntry * world) :=
  match acc with
  | (inl _, _) => acc
  | (inr _, (b, w)) =>
      let w := match Live.text part with
               | Some t =>
                   if negb (String.eqb t "") then log (WsSend ws (MsgText t)) w
                   else w
               | None => w
               end in
      match Live.inlineData part with
      | Some d =>
          if nonempty (Live.mimeType d) && startsWith (Live.mimeType d) "audio/" then
            match Live.data d with
            | Some x =>
                (ret tt,
                 ({| buffer := Buf.concat (buffer b) (base64_decode x);
                     mimeType := default "" (Live.mimeType d) |}, w))
            | None => (throw (ERR_INVALID_ARG_TYPE "first argument"), (b, w))
            end
          else (ret tt, (b, w))
      | None => (ret tt, (b, w))
      end
  end.

(** The [turnComplete] branch of the [onmessage] callback; nothing
    catches an exception here. *)
Definition onmessage_turnComplete (ws : ws_id) (b : audioEntry) (w : world)
  : result unit * (audioEntry * world) :=
  if 0 <? Z.of_nat (length (buffer b)) then
    match
      let* wavHeader := createWavHeader (Z.of_nat (length (buffer b))) 24000 16 1 in
      let finalAudioBuffer := Buf.concat wavHeader (buffer b) in
      let* finalAudioBase64 := Buf.toString finalAudioBuffer in
      stringify_audio finalAudioBase64
    with
    | inr message =>
        (ret tt,
         ({| buffer := Buf.alloc 0; mimeType := "" |}, log (WsSend ws message) w))
    | inl e => (inl e, (b, w))
    end
  else (ret tt, (b, w)).

(** The [onmessage] callback of the AI session. An exception leaves the
    callback; the state is then the one reached when it was raised. *)
Definition onmessage (ws : ws_id) (m : Live.LiveServerMessage) (st : state)
  : result unit * state :=
  match audioBuffers st !! ws with
  | None => (ret tt, st)
  | Some b =>
      match Live.serverContent m with
      | Some sc =>
          let '(outcome, (b, w)) :=
            match Live.modelTurn sc with
            | Some mt =>
                match Live.parts mt with
                | Some ps => fold_left (onmessage_part ws) ps (ret tt, (b, env st))
                | None => (ret tt, (b, env st))
                end
            | None => (ret tt, (b, env st))
            end in
          let '(outcome, (b, w)) :=
            match outcome with
            | inl _ => (outcome, (b, w))
            | inr _ =>
                if Live.turnComplete sc then onmessage_turnComplete ws b w
                else (ret tt, (b, w))
            end in
          (outcome, with_env w (with_buffers (<[ws := b]> (audioBuffers st)) st))
      | None => (ret tt, st)
      end
  end.

Definition onerror (ws : ws_id) (error : js_error) (st : state) : state :=
  with_env (log (WsClose ws 1011 "Gemini API Error") (env st)) st.

Definition onclose (ws : ws_id) (st : state) : state :=
  with_buffers (delete ws (audioBuffers st)) st.

Definition createUserContent (x : option json) : result content :=
  match x with
  | Some (JStr s) => ret (UserText s)
  | other => let* p := toParts other in ret (UserParts p)
  end.

Definition Buffer_from (v : option json) : result Buf.Buffer :=
  match v with
  | Some (JStr s) => ret (base64_decode s)
  | Some other => Buffer_from_other other
  | None => throw (ERR_INVALID_ARG_TYPE "first argument")
  end.

(** The [try] block of [ws.on('message', ...)]. The streams and the
    subprocess of an audio message are held by local variables only. *)
Definition ws_message_try (ws : ws_id) (message : string) (st : state)
  : result unit * state :=
  match JSON_parse message with
  | inl e => (inl e, st)
  | inr frontendMessage =>
      match geminiSessionMap st !! ws with
      | None =>
          (ret tt, with_env (log (WsClose ws 1011 "No active Gemini session") (env st)) st)
      | Some currentSession =>
          match prop frontendMessage "type" with
          | inl e => (inl e, st)
          | inr type =>
              if is_string type "text" then
                match createUserContent (get frontendMessage "message") with
                | inl e => (inl e, st)
                | inr content =>
                    (ret tt,
                     with_env (log (SendClientContent currentSession [content] true)
                                 (env st)) st)
                end
              else if is_string type "audio" then
                match Buffer_from (get frontendMessage "audioData") with
                | inl e => (inl e, st)
                | inr audioBlob =>
                    let '(inputStream, w) := new_PassThrough (env st) in
                    let '(pcmStream, w) := new_PassThrough w in
                    let '(_, w) := ffmpeg_run ws inputStream pcmStream w in
                    let w := log (StreamEnd inputStream audioBlob) w in
                    (ret tt, with_env w st)
                end
              else (ret tt, st)
          end
      end
  end.

Definition ws_message (ws : ws_id) (message : string) (st : state) : state :=
  let '(outcome, st) := ws_message_try ws message st in
  match outcome with
  | inl error =>
      with_env (log (WsSend ws (MsgError "Backend error processing message: "
                                         error "Unknown error")) (env st)) st
  | inr _ => st
  end.

(** [ws.on('close', ...)] and [ws.on('error', ...)] have the same body. *)
Definition ws_close (ws : ws_id) (st : state) : state :=
  let st :=
    match geminiSessionMap st !! ws with
    | Some session =>
        with_env (log (SessionClose session) (env st))
          (with_sessions (delete ws (geminiSessionMap st)) st)
    | None => st
    end in
  with_buffers (delete ws (audioBuffers st)) st.

End Handlers.

End Server.

(** ** The client's message list

    Both versions of the React component keep a list of messages and
    change it when the socket delivers a message. *)

(** JavaScript's [findLastIndex], [None] standing for -1. *)
Fixpoint findLastIndex {A} (p : A -> bool) (l : list A) : option nat :=
  match l with
  | [] => None
  | x :: r =>
      match findLastIndex p r with
      | Some i => Some (S i)
      | None => if p x then Some O else None
      end
  end.

(** The JSON text of a message of the backend, as a tree; [message_of]
    is the [message] property of an exception. *)
Definition encode (message_of : js_error -> string) (m : server_msg) : json :=
  match m with
  | MsgText data =>
      JObj [("from", JStr "gemini"); ("type", JStr "text"); ("data", JStr data)]
  | MsgAudio audio mimeType =>
      JObj [("from", JStr "gemini"); ("type", JStr "audio");
            ("data", JObj [("audio", JStr audio); ("mimeType", JStr mimeType)])]
  | MsgTurnComplete =>
      JObj [("from", JStr "gemini"); ("type", JStr "turnComplete")]
  | MsgError prefix error fallback =>
      JObj [("from", JStr "backend"); ("type", JStr "error");
            ("data", JStr (prefix ++
                           (if String.eqb (message_of error) "" then fallback
                            else message_of error)))]
  end.

(** *** The current component (the version with [turnComplete]) *)

Module App.

Inductive sender_t := user | bot.
Inductive type_t := text | audio.

(** What [content] can hold: a value taken from a message ([None]
    standing for [undefined]), a string among them; or one of the numbers
    that are no JSON values, which [+] can give. *)
Inductive value :=
| Json (v : option json)
| NaN
| Infinity (negative : bool).

(** The string [s], as a value. *)
Definition str (s : string) : value := Json (Some (JStr s)).

Record message := {
  sender : sender_t;
  type : type_t;
  content : value;
  isError : bool;
  turnComplete : bool }.

Definition is_bot (msg : message) : bool :=
  match sender msg with bot => true | user => false end.

Definition is_bot_text (msg : message) : bool :=
  match sender msg, type msg with bot, text => true | _, _ => false end.

Definition set_turnComplete (msg : message) : message :=
  {| sender := sender msg; type := type msg; content := content msg;
     isError := isError msg; turnComplete := true |}.

Definition set_content (c : value) (msg : message) : message :=
  {| sender := sender msg; type := type msg; content := c;
     isError := isError msg; turnComplete := turnComplete msg |}.

(** An assistant text message, open or closed. *)
Definition open_text (c : string) : message :=
  {| sender := bot; type := text; content := str c; isError := false;
     turnComplete := false |}.

Definition closed_text (c : string) : message :=
  {| sender := bot; type := text; content := str c; isError := false;
     turnComplete := true |}.

(** No assistant message is open. *)
Definition settled (msgs : list message) : Prop :=
  forall msg, In msg msgs -> is_bot msg = true -> turnComplete msg = true.

(** Messages of the user only. *)
Definition from_user (msgs : list message) : Prop :=
  forall msg, In msg msgs -> is_bot msg = false.

(** [c + f1 + ... + fn], as repeated [+=] builds it from strings. *)
Definition joined (c : string) (fs : list string) : string :=
  fold_left String.append fs c.

(** [msgs[i].turnComplete], false when there is no such message. *)
Definition complete_at (msgs : list message) (i : option nat) : bool :=
  match i with
  | Some n => match msgs !! n with
              | Some msg => turnComplete msg
              | None => false
              end
  | None => false
  end.

(** [if (i !== -1 && !msgs[i].turnComplete) msgs[i].turnComplete = true]. *)
Definition close_open (msgs : list message) (i : option nat) : list message :=
  match i with
  | Some n => if complete_at msgs i then msgs else alter set_turnComplete n msgs
  | None => msgs
  end.

Section Component.

(** - [toString v]: the string a template literal substitutes for a [v]
      that is not a string;
    - [plus_other a b]: the value of [a + b] when [a] and [b] are not two
      strings: a numeric sum, or the concatenation of the two operands
      converted to strings;
    - [blobUrl audio mime]: the URL that [URL.createObjectURL] gives for
      the blob of [base64ToBlob(audio, mime)], or [None] when
      [base64ToBlob] returns [null];
    - [message_of]: the [message] property of an exception.
    The conversion of an array or an object to a string or a number
    can throw, so [toString] and [plus_other] return a [result]. *)
Variable JSON_parse : string -> result json.
Variable toString : option json -> result string.
Variable plus_other : value -> option json -> result value.
Variable blobUrl : json -> json -> option string.
Variable message_of : js_error -> string.

Definition string_of (v : option json) : result string :=
  match v with
  | Some (JStr s) => ret s
  | other => toString other
  end.

(** [a + b], for [a] a content and [b] a value received. *)
Definition plus (a : value) (b : option json) : result value :=
  match a, b with
  | Json (Some (JStr x)), Some (JStr y) => ret (str (x ++ y))
  | _, _ => plus_other a b
  end.

(** [msgs[i].content += v]. *)
Definition add_content (v : option json) (i : nat) (msgs : list message)
  : result (list message) :=
  match msgs !! i with
  | Some msg =>
      let* c := plus (content msg) v in
      ret (<[i := set_content c msg]> msgs)
  | None => throw (TypeError "Cannot read properties of undefined")
  end.

(** The function given to [setMessages] for a message of the AI
    ([data.from === 'gemini']). The source copies the array and changes
    the message objects it shares with [prev] in place; the definition
    gives the value of the array it returns, the function being applied
    once, to the current list, for each message received. The function
    raises an exception where [+=] does; it has then changed nothing. *)
Definition gemini_update (data : json) (prev : list message)
  : result (list message) :=
  let updatedMessages := prev in
  let lastBotMessageIndex := findLastIndex is_bot updatedMessages in
  let lastBotTextMessageIndex := findLastIndex is_bot_text updatedMessages in
  if is_string (get data "type") "text" then
    match lastBotTextMessageIndex with
    | Some i =>
        if negb (complete_at updatedMessages lastBotTextMessageIndex)
        then add_content (get data "data") i updatedMessages
        else
          ret (close_open updatedMessages lastBotMessageIndex ++
               [{| sender := bot; type := text; content := Json (get data "data");
                   isError := false; turnComplete := false |}])
    | None =>
        ret (close_open updatedMessages lastBotMessageIndex ++
             [{| sender := bot; type := text; content := Json (get data "data");
                 isError := false; turnComplete := false |}])
    end
  else if is_string (get data "type") "audio"
          && truthy (get data "data")
          && truthy (bind_get (get data "data") "audio")
          && truthy (bind_get (get data "data") "mimeType") then
    match bind_get (get data "data") "audio", bind_get (get data "data") "mimeType" with
    | Some a, Some m =>
        match blobUrl a m with
        | Some audioUrl =>
            ret (close_open updatedMessages lastBotMessageIndex ++
                 [{| sender := bot; type := audio; content := str audioUrl;
                     isError := false; turnComplete := true |}])
        | None => ret updatedMessages
        end
    | _, _ => ret updatedMessages
    end
  else if is_string (get data "type") "turnComplete" then
    ret (close_open updatedMessages lastBotMessageIndex)
  else ret updatedMessages.

(** The messages [datas] of the AI, delivered in order, up to the first
    exception. *)
Definition deliver (datas : list json) (messages : list message)
  : result (list message) :=
  fold_left (fun acc data => let* messages := acc in gemini_update data messages)
    datas (ret messages).

Definition error_message (content : string) : message :=
  {| sender := bot; type := text; content := str content;
     isError := true; turnComplete := true |}.

(** [socketRef.current.onmessage], as the change of the message list:
    the list that the function given to [setMessages] returns, or the
    exception it raises. The handler's [try] block catches what
    [JSON.parse] and the reading of [data.from] raise; it does not catch
    an exception of the function given to [setMessages], which React
    raises again when it renders. *)
Definition onmessage (event_data : string) (messages : list message)
  : result (list message) :=
  match bind (JSON_parse event_data) (fun data =>
          let* from := prop data "from" in ret (data, from)) with
  | inr (data, from) =>
      if is_string from "gemini" then gemini_update data messages
      else if is_string from "backend" && is_string (get data "type") "error"
      then let* reported := string_of (get data "data") in
           ret (messages ++ [error_message ("Erro do Backend: " ++ reported)])
      else ret messages
  | inl error =>
      ret (messages ++
           [error_message ("Erro ao processar mensagem: " ++ message_of error)])
  end.

End Component.

End App.

(** *** The first component (no [turnComplete]) *)

Module App0.

Inductive sender_t := user | bot.
Inductive type_t := text | audio.

(** [content] is what the backend sent for a text, the blob URL for an
    audio clip. *)
Record message := {
  sender : sender_t;
  type : type_t;
  content : option json }.

(** The message a text fragment becomes. *)
Definition text_message (f : string) : message :=
  {| sender := bot; type := text; content := Some (JStr f) |}.

Section Component.

Variable JSON_parse : string -> result json.
Variable blobUrl : json -> json -> result string.

(** The handler from the parsed message on. *)
Definition ondata (data : json) (messages : list message)
  : result (list message) :=
  let* from := prop data "from" in
  if is_string from "gemini" then
    if is_string (get data "type") "text" then
      ret (messages ++ [{| sender := bot; type := text; content := get data "data" |}])
    else if is_string (get data "type") "audio"
            && truthy (get data "data")
            && truthy (bind_get (get data "data") "audio")
            && truthy (bind_get (get data "data") "mimeType") then
      match bind_get (get data "data") "audio", bind_get (get data "data") "mimeType" with
      | Some a, Some m =>
          let* audioUrl := blobUrl a m in
          ret (messages ++
               [{| sender := bot; type := audio; content := Some (JStr audioUrl) |}])
      | _, _ => ret messages
      end
    else ret messages
  else ret messages.

(** [socketRef.current.onmessage]; nothing catches an exception here. *)
Definition onmessage (event_data : string) (messages : list message)
  : result (list message) :=
  let* data := JSON_parse event_data in
  ondata data messages.

(** The messages [datas], delivered in order. *)
Definition deliver (datas : list json) (messages : list message)
  : result (list message) :=
  fold_left (fun acc data => let* messages := acc in ondata data messages)
    datas (ret messages).

End Component.

End App0.

(** ** [truncateAudioData] of [utils.js]

    The function clones its argument and changes the clone in place, so
    objects are modelled in a heap: a value is a primitive or the address
    of an object, and an object is the list of its enumerable entries in
    the order [for ... in] visits them. The values are those [JSON.parse]
    can build. *)

Module Truncate.

Definition loc := nat.

Inductive value :=
| VNull
| VBool (b : bool)
| VNum (q : Q)
| VStr (s : string)
| VRef (l : loc).

(** The key of an entry: an array index or a property name. *)
Inductive key :=
| Index (i : nat)
| Name (s : string).

Record object := {
  isArray : bool;
  entries : list (key * value) }.

Definition heap := list object.

Definition key_string (k : key) : string :=
  match k with
  | Name s => s
  | Index i => pretty i
  end.

(** The tree of an object from its entries and the trees of their
    values. *)
Definition assemble (array : bool) (children : list (key * json)) : json :=
  if array then JArr (map snd children)
  else JObj (map (fun kc => (key_string kc.1, kc.2)) children).

(** [JSON.stringify(v)] as a tree. The result is [None] when the fuel
    runs out, which it does on a cyclic value, where [JSON.stringify]
    throws. *)
Fixpoint stringify (fuel : nat) (h : heap) (v : value) {struct fuel}
  : option json :=
  match v with
  | VNull => Some JNull
  | VBool b => Some (JBool b)
  | VNum q => Some (JNum q)
  | VStr s => Some (JStr s)
  | VRef l =>
      match fuel with
      | O => None
      | S fuel =>
          match h !! l with
          | Some o =>
              assemble (isArray o)
                <$> mapM (fun kv => pair kv.1 <$> stringify fuel h kv.2) (entries o)
          | None => None
          end
      end
  end.

(** [JSON.parse] of the text of a tree: the value, and the objects it
    allocates from address [base] on, children before their parent. *)
Section Children.
Context {A : Type}.
Variable layout : json -> nat -> value * list object.
Variable child : A -> json.
Variable key_of : nat -> A -> key.

Fixpoint layout_children (xs : list A) (i base : nat)
  : list (key * value) * list object :=
  match xs with
  | [] => ([], [])
  | x :: r =>
      let '(v, o1) := layout (child x) base in
      let '(es, o2) := layout_children r (S i) (base + length o1)%nat in
      ((key_of i x, v) :: es, o1 ++ o2)
  end.

End Children.

Fixpoint layout (t : json) (base : nat) {struct t} : value * list object :=
  match t with
  | JNull => (VNull, [])
  | JBool b => (VBool b, [])
  | JNum q => (VNum q, [])
  | JStr s => (VStr s, [])
  | JArr elems =>
      let '(es, os) :=
        layout_children layout (fun t => t) (fun i _ => Index i) elems 0 base in
      (VRef (base + length os)%nat, os ++ [{| isArray := true; entries := es |}])
  | JObj fields =>
      let '(es, os) :=
        layout_children layout snd (fun _ kv => Name kv.1) fields 0 base in
      (VRef (base + length os)%nat, os ++ [{| isArray := false; entries := es |}])
  end.

Definition JSON_parse_tree (text : json) (h : heap) : value * heap :=
  let '(v, os) := layout text (length h) in (v, h ++ os).

(** [key === 'data' || key === 'audio' || key === 'audioData']. *)
Definition is_audio_key (k : key) : bool :=
  match k with
  | Name s => String.eqb s "data" || String.eqb s "audio" || String.eqb s "audioData"
  | Index _ => false
  end.

(** The class [[a-zA-Z0-9+/=]]. *)
Definition base64_char (c : ascii) : bool :=
  let n := nat_of_ascii c in
  ((97 <=? n) && (n <=? 122) || (65 <=? n) && (n <=? 90)
   || (48 <=? n) && (n <=? 57) || (n =? 43) || (n =? 47) || (n =? 61))%nat.

(** [/^[a-zA-Z0-9+/=]/.test(s.substring(0, 50))]. *)
Definition base64_start (s : string) : bool :=
  match substring 0 50 s with
  | String c _ => base64_char c
  | EmptyString => false
  end.

(** [s.substring(0, maxLength) + '...[TRUNCATED]']. *)
Definition cut (maxLength : Z) (s : string) : string :=
  substring 0 (Z.to_nat maxLength) s ++ "...[TRUNCATED]".

(** The test guarding the assignment, for a string value. *)
Definition eligible (maxLength : Z) (k : key) (s : string) : bool :=
  is_audio_key k && (maxLength <? Z.of_nat (String.length s)) && base64_start s.

Definition set_entry (i : nat) (v : value) (o : object) : object :=
  {| isArray := isArray o;
     entries := alter (fun kv => (kv.1, v)) i (entries o) |}.

(** One turn of the loop [for (const key in current)], on the entry at
    position [i] of the object at [l]; the keys of an object are
    distinct, so [current[key]] is that entry. *)
Definition visit (traverse : heap -> value -> option heap) (maxLength : Z)
  (l : loc) (h : heap) (i : nat) : option heap :=
  match h !! l with
  | Some o =>
      match entries o !! i with
      | Some (k, VStr s) =>
          if eligible maxLength k s
          then Some (<[l := set_entry i (VStr (cut maxLength s)) o]> h)
          else Some h
      | Some (_, VRef l') => traverse h (VRef l')
      | Some (_, VNull) => traverse h VNull
      | Some (_, _) => Some h
      | None => Some h
      end
  | None => None
  end.

Fixpoint for_in (step : heap -> nat -> option heap) (positions : list nat)
  (h : heap) : option heap :=
  match positions with
  | [] => Some h
  | i :: r =>
      match step h i with
      | Some h => for_in step r h
      | None => None
      end
  end.

(** The inner function [traverse(current)], changing the heap in place. *)
Fixpoint traverse (fuel : nat) (maxLength : Z) (h : heap) (current : value)
  {struct fuel} : option heap :=
  match current with
  | VRef l =>
      match fuel with
      | O => None
      | S fuel =>
          match h !! l with
          | Some o =>
              for_in (visit (traverse fuel maxLength) maxLength l)
                (seq 0 (length (entries o))) h
          | None => None
          end
      end
  | _ => Some h
  end.

(** [truncateAudioData(obj, maxLength)]: the value returned and the heap
    afterwards. *)
Definition truncateAudioData (fuel : nat) (obj : value) (maxLength : Z) (h : heap)
  : option (value * heap) :=
  match obj with
  | VRef _ =>
      match stringify fuel h obj with
      | Some text =>
          let '(clonedObj, h) := JSON_parse_tree text h in
          match traverse fuel maxLength h clonedObj with
          | Some h => Some (clonedObj, h)
          | None => None
          end
      | None => None
      end
  | _ => Some (obj, h)
  end.

(** The result as a function on trees: a string under one of
    the three keys, longer than [maxLength] and starting with a base64
    character, is cut and marked; everything else is kept. *)
Fixpoint truncated (maxLength : Z) (t : json) {struct t} : json :=
  match t with
  | JArr elems => JArr (map (truncated maxLength) elems)
  | JObj fields =>
      JObj (map (fun kv =>
                   (kv.1,
                    match kv.2 with
                    | JStr s => if eligible maxLength (Name kv.1) s
                                then JStr (cut maxLength s) else JStr s
                    | _ => truncated maxLength kv.2
                    end)) fields)
  | other => other
  end.

(** The change of one field of an object. *)
Definition tr_field (maxLength : Z) (kv : string * json) : string * json :=
  (kv.1,
   match kv.2 with
   | JStr s => if eligible maxLength (Name kv.1) s
               then JStr (cut maxLength s) else JStr s
   | _ => truncated maxLength kv.2
   end).

(** Nesting depth of objects and arrays. *)
Fixpoint depth (t : json) : nat :=
  match t with
  | JArr elems => S (foldr (fun t n => Nat.max (depth t) n) O elems)
  | JObj fields => S (foldr (fun kv n => Nat.max (depth kv.2) n) O fields)
  | _ => O
  end.

(** *** Statements about a tree laid out in a heap

    [pre] is the heap before the tree was parsed, [post] whatever was
    allocated after it. *)

(** The entries of an object with the trees of their values. *)
Fixpoint keyed {A} (child : A -> json) (key_of : nat -> A -> key) (xs : list A)
  (i : nat) : list (key * json) :=
  match xs with
  | [] => []
  | x :: r => (key_of i x, child x) :: keyed child key_of r (S i)
  end.

(** [JSON.stringify] reads the tree back. *)
Definition stringifies (t : json) : Prop :=
  forall fuel pre post, (depth t <= fuel)%nat ->
    stringify fuel (pre ++ (layout t (length pre)).2 ++ post) (layout t (length pre)).1
    = Some t.

(** The truncated tree occupies the same addresses. *)
Definition same_shape (maxLength : Z) (t : json) : Prop :=
  forall base,
    (layout (truncated maxLength t) base).1 = (layout t base).1 /\
    length (layout (truncated maxLength t) base).2 = length (layout t base).2.

(** [traverse] turns the objects of the tree into those of the truncated
    tree and touches nothing else. *)
Definition traverses (maxLength : Z) (t : json) : Prop :=
  forall fuel pre post, (depth t <= fuel)%nat ->
    traverse fuel maxLength (pre ++ (layout t (length pre)).2 ++ post)
      (layout t (length pre)).1
    = Some (pre ++ (layout (truncated maxLength t) (length pre)).2 ++ post).

End Truncate.

(** ** Concrete runs

    Concrete connections, messages and heaps, and total functions for
    [JSON.parse], base64 decoding and the SDK's conversions that agree
    with the runtime on the texts used here. *)

Module Scenario.

Definition world0 : world :=
  {| running := ∅; open_streams := ∅; next_pid := 4000; next_stream := 1%positive;
     trace := [] |}.

(** [s] between double quotes. *)
Definition quoted (s : string) : string :=
  String (ascii_of_nat 34) s ++ String (ascii_of_nat 34) "".

Definition text_hello : string :=
  "{" ++ quoted "type" ++ ":" ++ quoted "text" ++ ","
  ++ quoted "message" ++ ":" ++ quoted "hello" ++ "}".

Definition audio_clip : string :=
  "{" ++ quoted "type" ++ ":" ++ quoted "audio" ++ ","
  ++ quoted "audioData" ++ ":" ++ quoted "GkXfow==" ++ "}".

Definition text_json : json :=
  JObj [("type", JStr "text"); ("message", JStr "hello")].
Definition audio_json : json :=
  JObj [("type", JStr "audio"); ("audioData", JStr "GkXfow==")].

(** A parser that recognises the two texts above and rejects every
    other text; the bytes of [GkXfow==]; [Buffer.from(undefined, 'base64')]
    and [createUserContent(undefined)], which throw. *)
Definition parse (s : string) : result json :=
  if String.eqb s text_hello then ret text_json
  else if String.eqb s audio_clip then ret audio_json
  else throw (SyntaxError "Unexpected token").

Definition decode (s : string) : Buf.Buffer := [26; 69; 223; 163].
Definition from_other (v : json) : result Buf.Buffer :=
  throw (ERR_INVALID_ARG_TYPE "first argument").
Definition parts_of (v : option json) : result json :=
  throw (Error "partOrString must be a Part object, string, or array").

(** One connection, socket 1 with session 7, and no pipeline. *)
Definition connected : Backend.state :=
  {| Backend.geminiSessionMap := {[1%positive := 7%positive]};
     Backend.clientStateMap := {[1%positive := Backend.idle [] "" false]};
     Backend.env := world0 |}.

Definition empty : Backend.state :=
  {| Backend.geminiSessionMap := ∅; Backend.clientStateMap := ∅;
     Backend.env := world0 |}.

Definition server_connected : Server.state :=
  {| Server.geminiSessionMap := {[1%positive := 7%positive]};
     Server.audioBuffers :=
       {[1%positive := {| Server.buffer := []; Server.mimeType := "" |}]};
     Server.env := world0 |}.

(** [n] audio messages in a row on socket 1, with the [pid] property
    that [pipe_pid] describes. *)
Fixpoint audio_burst (pipe_pid : Z -> option Z) (n : nat) (st : Backend.state)
  : Backend.state :=
  match n with
  | O => st
  | S k =>
      (Backend.handleAudioMessage decode from_other pipe_pid 1%positive audio_json
         (audio_burst pipe_pid k st)).2
  end.

(** The state object of socket 1 after an audio message, with
    fluent-ffmpeg. *)
Definition streaming_client : Backend.clientState :=
  {| Backend.ffmpegProcess := Some {| Backend.pid := None |};
     Backend.ffmpegInputStream := Some 1%positive;
     Backend.pcmOutputStream := Some 2%positive;
     Backend.isSendingAudioToGemini := false;
     Backend.audioBuffer := [];
     Backend.mimeType := "";
     Backend.firstGeminiResponseReceived := false |}.

Definition streaming : Backend.state :=
  audio_burst Backend.fluent_ffmpeg_pipe_pid 1 connected.

(** No text for an exception, and conversions that are never needed:
    the values used with them here are strings. *)
Definition no_message (e : js_error) : string := "".
Definition no_string (v : option json) : result string :=
  throw (TypeError "Cannot convert object to primitive value").
Definition no_plus (a : App.value) (b : option json) : result App.value :=
  throw (TypeError "Cannot convert object to primitive value").
Definition no_blob (audio mime : json) : option string := None.
Definition no_blob0 (audio mime : json) : result string :=
  throw (Error "InvalidCharacterError").

(** The list after the user has sent one text. *)
Definition user_said_hi : list App.message :=
  [{| App.sender := App.user; App.type := App.text; App.content := App.str "hi";
      App.isError := false; App.turnComplete := true |}].

(** The messages of one assistant turn in three text fragments. *)
Definition hello_world : list json :=
  map (encode no_message)
    [MsgText "Hel"; MsgText "lo"; MsgText " world"; MsgTurnComplete].

(** [{serverContent: {turnComplete: true}}]. *)
Definition turn_complete : Live.LiveServerMessage :=
  {| Live.serverContent :=
       Some {| Live.modelTurn := None; Live.turnComplete := true |} |}.

(** A heap holding, at address 2, the message
    [{from: 'gemini', type: 'audio',
      data: {audio: 'GkXfowEAAAA=', mimeType: 'audio/wav'},
      log: ['GkXfowEAAAA=']}]. *)
Definition audio_heap : Truncate.heap :=
  [ {| Truncate.isArray := false;
       Truncate.entries :=
         [(Truncate.Name "audio", Truncate.VStr "GkXfowEAAAA=");
          (Truncate.Name "mimeType", Truncate.VStr "audio/wav")] |};
    {| Truncate.isArray := true;
       Truncate.entries := [(Truncate.Index 0%nat, Truncate.VStr "GkXfowEAAAA=")] |};
    {| Truncate.isArray := false;
       Truncate.entries :=
         [(Truncate.Name "from", Truncate.VStr "gemini");
          (Truncate.Name "type", Truncate.VStr "audio");
          (Truncate.Name "data", Truncate.VRef 0%nat);
          (Truncate.Name "log", Truncate.VRef 1%nat)] |} ].

Definition audio_tree : json :=
  JObj [("from", JStr "gemini"); ("type", JStr "audio");
        ("data", JObj [("audio", JStr "GkXfowEAAAA="); ("mimeType", JStr "audio/wav")]);
        ("log", JArr [JStr "GkXfowEAAAA="])].

End Scenario.

(** ** The WAV header in general

    [createWavHeader] for any sample rate, sample width and channel
    count. *)

(** The 44 bytes of a canonical PCM header: the markers [RIFF], [WAVE],
    [fmt ] and [data], and between them the little-endian fields, the
    byte rate and the block alignment rounded down to an integer. *)
Definition wav_layout (pcmDataLength sampleRate bitsPerSample numChannels : Z)
  : Buf.Buffer :=
  [82; 73; 70; 70] ++ Buf.le_bytes 4 (pcmDataLength + 36) ++
  [87; 65; 86; 69; 102; 109; 116; 32] ++
  Buf.le_bytes 4 16 ++ Buf.le_bytes 2 1 ++
  Buf.le_bytes 2 numChannels ++ Buf.le_bytes 4 sampleRate ++
  Buf.le_bytes 4 (sampleRate * numChannels * bitsPerSample / 8) ++
  Buf.le_bytes 2 (numChannels * bitsPerSample / 8) ++
  Buf.le_bytes 2 bitsPerSample ++
  [100; 97; 116; 97] ++ Buf.le_bytes 4 pcmDataLength.

(** The values [createWavHeader] writes are all in the range of their
    fields. *)
Definition wav_in_range (pcmDataLength sampleRate bitsPerSample numChannels : Z)
  : Prop :=
  0 <= pcmDataLength <= 4294967259 /\
  0 <= numChannels <= 65535 /\
  0 <= sampleRate <= 4294967295 /\
  0 <= bitsPerSample <= 65535 /\
  sampleRate * numChannels * bitsPerSample <= 8 * 4294967295 /\
  numChannels * bitsPerSample <= 8 * 65535.

(** [0 <= q <= hi], the test of [checkInt] on the value. *)
Definition in_range (q : Q) (hi : Z) : bool :=
  Qle_bool (inject_Z 0) q && Qle_bool q (inject_Z hi).

(** ** What a connection goes through ([utils.js])

    The handlers a server attaches to a client socket and to its AI
    session, as the events of a connection. *)

Module Connection.
Import Backend.

(** A message of the client ([handleWebSocketMessage]), a message or an
    error of the AI session ([handleGeminiMessage], [handleGeminiError]),
    the close or an error of the client socket ([handleWebSocketClose],
    [handleWebSocketError]). *)
Inductive event :=
| ClientMessage (ws : ws_id) (message : string)
| GeminiMessage (ws : ws_id) (m : Live.LiveServerMessage)
| GeminiError (ws : ws_id) (error : js_error)
| SocketClose (ws : ws_id)
| SocketError (ws : ws_id).

Section Run.

Variable JSON_parse : string -> result json.
Variable base64_decode : string -> Buf.Buffer.
Variable Buffer_from_other : json -> result Buf.Buffer.
Variable toParts : option json -> result json.
Variable pipe_pid : Z -> option Z.

Definition step (e : event) (st : state) : state :=
  match e with
  | ClientMessage ws message =>
      handleWebSocketMessage JSON_parse base64_decode Buffer_from_other toParts
        pipe_pid ws message st
  | GeminiMessage ws m => handleGeminiMessage base64_decode ws m st
  | GeminiError ws error => handleGeminiError ws error st
  | SocketClose ws => handleWebSocketClose ws st
  | SocketError ws => handleWebSocketError ws st
  end.

Definition run (events : list event) (st : state) : state :=
  fold_left (fun st e => step e st) events st.

(** The messages [ms] of the AI session of [ws], handled in order. *)
Definition relay (ws : ws_id) (ms : list Live.LiveServerMessage) (st : state)
  : state :=
  fold_left (fun st m => handleGeminiMessage base64_decode ws m st) ms st.

End Run.

(** The parts of a message, none when [serverContent], [modelTurn] or
    [parts] is absent. *)
Definition parts_of (m : Live.LiveServerMessage) : list Live.Part :=
  match Live.serverContent m with
  | Some sc =>
      match Live.modelTurn sc with
      | Some mt => default [] (Live.parts mt)
      | None => []
      end
  | None => []
  end.

(** [serverContent.turnComplete] of a message, false without
    [serverContent]. *)
Definition ends_turn (m : Live.LiveServerMessage) : bool :=
  match Live.serverContent m with
  | Some sc => Live.turnComplete sc
  | None => false
  end.

(** The text a part carries ([part.text], when it is not empty). *)
Definition text_of (part : Live.Part) : list string :=
  match Live.text part with
  | Some t => if negb (String.eqb t "") then [t] else []
  | None => []
  end.

(** The audio a part carries: [part.inlineData.data], when it is not
    empty and [part.inlineData.mimeType] starts with [audio/]. *)
Definition audio_of (part : Live.Part) : list string :=
  match Live.inlineData part with
  | Some d =>
      if nonempty (Live.mimeType d) && startsWith (Live.mimeType d) "audio/"
      then match Live.data d with
           | Some x => if negb (String.eqb x "") then [x] else []
           | None => []
           end
      else []
  | None => []
  end.

(** The bytes of the base64 chunks [xs], in order. *)
Definition decoded (base64_decode : string -> Buf.Buffer) (xs : list string)
  : Buf.Buffer :=
  flat_map base64_decode xs.

(** The text messages for the fragments [ts]. *)
Definition sends (ws : ws_id) (ts : list string) : list call :=
  map (fun t => WsSend ws (MsgText t)) ts.

(** The pipeline handles of a state object. *)
Definition handles (cs : clientState)
  : option ffmpegHandle * option stream_id * option stream_id :=
  (ffmpegProcess cs, ffmpegInputStream cs, pcmOutputStream cs).

(** The state object holds stream [s]. *)
Definition holds (cs : clientState) (s : stream_id) : Prop :=
  ffmpegInputStream cs = Some s \/ pcmOutputStream cs = Some s.

(** Every open stream is held by the state object of a connection. *)
Definition streams_held (st : state) : Prop :=
  forall s, s ∈ open_streams (env st) ->
    exists ws cs, clientStateMap st !! ws = Some cs /\ holds cs s.

(** The calls a handler makes on behalf of connection [ws] of state
    [st]: messages to its own socket; a close of its own socket, with
    code 1011, when the connection lacks a session or a state object; a
    complete turn to its own session; the kill of the process and the
    destruction of the streams its own state object names; the start of a
    transcoding and the feeding of its input. Never the close of a
    session. *)
Definition own_call (st : state) (ws : ws_id) (c : call) : Prop :=
  match c with
  | WsSend ws' _ => ws' = ws
  | WsClose ws' code _ =>
      ws' = ws /\ code = 1011 /\
      (geminiSessionMap st !! ws = None \/ clientStateMap st !! ws = None)
  | SendClientContent s _ turnComplete =>
      geminiSessionMap st !! ws = Some s /\ turnComplete = true
  | StreamDestroy s => exists cs, clientStateMap st !! ws = Some cs /\ holds cs s
  | ProcessKill p _ =>
      exists cs h, clientStateMap st !! ws = Some cs /\
                   ffmpegProcess cs = Some h /\ pid h = p
  | FfmpegRun _ _ _ | StreamEnd _ _ => True
  | SessionClose _ | WsOn _ _ => False
  end.

(** The connection an event belongs to. *)
Definition socket_of (e : event) : ws_id :=
  match e with
  | ClientMessage ws _ | GeminiMessage ws _ | GeminiError ws _
  | SocketClose ws | SocketError ws => ws
  end.

(** The call an event makes on a connection that has been cleaned up. *)
Definition late_calls (e : event) : list call :=
  match e with
  | ClientMessage ws _ => [WsClose ws 1011 "No active Gemini session"]
  | GeminiError ws _ => [WsClose ws 1011 "Gemini API Error"]
  | GeminiMessage _ _ | SocketClose _ | SocketError _ => []
  end.

(** What a handler leaves of the maps when it only rewrites the state
    object of [ws]. *)
Definition maps_kept (ws : ws_id) (st st' : state) : Prop :=
  geminiSessionMap st' = geminiSessionMap st /\
  (forall ws', ws' <> ws -> clientStateMap st' !! ws' = clientStateMap st !! ws') /\
  (is_Some (clientStateMap st' !! ws) <-> is_Some (clientStateMap st !! ws)).

End Connection.

(** ** The callbacks of a transcoding pipeline ([utils.js])

    [setupPcmStreamHandlers] and [configureFFmpegProcess] register
    callbacks on the output stream and on the ffmpeg command. Each
    callback closes over the socket, the session and the state object of
    the connection, and is modelled as a function of the state object at
    the time it runs. The audio handed to the session with
    [sendRealtimeInput] is kept in a log of its own, beside the world.
    A chunk is what one read of the subprocess's output gave, far below
    the length at which its base64 text could not be made. *)

Module Pipeline.
Import Backend.

Inductive realtime_call :=
| SendRealtimeInput (s : session_id) (data : string) (mimeType : string).

Record io := {
  sys : world;
  realtime : list realtime_call }.

Definition on_sys (f : world -> world) (x : io) : io :=
  {| sys := f (sys x); realtime := realtime x |}.

Definition set_isSendingAudioToGemini (b : bool) (cs : clientState) : clientState :=
  {| ffmpegProcess := ffmpegProcess cs;
     ffmpegInputStream := ffmpegInputStream cs;
     pcmOutputStream := pcmOutputStream cs;
     isSendingAudioToGemini := b;
     audioBuffer := audioBuffer cs;
     mimeType := mimeType cs;
     firstGeminiResponseReceived := firstGeminiResponseReceived cs |}.

(** [stopAudioProcessing(clientState)] inside a callback. *)
Definition stop (cs : clientState) (x : io) : clientState * io :=
  let '(cs, w) := stopAudioProcessing cs (sys x) in
  (cs, {| sys := w; realtime := realtime x |}).

(** The events of a pipeline: [data], [error] and [end] of the output
    stream, [error] and [end] of the ffmpeg command. A [data] event comes
    with the [readyState] of the client socket at that time. *)
Inductive event :=
| PcmData (readyState : Z) (pcmChunk : Buf.Buffer)
| PcmError (err : js_error)
| PcmEnd
| FfmpegError (err : js_error)
| FfmpegEnd.

Section Callbacks.

(** - [sendRealtimeInput_outcome before s data]: whether
      [session.sendRealtimeInput] of session [s] returns or throws,
      [before] being the audio handed over so far;
    - [sendClientContent_outcome before s]: the same for
      [session.sendClientContent] with the empty turn that ends an audio
      input.
    A session object has both methods. *)
Variable sendRealtimeInput_outcome :
  list realtime_call -> session_id -> string -> result unit.
Variable sendClientContent_outcome : list realtime_call -> session_id -> result unit.

Definition sendAudioChunkToGemini (ws : ws_id) (currentSession : option session_id)
  (readyState : Z) (cs : clientState) (pcmChunk : Buf.Buffer) (x : io)
  : clientState * io :=
  match currentSession with
  | Some session =>
      if readyState =? 1 then
        let cs := if isSendingAudioToGemini cs then cs
                  else set_isSendingAudioToGemini true cs in
        let pcmBase64 := Buf.toString_base64 pcmChunk in
        let outcome := sendRealtimeInput_outcome (realtime x) session pcmBase64 in
        let x := {| sys := sys x;
                    realtime := realtime x ++
                      [SendRealtimeInput session pcmBase64 "audio/pcm;rate=24000"] |} in
        match outcome with
        | inr _ => (cs, x)
        | inl geminiError =>
            let '(cs, x) := stop cs x in
            (cs, on_sys (log (WsSend ws
                   (MsgError "Backend error sending audio chunk to Gemini: "
                      geminiError "Unknown Gemini send error"))) x)
        end
      else stop cs x
  | None => stop cs x
  end.

Definition signalAudioEndToGemini (ws : ws_id) (currentSession : option session_id)
  (cs : clientState) (x : io) : clientState * io :=
  let cs := set_isSendingAudioToGemini false cs in
  match currentSession with
  | Some session =>
      (* createUserContent('') is a user turn with one empty text part *)
      let x := on_sys (log (SendClientContent session [UserText ""] true)) x in
      match sendClientContent_outcome (realtime x) session with
      | inr _ => (cs, x)
      | inl signalError =>
          (cs, on_sys (log (WsSend ws
                 (MsgError "Backend error signaling end of audio turn: "
                    signalError "Unknown signal error"))) x)
      end
  | None => (cs, x)
  end.

(** The callback of each event, for the pipeline that
    [handleAudioMessage] set up for socket [ws] with session
    [currentSession]. *)
Definition on_event (ws : ws_id) (currentSession : option session_id)
  (s : clientState * io) (e : event) : clientState * io :=
  let '(cs, x) := s in
  match e with
  | PcmData readyState pcmChunk =>
      sendAudioChunkToGemini ws currentSession readyState cs pcmChunk x
  | PcmError err =>
      let '(cs, x) := stop cs x in
      (cs, on_sys (log (WsSend ws
             (MsgError "Audio output stream error: " err "Unknown stream error"))) x)
  | PcmEnd => (cs, x)
  | FfmpegError err =>
      let '(cs, x) := stop cs x in
      (cs, on_sys (log (WsSend ws
             (MsgError "Audio conversion failed: " err "Unknown FFmpeg error"))) x)
  | FfmpegEnd => signalAudioEndToGemini ws currentSession cs x
  end.

Definition on_events (ws : ws_id) (currentSession : option session_id)
  (es : list event) (s : clientState * io) : clientState * io :=
  fold_left (on_event ws currentSession) es s.

End Callbacks.

(** The [sendRealtimeInput] call that forwards a chunk. *)
Definition forwarded (session : session_id) (pcmChunk : Buf.Buffer) : realtime_call :=
  SendRealtimeInput session (Buf.toString_base64 pcmChunk) "audio/pcm;rate=24000".

(** What the session is handed: nothing without a session, chunks
    otherwise. *)
Definition handed (currentSession : option session_id) (chunks : list Buf.Buffer)
  : list realtime_call :=
  match currentSession with
  | Some session => map (forwarded session) chunks
  | None => []
  end.

(** The chunks of the [data] events among [es], in order. *)
Definition chunks_of (es : list event) : list Buf.Buffer :=
  flat_map (fun e => match e with PcmData _ c => [c] | _ => [] end) es.

(** The calls a callback of the pipeline of socket [ws] can make: the
    kill of a process, the destruction of a stream, an error message to
    the client, and the empty complete turn to the session. *)
Definition pipeline_call (ws : ws_id) (currentSession : option session_id)
  (c : call) : Prop :=
  match c with
  | ProcessKill _ _ | StreamDestroy _ => True
  | WsSend ws' (MsgError _ _ _) => ws' = ws
  | SendClientContent s turns turnComplete =>
      currentSession = Some s /\ turns = [UserText ""] /\ turnComplete = true
  | _ => False
  end.

End Pipeline.

(** ** What a connection of [server.js] goes through *)

Module ServerConnection.
Import Server.

(** The callbacks of the AI session ([onmessage], [onerror], [onclose])
    and the handlers of the client socket ([message], [close], [error]). *)
Inductive event :=
| GeminiMessage (ws : ws_id) (m : Live.LiveServerMessage)
| GeminiError (ws : ws_id) (error : js_error)
| GeminiClose (ws : ws_id)
| ClientMessage (ws : ws_id) (message : string)
| SocketClose (ws : ws_id)
| SocketError (ws : ws_id).

Section Run.

Variable JSON_parse : string -> result json.
Variable base64_decode : string -> Buf.Buffer.
Variable Buffer_from_other : json -> result Buf.Buffer.
Variable toParts : option json -> result json.

Definition step (e : event) (st : state) : state :=
  match e with
  | GeminiMessage ws m => (onmessage base64_decode ws m st).2
  | GeminiError ws error => onerror ws error st
  | GeminiClose ws => onclose ws st
  | ClientMessage ws message =>
      ws_message JSON_parse base64_decode Buffer_from_other toParts ws message st
  | SocketClose ws => ws_close ws st
  | SocketError ws => ws_close ws st
  end.

Definition run (events : list event) (st : state) : state :=
  fold_left (fun st e => step e st) events st.

End Run.

(** An audio part without [data]: [Buffer.from(undefined, 'base64')]
    throws on it. *)
Definition faulty (part : Live.Part) : Prop :=
  exists d, Live.inlineData part = Some d /\
            nonempty (Live.mimeType d) && startsWith (Live.mimeType d) "audio/" = true /\
            Live.data d = None.

(** The audio [server.js] takes from a part: [part.inlineData.data],
    empty or not, when [part.inlineData.mimeType] starts with [audio/]. *)
Definition inline_audio (part : Live.Part) : list string :=
  match Live.inlineData part with
  | Some d =>
      if nonempty (Live.mimeType d) && startsWith (Live.mimeType d) "audio/"
      then match Live.data d with
           | Some x => [x]
           | None => []
           end
      else []
  | None => []
  end.

(** A call that releases a resource. *)
Definition releases (c : call) : Prop :=
  match c with
  | ProcessKill _ _ | StreamDestroy _ => True
  | _ => False
  end.

(** Nothing that [w] holds has been released in [w']: the calls from [w]
    to [w'] release nothing, and the streams open and the processes
    running in [w] are so in [w']. *)
Definition nothing_released (w w' : world) : Prop :=
  (exists calls, trace w' = trace w ++ calls /\
                 Forall (fun c => ~ releases c) calls) /\
  open_streams w ⊆ open_streams w' /\
  (forall p, is_Some (running w !! p) -> is_Some (running w' !! p)).

End ServerConnection.

(** ** The message list over time (current component) *)

Module Chat.
Import App.

Section Run.

Variable JSON_parse : string -> result json.
Variable toString : option json -> result string.
Variable plus_other : value -> option json -> result value.
Variable blobUrl : json -> json -> option string.
Variable message_of : js_error -> string.

(** The socket messages [events], handled in order, up to the first
    exception. *)
Definition run (events : list string) (messages : list message)
  : result (list message) :=
  fold_left (fun acc event_data =>
               let* messages := acc in
               onmessage JSON_parse toString plus_other blobUrl message_of
                 event_data messages)
    events (ret messages).

(** [c + v1 + ... + vn], as repeated [+=] computes it. *)
Definition adds (c : value) (vs : list (option json)) : result value :=
  fold_left (fun acc v => let* c := acc in plus plus_other c v) vs (ret c).

(** [msg'] is [msg] some time later: the same sender, type and error
    mark, a content that is the content of [msg] with values added to it
    by [+=], and the very same message if [msg] was complete. *)
Definition extends (msg msg' : message) : Prop :=
  sender msg' = sender msg /\ type msg' = type msg /\ isError msg' = isError msg /\
  (exists added, adds (content msg) added = ret (content msg')) /\
  (turnComplete msg = true -> msg' = msg).

(** The list [new] is [prev] some time later: no message has been
    removed or moved, and each is as [extends] says. *)
Definition grows (prev new : list message) : Prop :=
  (length prev <= length new)%nat /\
  forall i msg, prev !! i = Some msg ->
    exists msg', new !! i = Some msg' /\ extends msg msg'.

End Run.

(** At most one message is open: an open message is a text of the
    assistant and is the last message of the assistant. *)
Definition one_open (msgs : list message) : Prop :=
  forall i msg, msgs !! i = Some msg -> turnComplete msg = false ->
    is_bot_text msg = true /\ findLastIndex is_bot msgs = Some i.

Definition all_closed (msgs : list message) : Prop :=
  forall i msg, msgs !! i = Some msg -> turnComplete msg = true.

(** The first [n] messages of [msgs] are [pre], and a text message of
    the assistant comes after them. *)
Definition sealed (pre : list message) (msgs : list message) : Prop :=
  take (length pre) msgs = pre /\
  exists j x, (length pre <= j)%nat /\ msgs !! j = Some x /\ is_bot_text x = true.

(** Every content is a string. *)
Definition textual (msgs : list message) : Prop :=
  forall i msg, msgs !! i = Some msg -> exists s, content msg = str s.

End Chat.

(** ** More concrete values

    Messages of the AI, a second connection, and the texts a client
    socket receives, for the runs of Part II. *)

Module Samples.

(** A part with audio data under [audio/pcm;rate=24000], a part with
    text, and a message made of parts. *)
Definition audio_part (data : option string) : Live.Part :=
  {| Live.text := None;
     Live.inlineData :=
       Some {| Live.data := data; Live.mimeType := Some "audio/pcm;rate=24000" |} |}.

Definition text_part (t : string) : Live.Part :=
  {| Live.text := Some t; Live.inlineData := None |}.

Definition message (parts : list Live.Part) (turnComplete : bool)
  : Live.LiveServerMessage :=
  {| Live.serverContent :=
       Some {| Live.modelTurn := Some {| Live.parts := Some parts |};
               Live.turnComplete := turnComplete |} |}.

(** [Buffer.from(s, 'base64')] on the two texts used: the empty text and
    [GkXfow==]. *)
Definition decode (s : string) : Buf.Buffer :=
  if String.eqb s "" then [] else [26; 69; 223; 163].

(** Two connections: socket 1 with session 7 and no audio accumulated,
    socket 2 with session 8 and two bytes accumulated. *)
Definition two_clients : Backend.state :=
  {| Backend.geminiSessionMap := {[1%positive := 7%positive; 2%positive := 8%positive]};
     Backend.clientStateMap :=
       {[1%positive := Backend.idle [] "" false;
         2%positive := Backend.idle [1; 2] "audio/pcm" true]};
     Backend.env := Scenario.world0 |}.

(** A session that accepts every call. *)
Definition accepts_input (before : list Pipeline.realtime_call) (s : session_id)
  (data : string) : result unit := ret tt.
Definition accepts_content (before : list Pipeline.realtime_call) (s : session_id)
  : result unit := ret tt.

(** The texts of three messages of the backend, and a parser for them
    and for [gemini_five] below. *)
Definition gemini_text : string :=
  "{" ++ Scenario.quoted "from" ++ ":" ++ Scenario.quoted "gemini" ++ ","
  ++ Scenario.quoted "type" ++ ":" ++ Scenario.quoted "text" ++ ","
  ++ Scenario.quoted "data" ++ ":" ++ Scenario.quoted "lo" ++ "}".

Definition gemini_done : string :=
  "{" ++ Scenario.quoted "from" ++ ":" ++ Scenario.quoted "gemini" ++ ","
  ++ Scenario.quoted "type" ++ ":" ++ Scenario.quoted "turnComplete" ++ "}".

Definition backend_error : string :=
  "{" ++ Scenario.quoted "from" ++ ":" ++ Scenario.quoted "backend" ++ ","
  ++ Scenario.quoted "type" ++ ":" ++ Scenario.quoted "error" ++ ","
  ++ Scenario.quoted "data" ++ ":" ++ Scenario.quoted "boom" ++ "}".

(** A text message that carries the number 5 in place of a string. *)
Definition gemini_five : string :=
  "{" ++ Scenario.quoted "from" ++ ":" ++ Scenario.quoted "gemini" ++ ","
  ++ Scenario.quoted "type" ++ ":" ++ Scenario.quoted "text" ++ ","
  ++ Scenario.quoted "data" ++ ":5}".

(** [a + b] on the operands used here that are not two strings: two
    numbers, which are added. *)
Definition plus (a : App.value) (b : option json) : result App.value :=
  match a, b with
  | App.Json (Some (JNum x)), Some (JNum y) => ret (App.Json (Some (JNum (x + y))))
  | _, _ => throw (TypeError "Cannot convert object to primitive value")
  end.

Definition parse (s : string) : result json :=
  if String.eqb s gemini_text then
    ret (JObj [("from", JStr "gemini"); ("type", JStr "text"); ("data", JStr "lo")])
  else if String.eqb s gemini_five then
    ret (JObj [("from", JStr "gemini"); ("type", JStr "text"); ("data", JNum 5)])
  else if String.eqb s gemini_done then
    ret (JObj [("from", JStr "gemini"); ("type", JStr "turnComplete")])
  else if String.eqb s backend_error then
    ret (JObj [("from", JStr "backend"); ("type", JStr "error"); ("data", JStr "boom")])
  else throw (SyntaxError "Unexpected token").

End Samples.

(** * Part II: properties *)

(** ** Buffers *)

Module BufFacts.
Import Buf.

Lemma length_store (bs : list Z) : forall (buf : Buffer) (offset : nat),
  length (store buf offset bs) = length buf.
Proof.
  induction bs as [|b r IH]; intros buf offset; simpl; [reflexivity|].
  rewrite IH. apply length_insert.
Qed.

Lemma length_write (buf : Buffer) (s : string) (offset : nat) :
  length (write buf s offset) = length buf.
Proof. apply length_store. Qed.

Lemma checkInt_ok (q : Q) (z lo hi : Z) (buf : Buffer) (offset width : nat) :
  (q == inject_Z z)%Q -> lo <= z <= hi -> (offset + width <= length buf)%nat ->
  checkInt q lo hi buf offset width = inr tt.
Proof.
  intros Hq [Hlo Hhi] Hlen. unfold checkInt.
  assert (Qle_bool (inject_Z lo) q = true) as ->.
  { apply Qle_bool_iff. rewrite Hq, <- Zle_Qle. exact Hlo. }
  assert (Qle_bool q (inject_Z hi) = true) as ->.
  { apply Qle_bool_iff. rewrite Hq, <- Zle_Qle. exact Hhi. }
  simpl. destruct (Nat.leb_spec (offset + width) (length buf)); [reflexivity|lia].
Qed.

Lemma checkInt_out_of_range (q : Q) (z lo hi : Z) (buf : Buffer) (offset width : nat) :
  (q == inject_Z z)%Q -> z < lo \/ hi < z ->
  checkInt q lo hi buf offset width = inl (ERR_OUT_OF_RANGE "value" lo hi q).
Proof.
  intros Hq Hout. unfold checkInt.
  destruct (Qle_bool (inject_Z lo) q) eqn:E1; [|reflexivity].
  destruct (Qle_bool q (inject_Z hi)) eqn:E2; [|reflexivity].
  apply Qle_bool_iff in E1, E2. rewrite Hq in E1, E2.
  rewrite <- Zle_Qle in E1, E2. lia.
Qed.

Lemma Qfloor_int (q : Q) (z : Z) : (q == inject_Z z)%Q -> Qfloor q = z.
Proof. intros Hq. rewrite (Qfloor_comp _ _ Hq). apply Qfloor_Z. Qed.

Lemma writeUInt32LE_ok (buf : Buffer) (q : Q) (z : Z) (offset : nat) :
  (q == inject_Z z)%Q -> 0 <= z <= 4294967295 -> (offset + 4 <= length buf)%nat ->
  writeUInt32LE buf q offset = inr (store buf offset (le_bytes 4 z)).
Proof.
  intros Hq Hz Hlen. unfold writeUInt32LE.
  rewrite (checkInt_ok q z) by assumption. simpl.
  rewrite (Qfloor_int q z Hq). reflexivity.
Qed.

Lemma writeUInt16LE_ok (buf : Buffer) (q : Q) (z : Z) (offset : nat) :
  (q == inject_Z z)%Q -> 0 <= z <= 65535 -> (offset + 2 <= length buf)%nat ->
  writeUInt16LE buf q offset = inr (store buf offset (le_bytes 2 z)).
Proof.
  intros Hq Hz Hlen. unfold writeUInt16LE.
  rewrite (checkInt_ok q z) by assumption. simpl.
  rewrite (Qfloor_int q z Hq). reflexivity.
Qed.

Lemma writeUInt32LE_out_of_range (buf : Buffer) (q : Q) (z : Z) (offset : nat) :
  (q == inject_Z z)%Q -> z < 0 \/ 4294967295 < z ->
  writeUInt32LE buf q offset = inl (ERR_OUT_OF_RANGE "value" 0 4294967295 q).
Proof.
  intros Hq Hz. unfold writeUInt32LE.
  rewrite (checkInt_out_of_range q z) by assumption. reflexivity.
Qed.

(** Four little-endian bytes hold a 32-bit value. *)
Lemma le_bytes4_value (n : Z) :
  0 <= n < 2 ^ 32 ->
  n mod 256 + Z.shiftr n 8 mod 256 * 2 ^ 8
  + Z.shiftr (Z.shiftr n 8) 8 mod 256 * 2 ^ 16
  + Z.shiftr (Z.shiftr (Z.shiftr n 8) 8) 8 mod 256 * 2 ^ 24 = n.
Proof.
  intros Hn. rewrite !Z.shiftr_div_pow2 by lia.
  change (2 ^ 8) with 256. change (2 ^ 16) with 65536.
  change (2 ^ 24) with 16777216. change (2 ^ 32) with 4294967296 in Hn.
  Z.div_mod_to_equations. lia.
Qed.

Lemma le_bytes_range (k : nat) : forall (n : Z) (b : Z),
  In b (le_bytes k n) -> 0 <= b < 256.
Proof.
  induction k as [|k IH]; intros n b; simpl; [tauto|].
  intros [<-|Hb]; [apply Z.mod_pos_bound; lia|eauto].
Qed.

End BufFacts.

(** ** The WAV header for 24 kHz, 16-bit, mono audio *)

Section WavHeader.
Import Buf BufFacts.

#[local] Ltac buf_len :=
  rewrite ?length_store, ?length_write; unfold alloc; simpl; lia.

#[local] Ltac write_const z :=
  first [ rewrite (writeUInt32LE_ok _ _ z); [cbn [bind] | reflexivity | lia | buf_len]
        | rewrite (writeUInt16LE_ok _ _ z); [cbn [bind] | reflexivity | lia | buf_len] ].

Lemma createWavHeader_24k (L : Z) :
  0 <= L <= 4294967259 ->
  createWavHeader L 24000 16 1 = inr (wav24k L).
Proof.
  intros HL. unfold createWavHeader.
  rewrite (writeUInt32LE_ok _ _ (L + 36));
    [cbn [bind] | rewrite inject_Z_plus; reflexivity | lia | buf_len].
  write_const 16. write_const 1. write_const 1. write_const 24000.
  write_const 48000. write_const 2. write_const 16.
  rewrite (writeUInt32LE_ok _ _ L); [cbn [bind] | reflexivity | lia | buf_len].
  reflexivity.
Qed.

Lemma wav24k_fields (L : Z) :
  0 <= L <= 4294967259 ->
  length (wav24k L) = 44%nat /\
  readUInt32LE (wav24k L) 4 = L + 36 /\
  readUInt32LE (wav24k L) 28 = 48000 /\
  readUInt16LE (wav24k L) 32 = 2 /\
  readUInt32LE (wav24k L) 40 = L /\
  readUInt16LE (wav24k L) 20 = 1.
Proof.
  intros HL.
  pose proof (le_bytes4_value (L + 36) ltac:(lia)) as Hriff.
  pose proof (le_bytes4_value L ltac:(lia)) as Hdata.
  cbv [readUInt32LE readUInt16LE byte_at wav24k le_bytes app
       lookup list_lookup default Nat.add length].
  repeat split; try reflexivity; assumption.
Qed.

Lemma wav24k_bytes (L : Z) : Forall (fun b => 0 <= b < 256) (wav24k L).
Proof.
  unfold wav24k. repeat apply Forall_app_2;
    try (apply Forall_forall; intros b Hb; apply list_elem_of_In in Hb;
         eapply le_bytes_range; exact Hb).
  - repeat constructor; lia.
  - repeat constructor; lia.
Qed.

Lemma createWavHeader_too_long (L : Z) :
  4294967259 < L ->
  createWavHeader L 24000 16 1 =
  inl (ERR_OUT_OF_RANGE "value" 0 4294967295 (inject_Z L + inject_Z 36)).
Proof.
  intros HL. unfold createWavHeader.
  rewrite (writeUInt32LE_out_of_range _ _ (L + 36));
    [reflexivity | rewrite inject_Z_plus; reflexivity | lia].
Qed.

Example createWavHeader_empty_payload :
  createWavHeader 0 24000 16 1 =
  inr [82; 73; 70; 70; 36; 0; 0; 0; 87; 65; 86; 69; 102; 109; 116; 32;
       16; 0; 0; 0; 1; 0; 1; 0; 192; 93; 0; 0; 128; 187; 0; 0; 2; 0; 16; 0;
       100; 97; 116; 97; 0; 0; 0; 0].
Proof. vm_compute. reflexivity. Qed.

Example toString_base64_sample :
  toString_base64 [77; 97; 110; 77; 97] = "TWFuTWE="%string.
Proof. vm_compute. reflexivity. Qed.

(** C1 (as amended). For every payload length [L] from 0 to 4294967259,
    [createWavHeader(L, 24000, 16, 1)] raises no error and returns a
    44-byte header, equal byte for byte to [wav24k L], whose RIFF size
    field is [L + 36], byte-rate field 48000, block-align field 2,
    data-length field [L] and format code 1, every byte being in
    [0, 256). *)
Theorem createWavHeader_header_fields (L : Z) :
  0 <= L <= 4294967259 ->
  exists header,
    createWavHeader L 24000 16 1 = inr header /\
    header = wav24k L /\
    length header = 44%nat /\
    readUInt32LE header 4 = L + 36 /\
    readUInt32LE header 28 = 48000 /\
    readUInt16LE header 32 = 2 /\
    readUInt32LE header 40 = L /\
    readUInt16LE header 20 = 1 /\
    Forall (fun b => 0 <= b < 256) header.
Proof.
  intros HL. exists (wav24k L).
  destruct (wav24k_fields L HL) as (H1 & H2 & H3 & H4 & H5 & H6).
  repeat split; try assumption.
  - apply createWavHeader_24k, HL.
  - apply wav24k_bytes.
Qed.

Lemma createWavHeader_header_fields_witness :
  0 <= 1000000 <= 4294967259 /\
  exists header,
    createWavHeader 1000000 24000 16 1 = inr header /\
    header = wav24k 1000000 /\
    length header = 44%nat /\
    readUInt32LE header 4 = 1000000 + 36 /\
    readUInt32LE header 28 = 48000 /\
    readUInt16LE header 32 = 2 /\
    readUInt32LE header 40 = 1000000 /\
    readUInt16LE header 20 = 1 /\
    Forall (fun b => 0 <= b < 256) header.
Proof.
  split; [lia | apply (createWavHeader_header_fields 1000000); lia].
Defined.

(** C1 as stated fails for long payloads: at [L = 4294967260] the RIFF
    size [L + 36] is 2^32, [writeUInt32LE] raises [ERR_OUT_OF_RANGE], and
    no header is returned. *)
Lemma createWavHeader_rejects_4294967260 :
  createWavHeader 4294967260 24000 16 1 =
    inl (ERR_OUT_OF_RANGE "value" 0 4294967295 (4294967296 # 1)) /\
  ~ (exists header, createWavHeader 4294967260 24000 16 1 = inr header).
Proof.
  assert (createWavHeader 4294967260 24000 16 1 =
          inl (ERR_OUT_OF_RANGE "value" 0 4294967295 (4294967296 # 1))) as E
    by (vm_compute; reflexivity).
  split; [exact E|]. intros [header H]. rewrite E in H. discriminate H.
Qed.

End WavHeader.

(** ** Tearing a pipeline down ([stopAudioProcessing], [cleanupClient]) *)

Section Teardown.
Import Backend.

Lemma trace_process_kill (p : option Z) (w : world) :
  trace (process_kill p w).2 = trace w ++ [ProcessKill p "SIGKILL"].
Proof.
  unfold process_kill. destruct p as [p|]; simpl; [|reflexivity].
  destruct (running w !! p); reflexivity.
Qed.

Lemma trace_destroy (s : stream_id) (w : world) :
  trace (destroy s w) = trace w ++ [StreamDestroy s].
Proof. reflexivity. Qed.

Lemma open_streams_destroy (s : stream_id) (w : world) :
  open_streams (destroy s w) = open_streams w ∖ {[s]}.
Proof. reflexivity. Qed.

Lemma open_streams_process_kill (p : option Z) (w : world) :
  open_streams (process_kill p w).2 = open_streams w.
Proof.
  unfold process_kill. destruct p as [p|]; simpl; [|reflexivity].
  destruct (running w !! p); reflexivity.
Qed.

Lemma stopAudioProcessing_state (cs : clientState) (w : world) :
  (stopAudioProcessing cs w).1 =
  idle (audioBuffer cs) (mimeType cs) (firstGeminiResponseReceived cs).
Proof.
  unfold stopAudioProcessing, idle.
  destruct (ffmpegProcess cs) eqn:E; simpl; rewrite ?E; reflexivity.
Qed.

Lemma stopAudioProcessing_trace (cs : clientState) (w : world) :
  trace (stopAudioProcessing cs w).2 = trace w ++ teardown_calls cs.
Proof.
  unfold stopAudioProcessing, teardown_calls.
  destruct (ffmpegProcess cs) as [h|], (ffmpegInputStream cs) as [i|],
    (pcmOutputStream cs) as [o|]; simpl;
    rewrite ?trace_process_kill, ?app_nil_r, <- ?app_assoc; reflexivity.
Qed.

Lemma stopAudioProcessing_idle (buffer : Buf.Buffer) (mime : string) (first : bool)
  (w : world) :
  stopAudioProcessing (idle buffer mime first) w = (idle buffer mime first, w).
Proof. reflexivity. Qed.

(** Both streams of the state are destroyed afterwards. *)
Lemma stopAudioProcessing_streams (cs : clientState) (w : world) (s : stream_id) :
  ffmpegInputStream cs = Some s \/ pcmOutputStream cs = Some s ->
  s ∉ open_streams (stopAudioProcessing cs w).2.
Proof.
  unfold stopAudioProcessing.
  destruct (ffmpegProcess cs) as [h|], (ffmpegInputStream cs) as [i|],
    (pcmOutputStream cs) as [o|]; simpl; intros [[= ->]|[= ->]];
    rewrite ?open_streams_process_kill; set_unfold; tauto.
Qed.

(** C9. After [stopAudioProcessing] the fields [ffmpegProcess],
    [ffmpegInputStream] and [pcmOutputStream] are null and
    [isSendingAudioToGemini] is false; [audioBuffer], [mimeType] and
    [firstGeminiResponseReceived], the other fields, are unchanged; and on
    a state already in that condition the call changes neither the state
    nor the world (it makes no call). *)
Theorem stopAudioProcessing_frame (cs : clientState) (w : world) :
  let cs' := (stopAudioProcessing cs w).1 in
  let w' := (stopAudioProcessing cs w).2 in
  ffmpegProcess cs' = None /\
  ffmpegInputStream cs' = None /\
  pcmOutputStream cs' = None /\
  isSendingAudioToGemini cs' = false /\
  audioBuffer cs' = audioBuffer cs /\
  mimeType cs' = mimeType cs /\
  firstGeminiResponseReceived cs' = firstGeminiResponseReceived cs /\
  stopAudioProcessing cs' w' = (cs', w') /\
  (forall buffer mime first w0,
     stopAudioProcessing (idle buffer mime first) w0 = (idle buffer mime first, w0)).
Proof.
  cbv zeta. rewrite stopAudioProcessing_state.
  repeat split; reflexivity.
Qed.

(** The calls of a first [cleanupClient]: the teardown of the state
    object, if there is one, then the close of the session, if there is
    one. *)
Lemma cleanupClient_trace (ws : ws_id) (st : state) :
  trace (env (cleanupClient ws st)) =
  trace (env st)
  ++ from_option teardown_calls [] (clientStateMap st !! ws)
  ++ from_option (fun s => [SessionClose s]) [] (geminiSessionMap st !! ws).
Proof.
  unfold cleanupClient.
  destruct (clientStateMap st !! ws) as [cs|], (geminiSessionMap st !! ws) as [s|];
    simpl; rewrite ?stopAudioProcessing_trace, ?app_nil_r, <- ?app_assoc; reflexivity.
Qed.

Lemma cleanupClient_absent (ws : ws_id) (st : state) :
  geminiSessionMap st !! ws = None -> clientStateMap st !! ws = None ->
  cleanupClient ws st = st.
Proof.
  intros Hs Hc. unfold cleanupClient. rewrite Hs, Hc.
  rewrite (delete_id _ _ Hc). destruct st; reflexivity.
Qed.

Lemma cleanupClient_removes (ws : ws_id) (st : state) :
  geminiSessionMap (cleanupClient ws st) !! ws = None /\
  clientStateMap (cleanupClient ws st) !! ws = None.
Proof.
  unfold cleanupClient.
  destruct (geminiSessionMap st !! ws) as [s|] eqn:E; simpl;
    rewrite ?lookup_delete_eq; auto.
Qed.

Lemma cleanupClient_others (ws ws' : ws_id) (st : state) :
  ws <> ws' ->
  geminiSessionMap (cleanupClient ws st) !! ws' = geminiSessionMap st !! ws' /\
  clientStateMap (cleanupClient ws st) !! ws' = clientStateMap st !! ws'.
Proof.
  intros Hne. unfold cleanupClient.
  destruct (geminiSessionMap st !! ws) as [s|] eqn:E; simpl;
    rewrite ?lookup_delete_ne by exact Hne; auto.
Qed.

End Teardown.

(** ** The end of an assistant turn *)

Section TurnComplete.
Import Backend.

(** The base64 text of a buffer has the length [Buf.toString] checks. *)
Lemma toString_base64_length (buf : Buf.Buffer) :
  Z.of_nat (String.length (Buf.toString_base64 buf))
  = Buf.base64_length (Z.of_nat (length buf)).
Proof.
  unfold Buf.base64_length.
  assert (forall (n : nat) (b : Buf.Buffer), (length b <= n)%nat ->
            Z.of_nat (String.length (Buf.toString_base64 b))
            = 4 * ((Z.of_nat (length b) + 2) / 3)) as H.
  { induction n as [|n IH]; intros [|x [|y [|z r]]] Hn; cbn [length] in Hn;
      try lia; try reflexivity.
    cbn [Buf.toString_base64 String.length length].
    rewrite !Nat2Z.inj_succ, (IH r) by lia.
    Z.div_mod_to_equations. lia. }
  apply (H (length buf)). lia.
Qed.

(** What the end of a turn computes before it sends: the header, the
    base64 text of header and audio, the JSON text of the message. *)
#[local] Abbreviation audio_message audio :=
  (let* wavHeader := createWavHeader (Z.of_nat (length audio)) 24000 16 1 in
   let* finalAudioBase64 := Buf.toString (Buf.concat wavHeader audio%list) in
   stringify_audio finalAudioBase64).

Lemma length_with_header (audio : Buf.Buffer) :
  Z.of_nat (length audio) <= 4294967259 ->
  Z.of_nat (length (Buf.concat (wav24k (Z.of_nat (length audio))) audio))
  = Z.of_nat (length audio) + 44.
Proof.
  intros HL. unfold Buf.concat. rewrite length_app.
  destruct (wav24k_fields (Z.of_nat (length audio)) ltac:(lia)) as [-> _]. lia.
Qed.

(** Up to 402653065 bytes of audio go into a message. *)
Lemma audio_message_built (audio : Buf.Buffer) :
  Z.of_nat (length audio) <= 402653065 ->
  audio_message audio
  = inr (MsgAudio
           (Buf.toString_base64 (Buf.concat (wav24k (Z.of_nat (length audio))) audio))
           "audio/wav").
Proof.
  intros HL. rewrite createWavHeader_24k by lia. cbn [bind].
  pose proof (length_with_header audio ltac:(lia)) as Hlen.
  unfold Buf.toString. rewrite Hlen. unfold Buf.base64_length, Buf.MAX_STRING_LENGTH.
  destruct (Z.leb_spec (4 * ((Z.of_nat (length audio) + 44 + 2) / 3)) 536870888)
    as [_|Hno]; [|exfalso; Z.div_mod_to_equations; lia].
  cbn [bind ret]. unfold stringify_audio.
  rewrite toString_base64_length, Hlen.
  unfold Buf.base64_length, Buf.MAX_STRING_LENGTH.
  destruct (Z.leb_spec (75 + 4 * ((Z.of_nat (length audio) + 44 + 2) / 3)) 536870888)
    as [_|Hno]; [reflexivity|exfalso; Z.div_mod_to_equations; lia].
Qed.

(** One byte more, and up to 402653122 bytes: the base64 text is made,
    the JSON text around it is refused. *)
Lemma audio_message_json_too_long (audio : Buf.Buffer) :
  402653065 < Z.of_nat (length audio) <= 402653122 ->
  audio_message audio = inl (RangeError "Invalid string length").
Proof.
  intros HL. rewrite createWavHeader_24k by lia. cbn [bind].
  pose proof (length_with_header audio ltac:(lia)) as Hlen.
  unfold Buf.toString. rewrite Hlen. unfold Buf.base64_length, Buf.MAX_STRING_LENGTH.
  destruct (Z.leb_spec (4 * ((Z.of_nat (length audio) + 44 + 2) / 3)) 536870888)
    as [_|Hno]; [|exfalso; Z.div_mod_to_equations; lia].
  cbn [bind ret]. unfold stringify_audio.
  rewrite toString_base64_length, Hlen.
  unfold Buf.base64_length, Buf.MAX_STRING_LENGTH.
  destruct (Z.leb_spec (75 + 4 * ((Z.of_nat (length audio) + 44 + 2) / 3)) 536870888)
    as [Hno|_]; [exfalso; Z.div_mod_to_equations; lia|reflexivity].
Qed.

(** More than 402653065 bytes of audio do not go into a message: one of
    the three steps throws. *)
Lemma audio_message_refused (audio : Buf.Buffer) :
  402653065 < Z.of_nat (length audio) ->
  exists e, audio_message audio = inl e.
Proof.
  intros HL. destruct (Z.le_gt_cases (Z.of_nat (length audio)) 4294967259) as [H|H].
  - rewrite createWavHeader_24k by lia. cbn [bind].
    pose proof (length_with_header audio H) as Hlen.
    unfold Buf.toString. rewrite Hlen.
    destruct (Buf.base64_length _ <=? Buf.MAX_STRING_LENGTH); [|eexists; reflexivity].
    cbn [bind ret]. unfold stringify_audio.
    rewrite toString_base64_length, Hlen.
    unfold Buf.base64_length, Buf.MAX_STRING_LENGTH.
    destruct (Z.leb_spec (75 + 4 * ((Z.of_nat (length audio) + 44 + 2) / 3)) 536870888)
      as [Hno|_]; [exfalso; Z.div_mod_to_equations; lia|eexists; reflexivity].
  - rewrite createWavHeader_too_long by lia. eexists. reflexivity.
Qed.

Lemma handleGeminiTurnComplete_audio (ws : ws_id) (cs : clientState) (w : world) :
  0 < Z.of_nat (length (audioBuffer cs)) <= 402653065 ->
  handleGeminiTurnComplete ws cs w =
  (set_audio (Buf.alloc 0) "" (set_firstGeminiResponseReceived false cs),
   log (WsSend ws MsgTurnComplete)
     (log (WsSend ws
             (MsgAudio
                (Buf.toString_base64
                   (Buf.concat (wav24k (Z.of_nat (length (audioBuffer cs))))
                      (audioBuffer cs)))
                "audio/wav")) w)).
Proof.
  intros HL. unfold handleGeminiTurnComplete.
  cbn [audioBuffer set_firstGeminiResponseReceived].
  destruct (Z.ltb_spec 0 (Z.of_nat (length (audioBuffer cs)))) as [_|]; [|lia].
  rewrite (audio_message_built (audioBuffer cs)) by lia. reflexivity.
Qed.

Lemma handleGeminiTurnComplete_silent (ws : ws_id) (cs : clientState) (w : world) :
  audioBuffer cs = [] ->
  handleGeminiTurnComplete ws cs w =
  (set_firstGeminiResponseReceived false cs, log (WsSend ws MsgTurnComplete) w).
Proof.
  intros HL. unfold handleGeminiTurnComplete. simpl. rewrite HL. reflexivity.
Qed.

(** The exception of the [try] block is caught: an error message
    replaces the audio message, and the accumulator is kept. *)
Lemma handleGeminiTurnComplete_caught (ws : ws_id) (cs : clientState) (w : world)
  (e : js_error) :
  0 < Z.of_nat (length (audioBuffer cs)) ->
  audio_message (audioBuffer cs) = inl e ->
  handleGeminiTurnComplete ws cs w =
  (set_firstGeminiResponseReceived false cs,
   log (WsSend ws MsgTurnComplete)
     (log (WsSend ws
             (MsgError "Backend error processing Gemini audio: " e
                "Unknown audio error")) w)).
Proof.
  intros HL He. unfold handleGeminiTurnComplete.
  cbn [audioBuffer set_firstGeminiResponseReceived].
  destruct (Z.ltb_spec 0 (Z.of_nat (length (audioBuffer cs)))) as [_|]; [|lia].
  rewrite He. reflexivity.
Qed.

Lemma handleGeminiTurnComplete_oversize (ws : ws_id) (cs : clientState) (w : world) :
  402653065 < Z.of_nat (length (audioBuffer cs)) ->
  exists e,
    handleGeminiTurnComplete ws cs w =
    (set_firstGeminiResponseReceived false cs,
     log (WsSend ws MsgTurnComplete)
       (log (WsSend ws
               (MsgError "Backend error processing Gemini audio: " e
                  "Unknown audio error")) w)).
Proof.
  intros HL. destruct (audio_message_refused (audioBuffer cs) HL) as [e He].
  exists e. apply handleGeminiTurnComplete_caught; [lia|exact He].
Qed.

(** Whatever the state, the last call is the [turnComplete] message, and
    no process or stream is touched. *)
Lemma handleGeminiTurnComplete_last (ws : ws_id) (cs : clientState) (w : world) :
  exists before,
    trace (handleGeminiTurnComplete ws cs w).2 =
      trace w ++ before ++ [WsSend ws MsgTurnComplete] /\
    (length before <= 1)%nat /\
    ~ In (WsSend ws MsgTurnComplete) before.
Proof.
  destruct (Z.le_gt_cases (Z.of_nat (length (audioBuffer cs))) 402653065) as [H|H].
  - destruct (audioBuffer cs) as [|x r] eqn:E.
    + rewrite handleGeminiTurnComplete_silent by exact E.
      exists []. simpl. split; [reflexivity|]. split; [lia|tauto].
    + rewrite handleGeminiTurnComplete_audio by (rewrite E; cbn [length] in *; lia).
      eexists [_]. cbn [snd log trace]. rewrite <- app_assoc.
      split; [reflexivity|]. split; [simpl; lia|].
      simpl. intros [Hd|[]]. discriminate Hd.
  - destruct (handleGeminiTurnComplete_oversize ws cs w H) as [e ->].
    eexists [_]. cbn [snd log trace]. rewrite <- app_assoc.
    split; [reflexivity|]. split; [simpl; lia|].
    simpl. intros [Hd|[]]. discriminate Hd.
Qed.

Lemma handleGeminiTurnComplete_world (ws : ws_id) (cs : clientState) (w : world) :
  running (handleGeminiTurnComplete ws cs w).2 = running w /\
  open_streams (handleGeminiTurnComplete ws cs w).2 = open_streams w.
Proof.
  unfold handleGeminiTurnComplete. simpl.
  destruct (0 <? Z.of_nat (length (audioBuffer cs)));
    [destruct (bind _ _)|]; simpl; auto.
Qed.

(** The [turnComplete] branch of [server.js]: nothing for an empty
    buffer; the audio message and the reset for up to 402653065 bytes;
    beyond, the exception leaves the callback, nothing is sent and the
    buffer is kept. *)
Lemma server_turnComplete_cases (ws : ws_id) (b : Server.audioEntry) (w : world) :
  let L := Z.of_nat (length (Server.buffer b)) in
  (L = 0 -> Server.onmessage_turnComplete ws b w = (inr tt, (b, w))) /\
  (0 < L <= 402653065 ->
   Server.onmessage_turnComplete ws b w =
   (inr tt,
    ({| Server.buffer := []; Server.mimeType := "" |},
     log (WsSend ws
            (MsgAudio (Buf.toString_base64 (wav24k L ++ Server.buffer b)) "audio/wav"))
       w))) /\
  (402653065 < L ->
   exists e, Server.onmessage_turnComplete ws b w = (inl e, (b, w))).
Proof.
  cbv zeta. unfold Server.onmessage_turnComplete. repeat split; intros HL.
  - rewrite HL. reflexivity.
  - destruct (Z.ltb_spec 0 (Z.of_nat (length (Server.buffer b)))); [|lia].
    rewrite (audio_message_built (Server.buffer b)) by lia. reflexivity.
  - destruct (Z.ltb_spec 0 (Z.of_nat (length (Server.buffer b)))); [|lia].
    destruct (audio_message_refused (Server.buffer b) HL) as [e ->].
    exists e. reflexivity.
Qed.

(** C2 (as amended). When [handleGeminiTurnComplete] of [utils.js] runs:
    with a non-empty accumulator of at most 402653065 bytes, exactly one
    audio message is sent, carrying the base64 text of the WAV header
    followed by the accumulated bytes, the accumulator is reset to empty,
    and a [turnComplete] message follows; with a longer accumulator (the
    JSON text of the message would be longer than a string can be) an
    error message is sent in place of the audio message and the
    accumulator is kept; with an empty accumulator the [turnComplete]
    message alone is sent; in every case the last message sent is
    [turnComplete], preceded by at most one other message of the call.
    The [turnComplete] branch of the [onmessage] callback of [server.js]
    sends no [turnComplete] message: it does nothing for an empty buffer,
    sends the same audio message and resets the buffer for up to
    402653065 bytes, and beyond throws, with nothing sent and the buffer
    kept. *)
Theorem handleGeminiTurnComplete_emits (ws : ws_id) (cs : clientState) (w : world) :
  let L := Z.of_nat (length (audioBuffer cs)) in
  let r := handleGeminiTurnComplete ws cs w in
  (0 < L <= 402653065 ->
   trace r.2 =
     trace w ++
     [WsSend ws (MsgAudio (Buf.toString_base64 (wav24k L ++ audioBuffer cs)) "audio/wav");
      WsSend ws MsgTurnComplete] /\
   audioBuffer r.1 = [] /\ mimeType r.1 = ""%string) /\
  (402653065 < L ->
   (exists e,
      trace r.2 =
        trace w ++
        [WsSend ws (MsgError "Backend error processing Gemini audio: " e
                      "Unknown audio error");
         WsSend ws MsgTurnComplete]) /\
   audioBuffer r.1 = audioBuffer cs /\ mimeType r.1 = mimeType cs) /\
  (L = 0 ->
   trace r.2 = trace w ++ [WsSend ws MsgTurnComplete] /\ audioBuffer r.1 = []) /\
  (exists before,
     trace r.2 = trace w ++ before ++ [WsSend ws MsgTurnComplete] /\
     (length before <= 1)%nat /\ ~ In (WsSend ws MsgTurnComplete) before) /\
  (forall b,
     let Lb := Z.of_nat (length (Server.buffer b)) in
     let s := Server.onmessage_turnComplete ws b w in
     (Lb = 0 -> s = (inr tt, (b, w))) /\
     (0 < Lb <= 402653065 ->
      s = (inr tt,
           ({| Server.buffer := []; Server.mimeType := "" |},
            log (WsSend ws
                   (MsgAudio (Buf.toString_base64 (wav24k Lb ++ Server.buffer b))
                      "audio/wav")) w))) /\
     (402653065 < Lb -> exists e, s = (inl e, (b, w)))).
Proof.
  cbv zeta. split; [|split; [|split; [|split]]].
  - intros HL. rewrite handleGeminiTurnComplete_audio by assumption.
    cbn [fst snd log trace audioBuffer mimeType set_audio Buf.alloc repeat].
    rewrite <- app_assoc. repeat split.
  - intros HL. destruct (handleGeminiTurnComplete_oversize ws cs w HL) as [e ->].
    cbn [fst snd log trace]. split; [|split; reflexivity].
    exists e. rewrite <- app_assoc. reflexivity.
  - intros HL.
    assert (audioBuffer cs = []) as Hnil
      by (destruct (audioBuffer cs); [reflexivity|simpl in HL; lia]).
    rewrite handleGeminiTurnComplete_silent by exact Hnil.
    split; [reflexivity|exact Hnil].
  - apply handleGeminiTurnComplete_last.
  - intros b. apply (server_turnComplete_cases ws b w).
Qed.

Lemma handleGeminiTurnComplete_emits_witness :
  let cs := idle [1; 2; 3; 4] "audio/pcm" true in
  0 < Z.of_nat (length (audioBuffer cs)) <= 402653065 /\
  trace (handleGeminiTurnComplete 1%positive cs Scenario.world0).2 =
    [WsSend 1%positive
       (MsgAudio (Buf.toString_base64 (wav24k 4 ++ [1; 2; 3; 4])) "audio/wav");
     WsSend 1%positive MsgTurnComplete] /\
  audioBuffer (handleGeminiTurnComplete 1%positive cs Scenario.world0).1 = [].
Proof.
  cbv zeta.
  assert (0 < Z.of_nat (length (audioBuffer (idle [1; 2; 3; 4] "audio/pcm" true)))
          <= 402653065) as H by (simpl; lia).
  split; [exact H|].
  destruct (handleGeminiTurnComplete_emits 1%positive
              (idle [1; 2; 3; 4] "audio/pcm" true) Scenario.world0)
    as [Haudio _].
  destruct (Haudio H) as (Ht & Hb & _). split; [exact Ht|exact Hb].
Defined.

(** An accumulator of 402653066 bytes, one more than goes into a
    message: the client is sent an error message in place of the audio
    message, and the accumulator is not reset. *)
Example handleGeminiTurnComplete_one_byte_too_many :
  let cs := idle (repeat 0 (Z.to_nat 402653066)) "audio/pcm" true in
  trace (handleGeminiTurnComplete 1%positive cs Scenario.world0).2 =
    [WsSend 1%positive
       (MsgError "Backend error processing Gemini audio: "
          (RangeError "Invalid string length") "Unknown audio error");
     WsSend 1%positive MsgTurnComplete] /\
  audioBuffer (handleGeminiTurnComplete 1%positive cs Scenario.world0).1 =
    repeat 0 (Z.to_nat 402653066).
Proof.
  intros cs.
  assert (Z.of_nat (length (audioBuffer cs)) = 402653066) as HL.
  { unfold cs. cbn [audioBuffer idle]. rewrite repeat_length. apply Z2Nat.id. lia. }
  rewrite (handleGeminiTurnComplete_caught 1%positive cs Scenario.world0
             (RangeError "Invalid string length"))
    by (try apply audio_message_json_too_long; lia).
  split; reflexivity.
Qed.

(** An accumulator of 4294967260 bytes: already the WAV header is
    refused. *)
Example handleGeminiTurnComplete_four_gigabytes :
  let cs := idle (repeat 0 (Z.to_nat 4294967260)) "audio/pcm" true in
  trace (handleGeminiTurnComplete 1%positive cs Scenario.world0).2 =
    [WsSend 1%positive
       (MsgError "Backend error processing Gemini audio: "
          (ERR_OUT_OF_RANGE "value" 0 4294967295
             (inject_Z 4294967260 + inject_Z 36))
          "Unknown audio error");
     WsSend 1%positive MsgTurnComplete] /\
  audioBuffer (handleGeminiTurnComplete 1%positive cs Scenario.world0).1 =
    repeat 0 (Z.to_nat 4294967260).
Proof.
  intros cs.
  assert (Z.of_nat (length (audioBuffer cs)) = 4294967260) as HL.
  { unfold cs. cbn [audioBuffer idle]. rewrite repeat_length. apply Z2Nat.id. lia. }
  rewrite (handleGeminiTurnComplete_caught 1%positive cs Scenario.world0
             (ERR_OUT_OF_RANGE "value" 0 4294967295
                (inject_Z 4294967260 + inject_Z 36))).
  - split; reflexivity.
  - lia.
  - rewrite HL, createWavHeader_too_long by lia. reflexivity.
Qed.

(** C2 as stated fails on [server.js]: a turn-complete message on a
    connection with an empty buffer makes no call at all, so no
    [turnComplete] message reaches the client. *)
Lemma server_turn_complete_sends_nothing :
  let r := Server.onmessage Scenario.decode 1%positive Scenario.turn_complete
             Scenario.server_connected in
  r.1 = inr tt /\
  trace (Server.env r.2) = [] /\
  ~ In (WsSend 1%positive MsgTurnComplete) (trace (Server.env r.2)).
Proof.
  cbv zeta. repeat split. intros H. exact H.
Qed.

End TurnComplete.

(** ** Failures of the AI session *)

Section SessionErrors.

Lemma connection_success (ws : ws_id) (session : session_id) (st : Server.state) :
  let st' := Server.connection ws (inr session) st in
  Server.geminiSessionMap st' !! ws = Some session /\
  trace (Server.env st') =
    trace (Server.env st) ++ [WsOn ws "message"; WsOn ws "close"; WsOn ws "error"].
Proof.
  cbv zeta. unfold Server.connection, Server.connection_settled. simpl.
  rewrite lookup_insert_eq. rewrite <- !app_assoc. split; reflexivity.
Qed.

(** C8. When [ai.live.connect] fails, the connection handler of
    [server.js] removes the connection's buffer entry, records no session,
    calls [ws.close(1011, ...)] and makes no other call: no handler is
    installed with [ws.on]. An error of the session after the connect
    makes [onerror] of [server.js], and [handleGeminiError] of [utils.js],
    call [ws.close(1011, ...)]. *)
Theorem connect_failure_closes_1011 (ws : ws_id) (error : js_error)
  (st : Server.state) (bst : Backend.state) :
  let st' := Server.connection ws (inl error) st in
  Server.audioBuffers st' !! ws = None /\
  Server.geminiSessionMap st' = Server.geminiSessionMap st /\
  trace (Server.env st') =
    trace (Server.env st) ++ [WsClose ws 1011 "Backend connection error"] /\
  (forall event, In (WsOn ws event) (trace (Server.env st')) ->
                 In (WsOn ws event) (trace (Server.env st))) /\
  trace (Server.env (Server.onerror ws error st)) =
    trace (Server.env st) ++ [WsClose ws 1011 "Gemini API Error"] /\
  trace (Backend.env (Backend.handleGeminiError ws error bst)) =
    trace (Backend.env bst) ++ [WsClose ws 1011 "Gemini API Error"].
Proof.
  cbv zeta. unfold Server.connection, Server.connection_settled. simpl.
  repeat split; try reflexivity.
  - apply lookup_delete_eq.
  - intros event Hin. apply in_app_or in Hin as [Hin|[Hin|[]]];
      [exact Hin|discriminate Hin].
Qed.

End SessionErrors.

(** ** Messages of the client *)

Section ClientMessages.
Import Backend.

Variable JSON_parse : string -> result json.
Variable base64_decode : string -> Buf.Buffer.
Variable Buffer_from_other : json -> result Buf.Buffer.
Variable toParts : option json -> result json.
Variable pipe_pid : Z -> option Z.

Lemma handleTextMessage_string (ws : ws_id) (fields : list (string * json))
  (u : string) (st : state) (cs : clientState) (s : session_id) :
  clientStateMap st !! ws = Some cs ->
  geminiSessionMap st !! ws = Some s ->
  field "message" fields = Some (JStr u) ->
  handleTextMessage toParts ws (JObj fields) st =
  (inr tt,
   with_env
     (log (SendClientContent s [UserText u] true) (stopAudioProcessing cs (env st)).2)
     (with_client ws (stopAudioProcessing cs (env st)).1 st)).
Proof.
  intros Hc Hs Hm. unfold handleTextMessage. rewrite Hc, Hs.
  destruct (stopAudioProcessing cs (env st)) as [cs' w] eqn:E. simpl.
  rewrite Hm. simpl. reflexivity.
Qed.

Lemma server_text_message (ws : ws_id) (message : string)
  (fields : list (string * json)) (u : string) (st : Server.state) (s : session_id) :
  Server.geminiSessionMap st !! ws = Some s ->
  JSON_parse message = inr (JObj fields) ->
  field "type" fields = Some (JStr "text") ->
  field "message" fields = Some (JStr u) ->
  Server.ws_message JSON_parse base64_decode Buffer_from_other toParts ws message st =
  Server.with_env (log (SendClientContent s [UserText u] true) (Server.env st)) st.
Proof.
  intros Hs Hp Ht Hm. unfold Server.ws_message, Server.ws_message_try.
  rewrite Hp, Hs. simpl. rewrite Ht. simpl. rewrite Hm. reflexivity.
Qed.

(** C5 (as amended). [handleTextMessage] of [utils.js], on a connection
    with a state object and a session and a message whose [message] is a
    string, first makes the calls of [stopAudioProcessing] on the state
    object (the [process.kill] call on the [pid] of the stored handle and
    the [destroy] of both streams of any pipeline), leaves the state
    object with its three handles null, and then calls
    [sendClientContent] with the utterance as the only turn and
    [turnComplete: true]. The text branch of [server.js] makes that
    [sendClientContent] call and no other: it tears nothing down. *)
Theorem handleTextMessage_preempts_then_sends (ws : ws_id)
  (fields : list (string * json)) (u : string) (st : state) (cs : clientState)
  (s : session_id) :
  clientStateMap st !! ws = Some cs ->
  geminiSessionMap st !! ws = Some s ->
  field "message" fields = Some (JStr u) ->
  let r := handleTextMessage toParts ws (JObj fields) st in
  r.1 = inr tt /\
  trace (env r.2) =
    trace (env st) ++ teardown_calls cs ++ [SendClientContent s [UserText u] true] /\
  clientStateMap r.2 !! ws =
    Some (idle (audioBuffer cs) (mimeType cs) (firstGeminiResponseReceived cs)) /\
  (forall x, ffmpegInputStream cs = Some x \/ pcmOutputStream cs = Some x ->
             x ∉ open_streams (env r.2)) /\
  (forall message (sst : Server.state) (s' : session_id),
     Server.geminiSessionMap sst !! ws = Some s' ->
     JSON_parse message = inr (JObj fields) ->
     field "type" fields = Some (JStr "text") ->
     Server.ws_message JSON_parse base64_decode Buffer_from_other toParts ws message sst =
     Server.with_env
       (log (SendClientContent s' [UserText u] true) (Server.env sst)) sst).
Proof.
  intros Hc Hs Hm. cbv zeta.
  rewrite (handleTextMessage_string ws fields u st cs s Hc Hs Hm). simpl.
  repeat split.
  - rewrite stopAudioProcessing_trace, <- app_assoc. reflexivity.
  - rewrite lookup_insert_eq, stopAudioProcessing_state. reflexivity.
  - intros x Hx. apply stopAudioProcessing_streams, Hx.
  - intros message sst s' Hs' Hp Ht.
    apply (server_text_message ws message fields u sst s'); assumption.
Qed.

Lemma handleWebSocketMessage_malformed (ws : ws_id) (message : string)
  (e : js_error) (st : state) (s : session_id) (cs : clientState) :
  geminiSessionMap st !! ws = Some s ->
  clientStateMap st !! ws = Some cs ->
  JSON_parse message = inl e ->
  handleWebSocketMessage JSON_parse base64_decode Buffer_from_other toParts pipe_pid
    ws message st =
  with_env (log (WsSend ws (MsgError "Backend error processing message: " e
                                     "Unknown error")) (env st)) st.
Proof.
  intros Hs Hc Hp. unfold handleWebSocketMessage. rewrite Hs, Hc, Hp. reflexivity.
Qed.

Lemma handleWebSocketMessage_text (ws : ws_id) (message : string)
  (fields : list (string * json)) (u : string) (st : state) (s : session_id)
  (cs : clientState) :
  geminiSessionMap st !! ws = Some s ->
  clientStateMap st !! ws = Some cs ->
  JSON_parse message = inr (JObj fields) ->
  field "type" fields = Some (JStr "text") ->
  field "message" fields = Some (JStr u) ->
  handleWebSocketMessage JSON_parse base64_decode Buffer_from_other toParts pipe_pid
    ws message st =
  with_env
    (log (SendClientContent s [UserText u] true) (stopAudioProcessing cs (env st)).2)
    (with_client ws (stopAudioProcessing cs (env st)).1 st).
Proof.
  intros Hs Hc Hp Ht Hm. unfold handleWebSocketMessage. rewrite Hs, Hc, Hp.
  simpl. rewrite Ht. simpl.
  rewrite (handleTextMessage_string ws fields u st cs s Hc Hs Hm). reflexivity.
Qed.

Lemma server_malformed (ws : ws_id) (message : string) (e : js_error)
  (st : Server.state) :
  JSON_parse message = inl e ->
  Server.ws_message JSON_parse base64_decode Buffer_from_other toParts ws message st =
  Server.with_env
    (log (WsSend ws (MsgError "Backend error processing message: " e
                              "Unknown error")) (Server.env st)) st.
Proof.
  intros Hp. unfold Server.ws_message, Server.ws_message_try. rewrite Hp. reflexivity.
Qed.

(** C7. A message that [JSON.parse] rejects, received on a connection
    with a session and a state object, leaves both maps, the process
    table and the streams as they were; the only call is the [ws.send] of
    the error report: [ws.close] is not called and nothing is raised. A
    text message handled next is forwarded to the session as it would
    have been. The handler of [server.js] does the same. *)
Theorem malformed_message_is_reported (ws : ws_id) (message : string)
  (e : js_error) (st : state) (s : session_id) (cs : clientState) :
  geminiSessionMap st !! ws = Some s ->
  clientStateMap st !! ws = Some cs ->
  JSON_parse message = inl e ->
  let handle := handleWebSocketMessage JSON_parse base64_decode Buffer_from_other
                  toParts pipe_pid ws in
  let st' := handle message st in
  geminiSessionMap st' = geminiSessionMap st /\
  clientStateMap st' = clientStateMap st /\
  running (env st') = running (env st) /\
  open_streams (env st') = open_streams (env st) /\
  trace (env st') =
    trace (env st) ++
    [WsSend ws (MsgError "Backend error processing message: " e "Unknown error")] /\
  (forall next fields u,
     JSON_parse next = inr (JObj fields) ->
     field "type" fields = Some (JStr "text") ->
     field "message" fields = Some (JStr u) ->
     trace (env (handle next st')) =
       trace (env st') ++ teardown_calls cs ++ [SendClientContent s [UserText u] true] /\
     clientStateMap (handle next st') = clientStateMap (handle next st)) /\
  (forall sst : Server.state,
     Server.ws_message JSON_parse base64_decode Buffer_from_other toParts ws message sst =
     Server.with_env
       (log (WsSend ws (MsgError "Backend error processing message: " e
                                 "Unknown error")) (Server.env sst)) sst).
Proof.
  intros Hs Hc Hp. cbv zeta.
  rewrite (handleWebSocketMessage_malformed ws message e st s cs Hs Hc Hp).
  repeat split.
  - rewrite (handleWebSocketMessage_text ws next fields u _ s cs);
      [|assumption..].
    simpl. rewrite stopAudioProcessing_trace, <- app_assoc. reflexivity.
  - rewrite (handleWebSocketMessage_text ws next fields u _ s cs);
      [|assumption..].
    rewrite (handleWebSocketMessage_text ws next fields u st s cs);
      [|assumption..].
    simpl. rewrite !stopAudioProcessing_state. reflexivity.
  - intros sst. apply server_malformed, Hp.
Qed.

End ClientMessages.

(** ** The client's messages on a concrete connection *)

Section ClientMessageRuns.
Import Backend Scenario.

Example streaming_state :
  clientStateMap streaming !! 1%positive = Some streaming_client /\
  geminiSessionMap streaming !! 1%positive = Some 7%positive /\
  running (env streaming) = {[4000 := 1%positive]} /\
  open_streams (env streaming) = {[1%positive; 2%positive]} /\
  trace (env streaming) =
    [FfmpegRun 4000 1%positive 2%positive; StreamEnd 1%positive [26; 69; 223; 163]].
Proof. vm_compute. repeat split; reflexivity. Qed.

Lemma handleTextMessage_preempts_then_sends_witness :
  clientStateMap streaming !! 1%positive = Some streaming_client /\
  geminiSessionMap streaming !! 1%positive = Some 7%positive /\
  field "message" [("type", JStr "text"); ("message", JStr "hello")]
    = Some (JStr "hello") /\
  trace (env (handleTextMessage parts_of 1%positive text_json streaming).2) =
    trace (env streaming)
    ++ [ProcessKill None "SIGKILL"; StreamDestroy 1%positive; StreamDestroy 2%positive]
    ++ [SendClientContent 7%positive [UserText "hello"] true].
Proof.
  assert (clientStateMap streaming !! 1%positive = Some streaming_client) as Hc
    by (vm_compute; reflexivity).
  assert (geminiSessionMap streaming !! 1%positive = Some 7%positive) as Hs
    by (vm_compute; reflexivity).
  assert (field "message" [("type", JStr "text"); ("message", JStr "hello")]
          = Some (JStr "hello")) as Hm by reflexivity.
  split; [exact Hc|]. split; [exact Hs|]. split; [exact Hm|].
  destruct (handleTextMessage_preempts_then_sends parse decode from_other parts_of
              1%positive _ "hello" streaming streaming_client 7%positive Hc Hs Hm)
    as (_ & Ht & _).
  exact Ht.
Defined.

(** C5 as stated fails on [server.js]: after an audio message, a text
    message is forwarded while the subprocess of the audio message is
    still running and its two streams are still open; the text message
    adds the [sendClientContent] call and nothing else. *)
Lemma server_text_does_not_preempt :
  let handle := Server.ws_message parse decode from_other parts_of 1%positive in
  let st1 := handle audio_clip server_connected in
  let st2 := handle text_hello st1 in
  running (Server.env st1) = {[4000 := 1%positive]} /\
  running (Server.env st2) = {[4000 := 1%positive]} /\
  open_streams (Server.env st2) = {[1%positive; 2%positive]} /\
  trace (Server.env st2) =
    [FfmpegRun 4000 1%positive 2%positive; StreamEnd 1%positive [26; 69; 223; 163];
     SendClientContent 7%positive [UserText "hello"] true].
Proof. vm_compute. repeat split; reflexivity. Qed.

Lemma malformed_message_is_reported_witness :
  geminiSessionMap streaming !! 1%positive = Some 7%positive /\
  clientStateMap streaming !! 1%positive = Some streaming_client /\
  parse "not json" = inl (SyntaxError "Unexpected token") /\
  let st' := handleWebSocketMessage parse decode from_other parts_of
               fluent_ffmpeg_pipe_pid 1%positive "not json" streaming in
  clientStateMap st' = clientStateMap streaming /\
  trace (env st') =
    trace (env streaming) ++
    [WsSend 1%positive
       (MsgError "Backend error processing message: "
          (SyntaxError "Unexpected token") "Unknown error")].
Proof.
  assert (geminiSessionMap streaming !! 1%positive = Some 7%positive) as Hs
    by (vm_compute; reflexivity).
  assert (clientStateMap streaming !! 1%positive = Some streaming_client) as Hc
    by (vm_compute; reflexivity).
  assert (parse "not json" = inl (SyntaxError "Unexpected token")) as Hp
    by reflexivity.
  split; [exact Hs|]. split; [exact Hc|]. split; [exact Hp|].
  destruct (malformed_message_is_reported parse decode from_other parts_of
              fluent_ffmpeg_pipe_pid 1%positive "not json" _ streaming
              7%positive streaming_client Hs Hc Hp) as (_ & H1 & _ & _ & H2 & _).
  split; [exact H1|exact H2].
Defined.

(** C4, evaluated. [cleanupClient] on a connection that is transcoding,
    with fluent-ffmpeg: [process.kill] is called with [undefined], the
    exception is swallowed, and the subprocess of the connection is still
    running afterwards, so the pipeline has not been released. The rest
    is as specified: the two streams are destroyed, the session is closed
    once, the connection is gone from both maps, and a second call, as
    when an error and a close event race, returns the state it was
    given. *)
Theorem cleanupClient_leaves_subprocess_running :
  let st1 := cleanupClient 1%positive streaming in
  let st2 := cleanupClient 1%positive st1 in
  pipelines_of 1%positive (env streaming) = {[4000 := 1%positive]} /\
  pipelines_of 1%positive (env st1) = {[4000 := 1%positive]} /\
  open_streams (env st1) = ∅ /\
  trace (env st1) =
    trace (env streaming) ++
    [ProcessKill None "SIGKILL"; StreamDestroy 1%positive; StreamDestroy 2%positive;
     SessionClose 7%positive] /\
  geminiSessionMap st1 = ∅ /\
  clientStateMap st1 = ∅ /\
  st2 = st1.
Proof.
  vm_compute. repeat split; reflexivity.
Qed.

(** The same through the handlers of the socket's [error] and [close]
    events. *)
Example cleanupClient_twice :
  let st1 := handleWebSocketError 1%positive streaming in
  let st2 := handleWebSocketClose 1%positive st1 in
  trace (env st1) =
    trace (env streaming) ++
    [ProcessKill None "SIGKILL"; StreamDestroy 1%positive; StreamDestroy 2%positive;
     SessionClose 7%positive] /\
  st2 = st1.
Proof.
  cbv zeta. split; [vm_compute; reflexivity|].
  unfold handleWebSocketClose, handleWebSocketError.
  destruct (cleanupClient_removes 1%positive streaming) as [Hs Hc].
  apply cleanupClient_absent; assumption.
Qed.

End ClientMessageRuns.

(** ** One pipeline per connection? *)

Section Pipelines.
Import Backend.

Lemma running_destroy (s : stream_id) (w : world) : running (destroy s w) = running w.
Proof. reflexivity. Qed.

Lemma next_pid_destroy (s : stream_id) (w : world) : next_pid (destroy s w) = next_pid w.
Proof. reflexivity. Qed.

Lemma running_process_kill (p : option Z) (w : world) :
  running (process_kill p w).2 =
  match p with
  | Some n => delete n (running w)
  | None => running w
  end.
Proof.
  unfold process_kill. destruct p as [n|]; simpl; [|reflexivity].
  destruct (running w !! n) eqn:E; simpl; [reflexivity|].
  symmetry. apply delete_id, E.
Qed.

Lemma next_pid_process_kill (p : option Z) (w : world) :
  next_pid (process_kill p w).2 = next_pid w.
Proof.
  unfold process_kill. destruct p as [n|]; simpl; [|reflexivity].
  destruct (running w !! n); reflexivity.
Qed.

(** What [stopAudioProcessing] does to the process table: the process
    named by the [pid] property of the handle, if that is a number, is
    gone; no other process is affected. *)
Lemma running_stopAudioProcessing (cs : clientState) (w : world) :
  running (stopAudioProcessing cs w).2 =
  match ffmpegProcess cs with
  | Some {| pid := Some n |} => delete n (running w)
  | _ => running w
  end.
Proof.
  unfold stopAudioProcessing.
  destruct (ffmpegProcess cs) as [[p]|], (ffmpegInputStream cs),
    (pcmOutputStream cs); simpl;
    rewrite ?running_destroy, ?running_process_kill; reflexivity.
Qed.

Lemma next_pid_stopAudioProcessing (cs : clientState) (w : world) :
  next_pid (stopAudioProcessing cs w).2 = next_pid w.
Proof.
  unfold stopAudioProcessing.
  destruct (ffmpegProcess cs) as [[p]|], (ffmpegInputStream cs),
    (pcmOutputStream cs); simpl;
    rewrite ?next_pid_destroy, ?next_pid_process_kill; reflexivity.
Qed.

Section AudioStep.

Variable base64_decode : string -> Buf.Buffer.
Variable Buffer_from_other : json -> result Buf.Buffer.

(** With a handle that has no [pid], an audio message leaves every
    running subprocess running and starts one more. *)
Lemma handleAudioMessage_without_pid (ws : ws_id) (fields : list (string * json))
  (a : string) (st : state) (cs : clientState) :
  clientStateMap st !! ws = Some cs ->
  (forall h, ffmpegProcess cs = Some h -> pid h = None) ->
  field "audioData" fields = Some (JStr a) ->
  let st' := (handleAudioMessage base64_decode Buffer_from_other
                fluent_ffmpeg_pipe_pid ws (JObj fields) st).2 in
  running (env st') = <[next_pid (env st) := ws]> (running (env st)) /\
  next_pid (env st') = next_pid (env st) + 1 /\
  geminiSessionMap st' = geminiSessionMap st /\
  exists cs', clientStateMap st' !! ws = Some cs' /\
              ffmpegProcess cs' = Some {| pid := None |}.
Proof.
  intros Hc Hpid Ha. cbv zeta. unfold handleAudioMessage. simpl. rewrite Ha. simpl.
  rewrite Hc.
  pose proof (running_stopAudioProcessing cs (env st)) as Hr.
  pose proof (next_pid_stopAudioProcessing cs (env st)) as Hn.
  destruct (stopAudioProcessing cs (env st)) as [cs1 w1]. simpl in *.
  assert (running w1 = running (env st)) as Hr'.
  { rewrite Hr. destruct (ffmpegProcess cs) as [[[n|]]|] eqn:E; try reflexivity.
    specialize (Hpid _ eq_refl). discriminate Hpid. }
  rewrite Hr', Hn. repeat split.
  eexists. rewrite lookup_insert_eq. split; reflexivity.
Qed.

End AudioStep.

(** With fluent-ffmpeg, [n] audio messages in a row on a connection leave
    [n] subprocesses of that connection running. *)
Lemma audio_burst_running (n : nat) :
  let st := Scenario.audio_burst fluent_ffmpeg_pipe_pid n Scenario.connected in
  next_pid (env st) = 4000 + Z.of_nat n /\
  (exists cs, clientStateMap st !! 1%positive = Some cs /\
              forall h, ffmpegProcess cs = Some h -> pid h = None) /\
  forall k, (k < n)%nat ->
    pipelines_of 1%positive (env st) !! (4000 + Z.of_nat k) = Some 1%positive.
Proof.
  induction n as [|n IH]; cbv zeta.
  - split; [reflexivity|]. split; [|intros k Hk; lia].
    eexists. split; [reflexivity|]. intros h Hh. discriminate Hh.
  - cbv zeta in IH. destruct IH as (Hnext & (cs & Hc & Hpid) & Hrun).
    simpl Scenario.audio_burst.
    destruct (handleAudioMessage_without_pid Scenario.decode Scenario.from_other
                1%positive
                [("type", JStr "audio"); ("audioData", JStr "GkXfow==")]
                "GkXfow==" _ cs Hc Hpid eq_refl)
      as (Hr & Hn & _ & cs' & Hc' & Hh').
    fold Scenario.audio_json in Hr, Hn, Hc'.
    split; [rewrite Hn, Hnext; lia|].
    split.
    { exists cs'. split; [exact Hc'|]. intros h Hh. rewrite Hh' in Hh.
      injection Hh as <-. reflexivity. }
    intros k Hk. unfold pipelines_of. apply map_lookup_filter_Some.
    split; [|reflexivity]. rewrite Hr, Hnext.
    destruct (decide (k = n)) as [->|Hne].
    + apply lookup_insert_eq.
    + rewrite lookup_insert_ne by lia.
      specialize (Hrun k ltac:(lia)). unfold pipelines_of in Hrun.
      apply map_lookup_filter_Some in Hrun as [Hrun _]. exact Hrun.
Qed.

(** C3, evaluated. Two audio messages in a row on one connection, with
    fluent-ffmpeg: [process.kill] is called with [undefined], the
    exception is swallowed, and after the second message both
    subprocesses of the connection are running. The streams of the first
    are destroyed and the state object holds the second pipeline only. *)
Theorem second_audio_message_leaves_two_processes :
  let st := Scenario.audio_burst fluent_ffmpeg_pipe_pid 2 Scenario.connected in
  pipelines_of 1%positive (env st) = {[4000 := 1%positive; 4001 := 1%positive]} /\
  open_streams (env st) = {[3%positive; 4%positive]} /\
  trace (env st) =
    [FfmpegRun 4000 1%positive 2%positive; StreamEnd 1%positive [26; 69; 223; 163];
     ProcessKill None "SIGKILL"; StreamDestroy 1%positive; StreamDestroy 2%positive;
     FfmpegRun 4001 3%positive 4%positive; StreamEnd 3%positive [26; 69; 223; 163]] /\
  clientStateMap st !! 1%positive =
    Some {| ffmpegProcess := Some {| pid := None |};
            ffmpegInputStream := Some 3%positive;
            pcmOutputStream := Some 4%positive;
            isSendingAudioToGemini := false;
            audioBuffer := [];
            mimeType := "";
            firstGeminiResponseReceived := false |}.
Proof. vm_compute. repeat split; reflexivity. Qed.

End Pipelines.

(** *** What the bookkeeping would give

    Were the [pid] property of the stored handle the [pid] of the
    subprocess, every sequence of client messages would leave at most one
    subprocess per connection. *)

Section Tracked.
Import Backend.

Variable JSON_parse : string -> result json.
Variable base64_decode : string -> Buf.Buffer.
Variable Buffer_from_other : json -> result Buf.Buffer.
Variable toParts : option json -> result json.

Lemma tracked_log (c : call) (st : state) :
  tracked st -> tracked (with_env (log c (env st)) st).
Proof. intros Ht p ws Hp. exact (Ht p ws Hp). Qed.

Lemma running_after_stop (cs : clientState) (w : world) (p : Z) (ws : ws_id) :
  running (stopAudioProcessing cs w).2 !! p = Some ws -> running w !! p = Some ws.
Proof.
  rewrite running_stopAudioProcessing.
  destruct (ffmpegProcess cs) as [[[n|]]|]; try tauto.
  intros Hp. apply lookup_delete_Some in Hp as [_ Hp]. exact Hp.
Qed.

Lemma stop_releases (ws : ws_id) (cs : clientState) (st : state) :
  tracked st -> clientStateMap st !! ws = Some cs ->
  forall p, running (stopAudioProcessing cs (env st)).2 !! p <> Some ws.
Proof.
  intros Ht Hc p Hp.
  destruct (Ht p ws (running_after_stop _ _ _ _ Hp)) as (_ & cs0 & Hc0 & Hh).
  rewrite Hc in Hc0. injection Hc0 as <-.
  rewrite running_stopAudioProcessing, Hh in Hp.
  rewrite lookup_delete_eq in Hp. discriminate Hp.
Qed.

Lemma tracked_stop (ws : ws_id) (cs : clientState) (st : state) :
  tracked st -> clientStateMap st !! ws = Some cs ->
  tracked (with_env (stopAudioProcessing cs (env st)).2
             (with_client ws (stopAudioProcessing cs (env st)).1 st)).
Proof.
  intros Ht Hc p w' Hp. simpl in Hp |- *.
  destruct (Ht p w' (running_after_stop _ _ _ _ Hp)) as (Hlt & cs0 & Hc0 & Hh).
  split; [rewrite next_pid_stopAudioProcessing; exact Hlt|].
  exists cs0. split; [|exact Hh].
  rewrite lookup_insert_ne; [exact Hc0|].
  intros <-. exact (stop_releases ws cs st Ht Hc p Hp).
Qed.

Lemma tracked_text (ws : ws_id) (m : json) (st : state) :
  tracked st -> tracked (handleTextMessage toParts ws m st).2.
Proof.
  intros Ht. unfold handleTextMessage.
  destruct (clientStateMap st !! ws) as [cs|] eqn:Hc; [|exact Ht].
  pose proof (tracked_stop ws cs st Ht Hc) as Ht'.
  destruct (stopAudioProcessing cs (env st)) as [cs1 w1]. simpl in Ht'.
  destruct (bind (prop m "message") (createUserContent toParts)); [exact Ht'|].
  destruct (geminiSessionMap st !! ws); [|exact Ht'].
  simpl. apply (tracked_log _ _ Ht').
Qed.

Lemma tracked_audio (ws : ws_id) (m : json) (st : state) :
  tracked st ->
  tracked (handleAudioMessage base64_decode Buffer_from_other child_process_pid
             ws m st).2.
Proof.
  intros Ht. unfold handleAudioMessage.
  destruct (bind (prop m "audioData") (Buffer_from base64_decode Buffer_from_other));
    [exact Ht|].
  destruct (clientStateMap st !! ws) as [cs|] eqn:Hc; [|exact Ht].
  pose proof (tracked_stop ws cs st Ht Hc) as Ht'.
  pose proof (stop_releases ws cs st Ht Hc) as Hfree.
  destruct (stopAudioProcessing cs (env st)) as [cs1 w1]. simpl in Ht', Hfree |- *.
  intros p w' Hp. simpl in Hp |- *.
  destruct (decide (p = next_pid w1)) as [->|Hne].
  - rewrite lookup_insert_eq in Hp. injection Hp as <-.
    split; [lia|]. eexists. rewrite lookup_insert_eq. split; reflexivity.
  - rewrite lookup_insert_ne in Hp by congruence.
    destruct (Ht' p w' Hp) as (Hlt & cs0 & Hc0 & Hh). simpl in Hlt, Hc0.
    split; [lia|]. exists cs0. split; [|exact Hh].
    assert (ws <> w') as Hw by (intros <-; exact (Hfree p Hp)).
    rewrite lookup_insert_ne in Hc0 by exact Hw.
    rewrite lookup_insert_ne by exact Hw. exact Hc0.
Qed.

Lemma tracked_message (ws : ws_id) (message : string) (st : state) :
  tracked st ->
  tracked (handleWebSocketMessage JSON_parse base64_decode Buffer_from_other toParts
             child_process_pid ws message st).
Proof.
  intros Ht. unfold handleWebSocketMessage.
  destruct (geminiSessionMap st !! ws); [|apply tracked_log, Ht].
  destruct (clientStateMap st !! ws); [|apply tracked_log, Ht].
  destruct (JSON_parse message) as [e|m]; [apply tracked_log, Ht|].
  destruct (prop m "type") as [e|type]; [apply tracked_log, Ht|].
  destruct (is_string type "text").
  - pose proof (tracked_text ws m st Ht) as H.
    destruct (handleTextMessage toParts ws m st) as [[e|[]] st']; simpl in H;
      [apply tracked_log, H|exact H].
  - destruct (is_string type "audio" && truthy (get m "audioData")); [|exact Ht].
    pose proof (tracked_audio ws m st Ht) as H.
    destruct (handleAudioMessage _ _ _ ws m st) as [[e|[]] st']; simpl in H;
      [apply tracked_log, H|exact H].
Qed.

Lemma tracked_receive (msgs : list (ws_id * string)) : forall st : state,
  tracked st ->
  tracked (receive JSON_parse base64_decode Buffer_from_other toParts
             child_process_pid msgs st).
Proof.
  induction msgs as [|m r IH]; intros st Ht; [exact Ht|].
  apply IH, tracked_message, Ht.
Qed.

Lemma tracked_one_pipeline (st : state) (ws : ws_id) (p q : Z) :
  tracked st ->
  is_Some (pipelines_of ws (env st) !! p) ->
  is_Some (pipelines_of ws (env st) !! q) ->
  p = q.
Proof.
  intros Ht [x Hp] [y Hq]. unfold pipelines_of in Hp, Hq.
  apply map_lookup_filter_Some in Hp as [Hp Hx], Hq as [Hq Hy].
  simpl in Hx, Hy. subst x y.
  destruct (Ht p ws Hp) as (_ & cs & Hc & Hh).
  destruct (Ht q ws Hq) as (_ & cs' & Hc' & Hh').
  rewrite Hc in Hc'. injection Hc' as <-. rewrite Hh in Hh'.
  injection Hh' as ->. reflexivity.
Qed.

(** With a handle that carries the [pid] of its subprocess, any messages
    on any sockets, handled from a state with no subprocess, leave at
    most one subprocess per connection. *)
Lemma one_pipeline_if_pid_exposed (msgs : list (ws_id * string)) (st : state)
  (ws : ws_id) (p q : Z) :
  running (env st) = ∅ ->
  let st' := receive JSON_parse base64_decode Buffer_from_other toParts
               child_process_pid msgs st in
  is_Some (pipelines_of ws (env st') !! p) ->
  is_Some (pipelines_of ws (env st') !! q) ->
  p = q.
Proof.
  intros Hempty. cbv zeta. apply tracked_one_pipeline, tracked_receive.
  intros n w Hn. rewrite Hempty in Hn. discriminate Hn.
Qed.

End Tracked.

(** ** The client's message list *)

Section FindLast.
Context {A : Type}.
Variable p : A -> bool.

Lemma findLastIndex_Some (l : list A) : forall i,
  findLastIndex p l = Some i -> exists x, l !! i = Some x /\ p x = true.
Proof.
  induction l as [|y r IH]; intros i; simpl; [discriminate|].
  destruct (findLastIndex p r) as [j|] eqn:E.
  - intros [= <-]. apply IH. reflexivity.
  - destruct (p y) eqn:Ey; [|discriminate]. intros [= <-]. exists y. auto.
Qed.

Lemma findLastIndex_all_false (l : list A) :
  (forall x, In x l -> p x = false) -> findLastIndex p l = None.
Proof.
  induction l as [|y r IH]; intros H; simpl; [reflexivity|].
  rewrite IH by (intros x Hx; apply H; right; exact Hx).
  rewrite (H y) by (left; reflexivity). reflexivity.
Qed.

(** The last element satisfying [p], followed by elements that do not. *)
Lemma findLastIndex_last (pre post : list A) (x : A) :
  p x = true -> (forall y, In y post -> p y = false) ->
  findLastIndex p (pre ++ x :: post) = Some (length pre).
Proof.
  intros Hx Hpost. induction pre as [|y r IH]; simpl.
  - rewrite (findLastIndex_all_false post Hpost), Hx. reflexivity.
  - rewrite IH. reflexivity.
Qed.

End FindLast.

Section Merge.
Import App.

Variable plus_other : value -> option json -> result value.
Variable blobUrl : json -> json -> option string.
Variable message_of : js_error -> string.

Lemma is_bot_text_bot (msg : message) : is_bot_text msg = true -> is_bot msg = true.
Proof. unfold is_bot_text, is_bot. destruct (sender msg); [discriminate|reflexivity]. Qed.

Lemma from_user_not_text (msgs : list message) :
  from_user msgs -> forall msg, In msg msgs -> is_bot_text msg = false.
Proof.
  intros H msg Hin. specialize (H msg Hin).
  destruct (is_bot_text msg) eqn:E; [|reflexivity].
  apply is_bot_text_bot in E. congruence.
Qed.

Lemma settled_complete_at (p : message -> bool) (msgs : list message) (i : nat) :
  (forall msg, p msg = true -> is_bot msg = true) ->
  settled msgs -> findLastIndex p msgs = Some i -> complete_at msgs (Some i) = true.
Proof.
  intros Hp Hs Hi. destruct (findLastIndex_Some p msgs i Hi) as (x & Hx & Hpx).
  simpl. rewrite Hx. apply Hs; [|apply Hp, Hpx].
  apply list_elem_of_In, list_elem_of_lookup. eauto.
Qed.

Lemma close_open_settled (msgs : list message) :
  settled msgs -> close_open msgs (findLastIndex is_bot msgs) = msgs.
Proof.
  intros Hs. destruct (findLastIndex is_bot msgs) as [i|] eqn:E; [|reflexivity].
  unfold close_open. rewrite (settled_complete_at is_bot msgs i); auto.
Qed.

(** A text fragment when no assistant message is open: a new, open
    message is pushed. *)
Lemma text_opens (msgs : list message) (f : string) :
  settled msgs ->
  gemini_update plus_other blobUrl (encode message_of (MsgText f)) msgs
  = ret (msgs ++ [open_text f]).
Proof.
  intros Hs. unfold gemini_update. simpl.
  rewrite close_open_settled by exact Hs.
  destruct (findLastIndex is_bot_text msgs) as [i|] eqn:E; [|reflexivity].
  rewrite (settled_complete_at is_bot_text msgs i);
    auto using is_bot_text_bot.
Qed.

(** A text fragment when the last assistant message is an open text,
    whatever the user has added since: its content grows. *)
Lemma text_appends (pre post : list message) (c f : string) :
  from_user post ->
  gemini_update plus_other blobUrl (encode message_of (MsgText f))
    (pre ++ open_text c :: post)
  = ret (pre ++ open_text (c ++ f) :: post).
Proof.
  intros Hu. unfold gemini_update. simpl.
  rewrite (findLastIndex_last is_bot_text pre post (open_text c) eq_refl
             (from_user_not_text post Hu)).
  simpl. rewrite list_lookup_middle by reflexivity. simpl.
  unfold add_content. rewrite list_lookup_middle by reflexivity. simpl.
  rewrite insert_app_r_alt by lia. rewrite Nat.sub_diag. reflexivity.
Qed.

(** The turn-complete message closes the open message. *)
Lemma turnComplete_closes (pre post : list message) (c : string) :
  from_user post ->
  gemini_update plus_other blobUrl (encode message_of MsgTurnComplete)
    (pre ++ open_text c :: post)
  = ret (pre ++ closed_text c :: post).
Proof.
  intros Hu. unfold gemini_update. simpl.
  rewrite (findLastIndex_last is_bot pre post (open_text c) eq_refl Hu).
  unfold close_open, complete_at. rewrite list_lookup_middle by reflexivity. simpl.
  rewrite alter_app_r_alt by lia. rewrite Nat.sub_diag. reflexivity.
Qed.

(** Nothing is delivered after an exception. *)
Lemma deliver_thrown (datas : list json) (e : js_error) :
  fold_left (fun acc data =>
               let* messages := acc in gemini_update plus_other blobUrl data messages)
    datas (inl e) = inl e.
Proof. induction datas as [|d r IH]; [reflexivity|exact IH]. Qed.

Lemma deliver_cons (d : json) (r : list json) (msgs : list message) :
  deliver plus_other blobUrl (d :: r) msgs
  = let* mid := gemini_update plus_other blobUrl d msgs in
    deliver plus_other blobUrl r mid.
Proof.
  unfold deliver. cbn [fold_left bind ret].
  destruct (gemini_update plus_other blobUrl d msgs) as [e|mid]; [|reflexivity].
  apply deliver_thrown.
Qed.

Lemma deliver_app (a b : list json) (msgs : list message) :
  deliver plus_other blobUrl (a ++ b) msgs
  = let* mid := deliver plus_other blobUrl a msgs in
    deliver plus_other blobUrl b mid.
Proof.
  unfold deliver. rewrite fold_left_app.
  destruct (fold_left _ a (ret msgs)) as [e|mid]; [|reflexivity].
  apply deliver_thrown.
Qed.

(** Fragments delivered while a text message is open all go into it. *)
Lemma fragments_append (fs : list string) :
  forall (pre post : list message) (c : string),
  from_user post ->
  deliver plus_other blobUrl (map (fun f => encode message_of (MsgText f)) fs)
    (pre ++ open_text c :: post)
  = ret (pre ++ open_text (joined c fs) :: post).
Proof.
  induction fs as [|f r IH]; intros pre post c Hu; [reflexivity|].
  cbn [map]. rewrite deliver_cons, text_appends by exact Hu. apply IH, Hu.
Qed.

Lemma fragments_merge (prev : list message) (f : string) (rest : list string) :
  settled prev ->
  deliver plus_other blobUrl
    (map (fun f => encode message_of (MsgText f)) (f :: rest)) prev
  = ret (prev ++ [open_text (joined f rest)]).
Proof.
  intros Hs. cbn [map]. rewrite deliver_cons, text_opens by exact Hs.
  apply (fragments_append rest prev [] f). intros msg [].
Qed.

End Merge.

Section MergeTheorem.
Import App.

Variable plus_other : value -> option json -> result value.
Variable blobUrl : json -> json -> option string.
Variable blobUrl0 : json -> json -> result string.
Variable message_of : js_error -> string.

Lemma App0_text (f : string) (msgs : list App0.message) :
  App0.ondata blobUrl0 (encode message_of (MsgText f)) msgs
  = inr (msgs ++ [App0.text_message f]).
Proof. reflexivity. Qed.

(** The first component pushes one message per text fragment and ignores
    the turn-complete message. *)
Lemma App0_fragments (fs : list string) : forall msgs : list App0.message,
  fold_left (fun acc data => let* messages := acc in App0.ondata blobUrl0 data messages)
    (map (fun f => encode message_of (MsgText f)) fs) (inr msgs)
  = inr (msgs ++ map App0.text_message fs).
Proof.
  induction fs as [|f r IH]; intros msgs.
  - simpl. rewrite app_nil_r. reflexivity.
  - cbn [map fold_left bind]. rewrite App0_text, IH, <- app_assoc. reflexivity.
Qed.

Lemma App0_turn (fs : list string) (msgs : list App0.message) :
  App0.deliver blobUrl0
    (map (fun f => encode message_of (MsgText f)) fs
     ++ [encode message_of MsgTurnComplete]) msgs
  = inr (msgs ++ map App0.text_message fs).
Proof.
  unfold App0.deliver, ret. rewrite fold_left_app, App0_fragments. reflexivity.
Qed.

(** C6 (as amended). In the current component, when no assistant message
    is open, the text fragments of a turn are merged, in order, into one
    new assistant message, which stays open while fragments arrive and is
    marked complete by the turn-complete message; the fragments "Hel",
    "lo", " world" followed by turn-complete, on an empty list, give the
    single message "Hello world", complete. In the first component every
    text fragment becomes a message of its own and the turn-complete
    message is ignored. *)
Theorem text_fragments_merge_until_turnComplete (prev : list message)
  (f : string) (rest : list string) :
  settled prev ->
  let texts := map (fun f => encode message_of (MsgText f)) (f :: rest) in
  deliver plus_other blobUrl texts prev = ret (prev ++ [open_text (joined f rest)]) /\
  deliver plus_other blobUrl (texts ++ [encode message_of MsgTurnComplete]) prev
    = ret (prev ++ [closed_text (joined f rest)]) /\
  deliver plus_other blobUrl
    (map (encode message_of)
       [MsgText "Hel"; MsgText "lo"; MsgText " world"; MsgTurnComplete]) []
    = ret [closed_text "Hello world"] /\
  (forall msgs0 : list App0.message,
     App0.deliver blobUrl0 (texts ++ [encode message_of MsgTurnComplete]) msgs0
     = inr (msgs0 ++ map App0.text_message (f :: rest))).
Proof.
  intros Hs. cbv zeta.
  pose proof (fragments_merge plus_other blobUrl message_of prev f rest Hs) as Hopen.
  repeat split.
  - exact Hopen.
  - rewrite deliver_app, Hopen. cbn [bind ret]. rewrite deliver_cons.
    rewrite (turnComplete_closes plus_other blobUrl message_of prev []
               (joined f rest)) by (intros msg []).
    reflexivity.
  - intros msgs0. apply App0_turn.
Qed.

End MergeTheorem.

Section MergeRuns.
Import App.

Lemma text_fragments_merge_until_turnComplete_witness :
  settled Scenario.user_said_hi /\
  deliver Scenario.no_plus Scenario.no_blob
    (map (fun f => encode Scenario.no_message (MsgText f)) ["Hel"; "lo"; " world"]
     ++ [encode Scenario.no_message MsgTurnComplete]) Scenario.user_said_hi
  = ret (Scenario.user_said_hi ++ [closed_text "Hello world"]).
Proof.
  assert (settled Scenario.user_said_hi) as Hs.
  { intros msg [<-|[]] Hbot. discriminate Hbot. }
  split; [exact Hs|].
  destruct (text_fragments_merge_until_turnComplete Scenario.no_plus
              Scenario.no_blob Scenario.no_blob0 Scenario.no_message
              Scenario.user_said_hi "Hel" ["lo"; " world"] Hs) as (_ & H & _).
  exact H.
Defined.

(** C6 as stated fails on the first component: the three fragments and
    the turn-complete message give three messages, none of them "Hello
    world". *)
Lemma first_component_does_not_merge :
  App0.deliver Scenario.no_blob0 Scenario.hello_world []
  = inr [App0.text_message "Hel"; App0.text_message "lo";
         App0.text_message " world"] /\
  App0.deliver Scenario.no_blob0 Scenario.hello_world []
  <> inr [App0.text_message "Hello world"].
Proof. split; [reflexivity|discriminate]. Qed.

End MergeRuns.

(** ** [truncateAudioData] *)

Module TruncateFacts.
Import Truncate.

#[local] Open Scope nat_scope.

Section JsonInd.
Variable P : json -> Prop.
Hypothesis HNull : P JNull.
Hypothesis HBool : forall b, P (JBool b).
Hypothesis HNum : forall q, P (JNum q).
Hypothesis HStr : forall s, P (JStr s).
Hypothesis HArr : forall elems, Forall P elems -> P (JArr elems).
Hypothesis HObj : forall fields, Forall (fun kv => P kv.2) fields -> P (JObj fields).

Lemma json_nested_ind : forall t, P t.
Proof.
  fix IH 1. intros [| b | q | s | elems | fields].
  - exact HNull.
  - apply HBool.
  - apply HNum.
  - apply HStr.
  - apply HArr. induction elems as [|x r IHr]; constructor; [apply IH|exact IHr].
  - apply HObj. induction fields as [|[k x] r IHr]; constructor; [apply IH|exact IHr].
Qed.
End JsonInd.

Lemma lookup_mid (pre os post : heap) (o : object) :
  (pre ++ os ++ o :: post) !! (length pre + length os)%nat = Some o.
Proof.
  rewrite app_assoc. rewrite <- length_app. apply list_lookup_middle. reflexivity.
Qed.

Lemma insert_mid (pre os post : heap) (o o' : object) :
  <[(length pre + length os)%nat := o']> (pre ++ os ++ o :: post)
  = pre ++ os ++ o' :: post.
Proof.
  rewrite !app_assoc. rewrite <- length_app.
  rewrite insert_app_r_alt by lia. rewrite Nat.sub_diag. reflexivity.
Qed.

Lemma traverse_prim (fuel : nat) (M : Z) (h : heap) (v : value) :
  (forall l, v <> VRef l) -> traverse fuel M h v = Some h.
Proof. intros Hv. destruct fuel, v; try reflexivity; exfalso; eapply Hv; reflexivity. Qed.

Lemma layout_prim (t : json) (base : nat) :
  (forall e, t <> JArr e) -> (forall f, t <> JObj f) ->
  (layout t base).2 = [] /\ forall l, (layout t base).1 <> VRef l.
Proof.
  intros Ha Ho. destruct t; simpl; try (split; [reflexivity|intros l; discriminate]).
  - exfalso. eapply Ha. reflexivity.
  - exfalso. eapply Ho. reflexivity.
Qed.

Lemma layout_container (t : json) (base : nat) :
  (exists e, t = JArr e) \/ (exists f, t = JObj f) ->
  exists l, (layout t base).1 = VRef l.
Proof.
  intros [[e ->]|[f ->]]; cbn [layout];
    match goal with
    | |- context [layout_children ?a ?b ?c ?d ?e ?f] =>
        destruct (layout_children a b c d e f)
    end; eexists; reflexivity.
Qed.

(** Depth of children. *)
Lemma depth_elems (elems : list json) (fuel : nat) :
  (depth (JArr elems) <= S fuel)%nat -> forall x, In x elems -> (depth x <= fuel)%nat.
Proof.
  simpl. intros H x Hx. apply le_S_n in H. induction elems as [|y r IH]; [destruct Hx|].
  simpl in H. destruct Hx as [<-|Hx]; [lia|]. apply IH; [lia|exact Hx].
Qed.

Lemma depth_fields (fields : list (string * json)) (fuel : nat) :
  (depth (JObj fields) <= S fuel)%nat ->
  forall x, In x fields -> (depth x.2 <= fuel)%nat.
Proof.
  simpl. intros H x Hx. apply le_S_n in H. induction fields as [|y r IH]; [destruct Hx|].
  simpl in H. destruct Hx as [<-|Hx]; [lia|]. apply IH; [lia|exact Hx].
Qed.

Section Children.
Context {A : Type}.
Variable child : A -> json.
Variable key_of : nat -> A -> key.

#[local] Abbreviation lay := (layout_children layout child key_of).

Lemma children_stringify (xs : list A) :
  Forall (fun x => stringifies (child x)) xs ->
  forall fuel i pre post,
    (forall x, In x xs -> (depth (child x) <= fuel)%nat) ->
    mapM (fun kv => pair kv.1 <$>
            stringify fuel (pre ++ (lay xs i (length pre)).2 ++ post) kv.2)
      (lay xs i (length pre)).1
    = Some (keyed child key_of xs i).
Proof.
  induction 1 as [|x r Hx Hr IH]; intros fuel i pre post Hd; [reflexivity|].
  cbn [layout_children keyed].
  destruct (layout (child x) (length pre)) as [v o1] eqn:E1.
  destruct (lay r (S i) (length pre + length o1)) as [es o2] eqn:E2.
  cbn [fst snd mapM].
  specialize (Hx fuel pre (o2 ++ post) (Hd x (or_introl eq_refl))).
  rewrite E1 in Hx. cbn [fst snd] in Hx.
  rewrite <- (app_assoc o1 o2 post). rewrite Hx. cbn.
  specialize (IH fuel (S i) (pre ++ o1) post (fun y Hy => Hd y (or_intror Hy))).
  rewrite length_app, E2 in IH. cbn [fst snd] in IH.
  rewrite <- app_assoc in IH. rewrite IH. reflexivity.
Qed.

End Children.

Lemma keyed_elems (elems : list json) (i : nat) :
  map snd (keyed (fun t => t) (fun i _ => Index i) elems i) = elems.
Proof.
  revert i. induction elems as [|x r IH]; intros i; simpl; [reflexivity|].
  rewrite IH. reflexivity.
Qed.

Lemma keyed_fields (fields : list (string * json)) (i : nat) :
  map (fun kc : key * json => (key_string kc.1, kc.2))
    (keyed snd (fun _ (kv : string * json) => Name kv.1) fields i) = fields.
Proof.
  revert i. induction fields as [|[k x] r IH]; intros i; simpl; [reflexivity|].
  rewrite IH. reflexivity.
Qed.

Lemma stringify_layout : forall t, stringifies t.
Proof.
  apply json_nested_ind.
  1-4: intros; intros fuel pre post _; destruct fuel; reflexivity.
  - intros elems Hall fuel pre post Hd.
    destruct fuel as [|fuel]; [simpl in Hd; lia|].
    pose proof (children_stringify (fun t => t) (fun i _ => Index i) elems Hall
                  fuel 0%nat pre) as Hc.
    cbn [layout].
    destruct (layout_children layout (fun t => t) (fun i _ => Index i) elems 0
                (length pre)) as [es os] eqn:E.
    cbn [fst snd] in Hc |- *. cbn [stringify].
    rewrite <- app_assoc. cbn [app]. rewrite lookup_mid. cbn [isArray entries].
    rewrite Hc by (apply depth_elems, Hd). cbn. rewrite keyed_elems. reflexivity.
  - intros fields Hall fuel pre post Hd.
    destruct fuel as [|fuel]; [simpl in Hd; lia|].
    pose proof (children_stringify snd (fun _ (kv : string * json) => Name kv.1)
                  fields Hall fuel 0%nat pre) as Hc.
    cbn [layout].
    destruct (layout_children layout snd (fun _ (kv : string * json) => Name kv.1)
                fields 0 (length pre)) as [es os] eqn:E.
    cbn [fst snd] in Hc |- *. cbn [stringify].
    rewrite <- app_assoc. cbn [app]. rewrite lookup_mid. cbn [isArray entries].
    rewrite Hc by (apply depth_fields, Hd). cbn. rewrite keyed_fields. reflexivity.
Qed.

Section Loop.
Context {A : Type}.
Variable child : A -> json.
Variable key_of : nat -> A -> key.
Variable tr : A -> A.
Variable M : Z.

Hypothesis Hkey : forall i x, key_of i (tr x) = key_of i x.
Hypothesis Hstr : forall i x s, child x = JStr s ->
  child (tr x) = JStr (if eligible M (key_of i x) s then cut M s else s).
Hypothesis Hother : forall x, (forall s, child x <> JStr s) ->
  child (tr x) = truncated M (child x).

#[local] Abbreviation lay := (layout_children layout child key_of).

Lemma children_shape (xs : list A) :
  Forall (fun x => same_shape M (child x)) xs ->
  forall i base,
    length (lay (map tr xs) i base).2 = length (lay xs i base).2 /\
    length (lay (map tr xs) i base).1 = length (lay xs i base).1.
Proof.
  induction 1 as [|x r Hx Hr IH]; intros i base; [split; reflexivity|].
  cbn [map layout_children].
  assert (length (layout (child (tr x)) base).2 = length (layout (child x) base).2) as Hl.
  { destruct (child x) as [| b | q | s | elems | fields] eqn:Ec;
      try (rewrite Hother by (rewrite Ec; discriminate); rewrite Ec;
           exact (proj2 (Hx base))).
    rewrite (Hstr i x s Ec). reflexivity. }
  destruct (layout (child (tr x)) base) as [v' o1'].
  destruct (layout (child x) base) as [v o1]. cbn [snd] in Hl.
  rewrite Hl. specialize (IH (S i) (base + length o1)%nat).
  destruct (lay (map tr r) (S i) (base + length o1)) as [es' o2'].
  destruct (lay r (S i) (base + length o1)) as [es o2].
  cbn [fst snd] in IH |- *. rewrite !length_app. cbn [length]. lia.
Qed.

Lemma loop_ok (todo : list A) :
  Forall (fun x => traverses M (child x) /\ same_shape M (child x)) todo ->
  forall fuel i pre done post arr,
    (forall x, In x todo -> (depth (child x) <= fuel)%nat) ->
    for_in (visit (traverse fuel M) M (length pre + length (lay todo i (length pre)).2))
      (seq (length done) (length (lay todo i (length pre)).1))
      (pre ++ (lay todo i (length pre)).2
       ++ {| isArray := arr; entries := done ++ (lay todo i (length pre)).1 |} :: post)
    = Some (pre ++ (lay (map tr todo) i (length pre)).2
            ++ {| isArray := arr;
                  entries := done ++ (lay (map tr todo) i (length pre)).1 |} :: post).
Proof.
  induction 1 as [|x r [Hx Sx] Hr IH]; intros fuel i pre done post arr Hd;
    [reflexivity|].
  cbn [map layout_children].
  pose proof (Hd x (or_introl eq_refl)) as Hdx.
  assert (forall y, In y r -> (depth (child y) <= fuel)%nat) as Hdr
    by (intros y Hy; apply Hd; right; exact Hy).
  destruct (child x) as [| b | q | s | elems | fields] eqn:Ec.
  all: try (rewrite (Hother x) by (rewrite Ec; discriminate); rewrite Ec).
  4: rewrite (Hstr i x s Ec).
  all: rewrite ?Hkey.
  5-6: pose proof (Sx (length pre)) as [Sv Sl];
    pose proof (fun post => Hx fuel pre post Hdx) as Hx';
    match goal with
    | |- context [layout (truncated M ?t) (length ?p)] =>
        destruct (layout_container t (length p)) as [l' Hl'];
          [first [left; eexists; reflexivity | right; eexists; reflexivity]|];
        destruct (layout (truncated M t) (length p)) as [v' o1'];
        destruct (layout t (length p)) as [v o1]
    end;
    cbn [fst snd] in Sv, Sl, Hx', Hl'; subst v' v; rewrite Sl;
    specialize (IH fuel (S i) (pre ++ o1'));
    rewrite length_app, Sl in IH;
    destruct (lay r (S i) (length pre + length o1)) as [es o2] eqn:E2;
    destruct (lay (map tr r) (S i) (length pre + length o1)) as [es' o2'] eqn:E2';
    cbn [fst snd length seq for_in] in IH |- *;
    unfold visit at 1; rewrite lookup_mid; cbn [entries];
    rewrite list_lookup_middle by reflexivity;
    rewrite <- (app_assoc o1 o2), Hx';
    specialize (IH (done ++ [(key_of i x, VRef l')]) post arr Hdr);
    rewrite length_app, <- !app_assoc in IH; cbn [length app] in IH;
    rewrite Nat.add_1_r in IH;
    rewrite length_app, <- Sl, <- !app_assoc, Nat.add_assoc;
    rewrite Sl at 1;
    exact IH.
  1-4: cbn [truncated layout fst snd app length Nat.add].
  1-4: rewrite Nat.add_0_r.
  1-4: specialize (IH fuel (S i) pre).
  1-4: destruct (lay r (S i) (length pre)) as [es o2] eqn:E2.
  1-4: destruct (lay (map tr r) (S i) (length pre)) as [es' o2'] eqn:E2'.
  1-4: cbn [fst snd length seq for_in] in IH |- *.
  1-4: unfold visit at 1; rewrite lookup_mid; cbn [entries];
       rewrite list_lookup_middle by reflexivity.
  - rewrite traverse_prim by discriminate.
    specialize (IH (done ++ [(key_of i x, VNull)]) post arr Hdr).
    rewrite length_app, <- !app_assoc in IH. cbn [length app] in IH.
    rewrite Nat.add_1_r in IH. exact IH.
  - specialize (IH (done ++ [(key_of i x, VBool b)]) post arr Hdr).
    rewrite length_app, <- !app_assoc in IH. cbn [length app] in IH.
    rewrite Nat.add_1_r in IH. exact IH.
  - specialize (IH (done ++ [(key_of i x, VNum q)]) post arr Hdr).
    rewrite length_app, <- !app_assoc in IH. cbn [length app] in IH.
    rewrite Nat.add_1_r in IH. exact IH.
  - destruct (eligible M (key_of i x) s).
    + rewrite insert_mid. unfold set_entry. cbn [isArray entries].
      rewrite alter_app_r_alt by lia. rewrite Nat.sub_diag. cbn [alter list_alter fst].
      specialize (IH (done ++ [(key_of i x, VStr (cut M s))]) post arr Hdr).
      rewrite length_app, <- !app_assoc in IH. cbn [length app] in IH.
      rewrite Nat.add_1_r in IH. exact IH.
    + specialize (IH (done ++ [(key_of i x, VStr s)]) post arr Hdr).
      rewrite length_app, <- !app_assoc in IH. cbn [length app] in IH.
      rewrite Nat.add_1_r in IH. exact IH.
Qed.

End Loop.

Section Whole.
Variable M : Z.

Lemma field_key (i : nat) (kv : string * json) :
  (fun _ (kv : string * json) => Name kv.1) i (tr_field M kv)
  = (fun _ (kv : string * json) => Name kv.1) i kv.
Proof. reflexivity. Qed.

Lemma field_str (i : nat) (kv : string * json) (s : string) :
  kv.2 = JStr s ->
  (tr_field M kv).2 = JStr (if eligible M (Name kv.1) s then cut M s else s).
Proof.
  intros H. unfold tr_field. rewrite H. simpl.
  destruct (eligible M (Name kv.1) s); reflexivity.
Qed.

Lemma field_other (kv : string * json) :
  (forall s, kv.2 <> JStr s) -> (tr_field M kv).2 = truncated M kv.2.
Proof.
  intros H. unfold tr_field. simpl. destruct kv.2; try reflexivity.
  exfalso. eapply H. reflexivity.
Qed.

Lemma elem_str (i : nat) (x : json) (s : string) :
  x = JStr s ->
  truncated M x = JStr (if eligible M (Index i) s then cut M s else s).
Proof. intros ->. reflexivity. Qed.

Lemma truncated_shape_traverse : forall t, traverses M t /\ same_shape M t.
Proof.
  apply json_nested_ind.
  1-4: intros; split; [intros fuel pre post _; apply traverse_prim; discriminate
                      |intros base; split; reflexivity].
  - intros elems Hall.
    assert (Forall (fun x => same_shape M x) elems) as Hshape
      by (eapply Forall_impl; [exact Hall|intros x [_ H]; exact H]).
    pose proof (children_shape (fun t => t) (fun i _ => Index i) (truncated M) M
                  (fun i s x Hx => elem_str i s x Hx) (fun x _ => eq_refl)
                  elems Hshape 0) as Hcs.
    split.
    + intros fuel pre post Hd. destruct fuel as [|fuel]; [simpl in Hd; lia|].
      pose proof (loop_ok (fun t => t) (fun i _ => Index i) (truncated M) M
                    (fun _ _ => eq_refl)
                    (fun i s x Hx => elem_str i s x Hx) (fun x _ => eq_refl)
                    elems Hall fuel 0 pre [] post true (depth_elems elems fuel Hd))
        as Hloop.
      specialize (Hcs (length pre)).
      cbn [truncated layout].
      destruct (layout_children layout (fun t => t) (fun i _ => Index i) elems 0
                  (length pre)) as [es os].
      destruct (layout_children layout (fun t => t) (fun i _ => Index i)
                  (map (truncated M) elems) 0 (length pre)) as [es' os'].
      cbn [fst snd app length] in Hloop, Hcs |- *. cbn [traverse].
      rewrite <- app_assoc. cbn [app]. rewrite lookup_mid. cbn [entries].
      rewrite Hloop, <- app_assoc. reflexivity.
    + intros base. specialize (Hcs base). cbn [truncated layout].
      destruct (layout_children layout (fun t => t) (fun i _ => Index i) elems 0 base)
        as [es os].
      destruct (layout_children layout (fun t => t) (fun i _ => Index i)
                  (map (truncated M) elems) 0 base) as [es' os'].
      cbn [fst snd] in Hcs |- *. rewrite !length_app. cbn [length].
      destruct Hcs as [-> _]. split; reflexivity.
  - intros fields Hall.
    assert (Forall (fun x : string * json => same_shape M x.2) fields) as Hshape
      by (eapply Forall_impl; [exact Hall|intros x [_ H]; exact H]).
    pose proof (children_shape snd (fun _ (kv : string * json) => Name kv.1)
                  (tr_field M) M field_str field_other fields Hshape 0) as Hcs.
    split.
    + intros fuel pre post Hd. destruct fuel as [|fuel]; [simpl in Hd; lia|].
      pose proof (loop_ok snd (fun _ (kv : string * json) => Name kv.1) (tr_field M) M
                    field_key field_str field_other
                    fields Hall fuel 0 pre [] post false (depth_fields fields fuel Hd))
        as Hloop.
      specialize (Hcs (length pre)).
      cbn [truncated layout].
      change (map _ fields) with (map (tr_field M) fields).
      destruct (layout_children layout snd (fun _ (kv : string * json) => Name kv.1)
                  fields 0 (length pre)) as [es os].
      destruct (layout_children layout snd (fun _ (kv : string * json) => Name kv.1)
                  (map (tr_field M) fields) 0 (length pre)) as [es' os'].
      cbn [fst snd app length] in Hloop, Hcs |- *. cbn [traverse].
      rewrite <- app_assoc. cbn [app]. rewrite lookup_mid. cbn [entries].
      rewrite Hloop, <- app_assoc. reflexivity.
    + intros base. specialize (Hcs base). cbn [truncated layout].
      change (map _ fields) with (map (tr_field M) fields).
      destruct (layout_children layout snd (fun _ (kv : string * json) => Name kv.1)
                  fields 0 base) as [es os].
      destruct (layout_children layout snd (fun _ (kv : string * json) => Name kv.1)
                  (map (tr_field M) fields) 0 base) as [es' os'].
      cbn [fst snd] in Hcs |- *. rewrite !length_app. cbn [length].
      destruct Hcs as [-> _]. split; reflexivity.
Qed.

End Whole.

Lemma depth_assemble (arr : bool) (children : list (key * json)) (n : nat) :
  (forall kc, In kc children -> depth kc.2 <= n) ->
  depth (assemble arr children) <= S n.
Proof.
  intros H. unfold assemble. destruct arr; simpl; apply le_n_S.
  - induction children as [|c r IH]; simpl; [lia|].
    apply Nat.max_lub; [apply H; left; reflexivity|].
    apply IH. intros kc Hkc. apply H. right. exact Hkc.
  - induction children as [|c r IH]; simpl; [lia|].
    apply Nat.max_lub; [apply H; left; reflexivity|].
    apply IH. intros kc Hkc. apply H. right. exact Hkc.
Qed.

Lemma stringify_depth (fuel : nat) (h : heap) : forall (v : value) (t : json),
  stringify fuel h v = Some t -> depth t <= fuel.
Proof.
  induction fuel as [|fuel IH]; intros v t Hs.
  - destruct v; simpl in Hs; try discriminate; injection Hs as <-; simpl; lia.
  - destruct v as [| b | q | s | l]; simpl in Hs;
      try (injection Hs as <-; simpl; lia).
    destruct (h !! l) as [o|]; [|discriminate].
    apply fmap_Some in Hs as (children & Hm & ->).
    apply mapM_Some in Hm. apply depth_assemble.
    induction Hm as [|kv kc es children Hkv _ IHm]; [intros c []|].
    intros c [<-|Hc]; [|auto].
    apply fmap_Some in Hkv as (j & Hj & ->). exact (IH _ _ Hj).
Qed.

Lemma stringify_prefix (fuel : nat) (h e : heap) : forall (v : value) (t : json),
  stringify fuel h v = Some t -> stringify fuel (h ++ e) v = Some t.
Proof.
  induction fuel as [|fuel IH]; intros v t Hs.
  - destruct v; simpl in Hs |- *; try discriminate; exact Hs.
  - destruct v as [| b | q | s | l]; simpl in Hs |- *; try exact Hs.
    destruct (h !! l) as [o|] eqn:Hl; [|discriminate].
    rewrite (lookup_app_l_Some _ _ _ _ Hl).
    apply fmap_Some in Hs as (children & Hm & ->).
    apply fmap_Some. exists children. split; [|reflexivity].
    apply mapM_Some. apply mapM_Some in Hm.
    eapply Forall2_impl; [exact Hm|]. intros kv kc Hkv. cbn beta in Hkv |- *.
    apply fmap_Some in Hkv as (j & Hj & ->).
    rewrite (IH _ _ Hj). reflexivity.
Qed.

Lemma depth_truncated (M : Z) : forall t, depth (truncated M t) = depth t.
Proof.
  apply json_nested_ind; try reflexivity.
  - intros elems Hall. simpl. f_equal.
    induction Hall as [|x r Hx _ IH]; simpl; [reflexivity|]. rewrite Hx, IH. reflexivity.
  - intros fields Hall. simpl. f_equal.
    induction Hall as [|x r Hx _ IH]; simpl; [reflexivity|]. rewrite IH. f_equal.
    destruct x.2; try exact Hx. destruct (eligible M (Name x.1) s); reflexivity.
Qed.

Lemma layout_address (t : json) (base : nat) (l : loc) :
  (layout t base).1 = VRef l -> base <= l.
Proof.
  destruct t; cbn [layout]; try discriminate;
    match goal with
    | |- context [layout_children ?a ?b ?c ?d ?e ?f] =>
        destruct (layout_children a b c d e f)
    end; cbn [fst]; intros [= <-]; lia.
Qed.

Lemma stringify_container (fuel : nat) (h : heap) (l : loc) (t : json) :
  stringify fuel h (VRef l) = Some t ->
  (exists e, t = JArr e) \/ (exists f, t = JObj f).
Proof.
  destruct fuel as [|fuel]; simpl; [discriminate|].
  destruct (h !! l) as [o|]; [|discriminate].
  intros Hs. apply fmap_Some in Hs as (children & _ & ->).
  unfold assemble. destruct (isArray o); [left|right]; eexists; reflexivity.
Qed.

#[local] Ltac exists_prim :=
  match goal with
  | Hs : stringify ?f ?h ?v = Some _ |- _ =>
      exists v, h; destruct f; simpl in Hs; injection Hs as <-;
      repeat split; try reflexivity; apply firstn_all
  end.

(** On an object: the clone is made of fresh objects, the objects that
    were there are as they were, and the clone reads as the truncated
    tree. *)
Lemma truncateAudioData_object (fuel : nat) (h : heap) (l : loc) (t : json) (M : Z) :
  stringify fuel h (VRef l) = Some t ->
  exists l' h',
    truncateAudioData fuel (VRef l) M h = Some (VRef l', h') /\
    (length h <= l') /\
    take (length h) h' = h /\
    stringify fuel h' (VRef l) = Some t /\
    stringify fuel h' (VRef l') = Some (truncated M t).
Proof.
  intros Hs.
  pose proof (stringify_depth _ _ _ _ Hs) as Hd.
  destruct (truncated_shape_traverse M t) as [Htr Hsh].
  specialize (Htr fuel h [] Hd). destruct (Hsh (length h)) as [Hv Hlen].
  destruct (layout_container t (length h) (stringify_container _ _ _ _ Hs))
    as [l' Hl'].
  pose proof (stringify_layout (truncated M t) fuel h []) as Hout.
  rewrite depth_truncated in Hout. specialize (Hout Hd).
  rewrite Hv, Hl', app_nil_r in Hout. rewrite Hl', !app_nil_r in Htr.
  exists l', (h ++ (layout (truncated M t) (length h)).2).
  unfold truncateAudioData, JSON_parse_tree. rewrite Hs.
  destruct (layout t (length h)) as [v os] eqn:E. cbn [fst snd] in *. subst v.
  cbn beta iota. rewrite Hl' in E |- *. rewrite Htr. repeat split.
  - eapply layout_address. rewrite E. reflexivity.
  - apply take_app_length.
  - apply stringify_prefix, Hs.
  - exact Hout.
Qed.


(** C10. On an argument that [JSON.stringify] can serialise, with text
    [t], [truncateAudioData] returns; no object that existed before the
    call is changed, so the argument still serialises to [t]; an argument
    that is not an object is returned as it is, with the heap unchanged;
    for an object the result is a fresh object that serialises to
    [truncated maxLength t]: the strings stored under the keys [data],
    [audio] and [audioData] that are longer than [maxLength] and start
    with a character of the base64 alphabet are replaced by their first
    [maxLength] characters followed by the marker, and every other field
    is that of the argument. *)
Theorem truncateAudioData_clones_then_truncates (fuel : nat) (h : heap)
  (obj : value) (t : json) (maxLength : Z) :
  stringify fuel h obj = Some t ->
  exists result h',
    truncateAudioData fuel obj maxLength h = Some (result, h') /\
    take (length h) h' = h /\
    stringify fuel h' obj = Some t /\
    stringify fuel h' result = Some (truncated maxLength t) /\
    match obj with
    | VRef _ => exists l', result = VRef l' /\ (length h <= l')
    | _ => result = obj /\ h' = h
    end.
Proof.
  intros Hs. destruct obj as [| b | q | s | l].
  1-4: exists_prim.
  destruct (truncateAudioData_object fuel h l t maxLength Hs)
    as (l' & h' & Hr & Hl & Ht & Ha & Hres).
  exists (VRef l'), h'. repeat split; try assumption.
  exists l'. split; [reflexivity|exact Hl].
Qed.

Lemma truncateAudioData_clones_then_truncates_witness :
  stringify 2 Scenario.audio_heap (VRef 2) = Some Scenario.audio_tree /\
  exists result h',
    truncateAudioData 2 (VRef 2) 4 Scenario.audio_heap = Some (result, h') /\
    take 3 h' = Scenario.audio_heap /\
    stringify 2 h' (VRef 2) = Some Scenario.audio_tree /\
    stringify 2 h' result = Some (truncated 4 Scenario.audio_tree).
Proof.
  assert (stringify 2 Scenario.audio_heap (VRef 2) = Some Scenario.audio_tree) as Hs
    by reflexivity.
  split; [exact Hs|].
  destruct (truncateAudioData_clones_then_truncates 2 Scenario.audio_heap (VRef 2)
              Scenario.audio_tree 4 Hs) as (result & h' & Hr & Ht & Ha & Hres & _).
  exists result, h'. split; [exact Hr|]. split; [exact Ht|].
  split; [exact Ha|exact Hres].
Defined.

(** The same call, evaluated: the clone is laid out after the argument;
    the [audio] string is cut to four characters and marked; the same
    string in an array, [mimeType] and the other strings are kept. *)
Example truncateAudioData_audio_message :
  truncateAudioData 2 (VRef 2) 4 Scenario.audio_heap =
  Some (VRef 5,
        Scenario.audio_heap ++
        [ {| isArray := false;
             entries := [(Name "audio", VStr "GkXf...[TRUNCATED]");
                         (Name "mimeType", VStr "audio/wav")] |};
          {| isArray := true; entries := [(Index 0, VStr "GkXfowEAAAA=")] |};
          {| isArray := false;
             entries := [(Name "from", VStr "gemini"); (Name "type", VStr "audio");
                         (Name "data", VRef 3); (Name "log", VRef 4)] |} ]) /\
  truncated 4 Scenario.audio_tree =
  JObj [("from", JStr "gemini"); ("type", JStr "audio");
        ("data", JObj [("audio", JStr "GkXf...[TRUNCATED]");
                       ("mimeType", JStr "audio/wav")]);
        ("log", JArr [JStr "GkXfowEAAAA="])].
Proof. vm_compute. split; reflexivity. Qed.

(** With the default [maxLength] of 100, a short string is kept, and so
    is a long one that does not start with a base64 character. *)
Example truncated_keeps :
  truncated 100 (JObj [("data", JStr "GkXfowEAAAA=")])
    = JObj [("data", JStr "GkXfowEAAAA=")] /\
  truncated 4 (JObj [("data", JStr "-- not base64 --")])
    = JObj [("data", JStr "-- not base64 --")] /\
  truncated 4 (JObj [("text", JStr "GkXfowEAAAA=")])
    = JObj [("text", JStr "GkXfowEAAAA=")].
Proof. vm_compute. repeat split; reflexivity. Qed.

End TruncateFacts.

(** ** [createWavHeader] on any arguments *)

Section WavGeneral.
Import Buf BufFacts.

(** On a buffer long enough, [writeUInt32LE] succeeds or fails by the
    range of the value alone. *)
Lemma writeUInt32LE_cases (buf : Buffer) (q : Q) (offset : nat) :
  (offset + 4 <= length buf)%nat ->
  writeUInt32LE buf q offset =
  if in_range q 4294967295 then inr (store buf offset (le_bytes 4 (Qfloor q)))
  else inl (ERR_OUT_OF_RANGE "value" 0 4294967295 q).
Proof.
  intros H. unfold writeUInt32LE, checkInt, in_range.
  destruct (_ && _); [|reflexivity].
  destruct (Nat.leb_spec (offset + 4) (length buf)); [reflexivity|lia].
Qed.

Lemma writeUInt16LE_cases (buf : Buffer) (q : Q) (offset : nat) :
  (offset + 2 <= length buf)%nat ->
  writeUInt16LE buf q offset =
  if in_range q 65535 then inr (store buf offset (le_bytes 2 (Qfloor q)))
  else inl (ERR_OUT_OF_RANGE "value" 0 65535 q).
Proof.
  intros H. unfold writeUInt16LE, checkInt, in_range.
  destruct (_ && _); [|reflexivity].
  destruct (Nat.leb_spec (offset + 2) (length buf)); [reflexivity|lia].
Qed.

(** The range test on a number of eighths. *)
Lemma in_range_eighths (n : Z) (q : Q) (hi : Z) :
  (q == n # 8)%Q -> in_range q hi = true <-> 0 <= n <= 8 * hi.
Proof.
  intros Hq. unfold in_range. rewrite andb_true_iff, !Qle_bool_iff, Hq.
  unfold Qle, inject_Z. simpl. lia.
Qed.

Lemma in_range_int (n : Z) (hi : Z) :
  in_range (inject_Z n) hi = true <-> 0 <= n <= hi.
Proof.
  unfold in_range. rewrite andb_true_iff, !Qle_bool_iff, <- !Zle_Qle. lia.
Qed.

(** The block alignment and the byte rate, as [createWavHeader] computes
    them, are numbers of eighths. *)
Lemma blockAlign_eighths (ch bits : Z) :
  (inject_Z ch * (inject_Z bits / inject_Z 8) == ch * bits # 8)%Q.
Proof. unfold Qeq, Qmult, Qdiv, Qinv, inject_Z. simpl. lia. Qed.

Lemma byteRate_eighths (sr ch bits : Z) :
  (inject_Z sr * (inject_Z ch * (inject_Z bits / inject_Z 8)) == sr * ch * bits # 8)%Q.
Proof. unfold Qeq, Qmult, Qdiv, Qinv, inject_Z. simpl. lia. Qed.

Lemma Qfloor_eighths (q : Q) (n : Z) : (q == n # 8)%Q -> Qfloor q = n / 8.
Proof. intros Hq. rewrite (Qfloor_comp _ _ Hq). reflexivity. Qed.

#[local] Ltac buf_len :=
  rewrite ?length_store, ?length_write; unfold alloc; simpl; lia.

(** In range, the header is the canonical one. *)
Lemma createWavHeader_in_range (L sr bits ch : Z) :
  wav_in_range L sr bits ch ->
  createWavHeader L sr bits ch = inr (wav_layout L sr bits ch).
Proof.
  intros (HL & Hch & Hsr & Hbits & Hrate & Halign). unfold createWavHeader.
  rewrite (writeUInt32LE_ok _ _ (L + 36));
    [cbn [bind] | rewrite inject_Z_plus; reflexivity | lia | buf_len].
  rewrite (writeUInt32LE_ok _ _ 16); [cbn [bind] | reflexivity | lia | buf_len].
  rewrite (writeUInt16LE_ok _ _ 1); [cbn [bind] | reflexivity | lia | buf_len].
  rewrite (writeUInt16LE_ok _ _ ch); [cbn [bind] | reflexivity | lia | buf_len].
  rewrite (writeUInt32LE_ok _ _ sr); [cbn [bind] | reflexivity | lia | buf_len].
  rewrite writeUInt32LE_cases by buf_len.
  pose proof (byteRate_eighths sr ch bits) as Hr.
  pose proof (blockAlign_eighths ch bits) as Ha.
  assert (0 <= ch * bits) as Hcb by nia.
  assert (0 <= sr * ch * bits) as Hscb by nia.
  rewrite (proj2 (in_range_eighths _ _ 4294967295 Hr)) by lia. cbn [bind].
  rewrite writeUInt16LE_cases by buf_len.
  rewrite (proj2 (in_range_eighths _ _ 65535 Ha)) by lia. cbn [bind].
  rewrite (writeUInt16LE_ok _ _ bits); [cbn [bind] | reflexivity | lia | buf_len].
  rewrite (writeUInt32LE_ok _ _ L); [cbn [bind] | reflexivity | lia | buf_len].
  rewrite (Qfloor_eighths _ _ Hr), (Qfloor_eighths _ _ Ha).
  reflexivity.
Qed.

(** A header is returned only in range, and what is thrown is a range
    error. *)
Lemma createWavHeader_outcome (L sr bits ch : Z) :
  match createWavHeader L sr bits ch with
  | inr header => wav_in_range L sr bits ch
  | inl e => exists lo hi v, e = ERR_OUT_OF_RANGE "value" lo hi v
  end.
Proof.
  unfold createWavHeader.
  pose proof (byteRate_eighths sr ch bits) as Hr.
  pose proof (blockAlign_eighths ch bits) as Ha.
  rewrite writeUInt32LE_cases by buf_len.
  destruct (in_range _ 4294967295) eqn:E1; cbn [bind]; [|eauto].
  rewrite (writeUInt32LE_ok _ _ 16); [cbn [bind] | reflexivity | lia | buf_len].
  rewrite (writeUInt16LE_ok _ _ 1); [cbn [bind] | reflexivity | lia | buf_len].
  rewrite writeUInt16LE_cases by buf_len.
  destruct (in_range (inject_Z ch) 65535) eqn:E2; cbn [bind]; [|eauto].
  rewrite writeUInt32LE_cases by buf_len.
  destruct (in_range (inject_Z sr) 4294967295) eqn:E3; cbn [bind]; [|eauto].
  rewrite writeUInt32LE_cases by buf_len.
  destruct (in_range _ 4294967295) eqn:E4 in |- *; cbn [bind]; [|eauto].
  rewrite writeUInt16LE_cases by buf_len.
  destruct (in_range _ 65535) eqn:E5 in |- *; cbn [bind]; [|eauto].
  rewrite writeUInt16LE_cases by buf_len.
  destruct (in_range (inject_Z bits) 65535) eqn:E6; cbn [bind]; [|eauto].
  rewrite writeUInt32LE_cases by buf_len.
  destruct (in_range (inject_Z L) 4294967295) eqn:E7; cbn [bind]; [|eauto].
  rewrite <- inject_Z_plus in E1.
  apply in_range_int in E1, E2, E3, E6, E7.
  apply (in_range_eighths _ _ _ Hr) in E4. apply (in_range_eighths _ _ _ Ha) in E5.
  unfold wav_in_range. cbn [ret]. lia.
Qed.

(** X1. [createWavHeader] returns a header exactly when every value it
    writes fits its field: the payload length is at most 4294967259 (so
    that the RIFF size fits 32 bits), the channel count and the sample
    width fit 16 bits, the sample rate fits 32 bits, the byte rate
    [sampleRate * numChannels * bitsPerSample / 8] fits 32 bits and the
    block alignment [numChannels * bitsPerSample / 8] fits 16 bits, none
    being negative. Otherwise it throws, and what it throws is always the
    range error of [writeUInt32LE] or [writeUInt16LE], never a bounds
    error. *)
Theorem createWavHeader_succeeds_iff (L sr bits ch : Z) :
  ((exists header, createWavHeader L sr bits ch = inr header) <->
   wav_in_range L sr bits ch) /\
  (forall e, createWavHeader L sr bits ch = inl e ->
     exists lo hi v, e = ERR_OUT_OF_RANGE "value" lo hi v).
Proof.
  pose proof (createWavHeader_outcome L sr bits ch) as H.
  split; [split|].
  - intros [header E]. rewrite E in H. exact H.
  - intros Hr. eexists. apply createWavHeader_in_range, Hr.
  - intros e E. rewrite E in H. exact H.
Qed.

Lemma le_bytes2_value (n : Z) :
  0 <= n < 2 ^ 16 -> n mod 256 + Z.shiftr n 8 mod 256 * 2 ^ 8 = n.
Proof.
  intros Hn. rewrite !Z.shiftr_div_pow2 by lia.
  change (2 ^ 8) with 256. change (2 ^ 16) with 65536 in Hn.
  Z.div_mod_to_equations. lia.
Qed.

(** X2. Reading the header back. For arguments in range, the header has
    44 bytes, each in [0, 256); it starts with [RIFF], holds [WAVE] and
    [fmt ] at offset 8 and [data] at offset 36; and its fields read back
    as the RIFF size [L + 36], the format chunk size 16, the format code
    1, the channel count, the sample rate, the byte rate and the block
    alignment (rounded down when the sample width is not a multiple of 8),
    the sample width, and the payload length. *)
Theorem createWavHeader_round_trip (L sr bits ch : Z) :
  wav_in_range L sr bits ch ->
  exists header,
    createWavHeader L sr bits ch = inr header /\
    length header = 44%nat /\
    Forall (fun b => 0 <= b < 256) header /\
    take 4 header = bytes_of_string "RIFF" /\
    readUInt32LE header 4 = L + 36 /\
    take 8 (drop 8 header) = bytes_of_string "WAVEfmt " /\
    readUInt32LE header 16 = 16 /\
    readUInt16LE header 20 = 1 /\
    readUInt16LE header 22 = ch /\
    readUInt32LE header 24 = sr /\
    readUInt32LE header 28 = sr * ch * bits / 8 /\
    readUInt16LE header 32 = ch * bits / 8 /\
    readUInt16LE header 34 = bits /\
    take 4 (drop 36 header) = bytes_of_string "data" /\
    readUInt32LE header 40 = L.
Proof.
  intros Hr. exists (wav_layout L sr bits ch).
  split; [apply createWavHeader_in_range, Hr|].
  destruct Hr as (HL & Hch & Hsr & Hbits & Hrate & Halign).
  assert (0 <= ch * bits) as Hcb by nia.
  assert (0 <= sr * ch * bits) as Hscb by nia.
  assert (0 <= sr * ch * bits / 8 < 2 ^ 32) as Hbr.
  { split; [apply Z.div_pos; lia|]. apply Z.div_lt_upper_bound; lia. }
  assert (0 <= ch * bits / 8 < 2 ^ 16) as Hba.
  { split; [apply Z.div_pos; lia|]. apply Z.div_lt_upper_bound; lia. }
  pose proof (le_bytes4_value (L + 36) ltac:(lia)) as H1.
  pose proof (le_bytes4_value L ltac:(lia)) as H2.
  pose proof (le_bytes4_value sr ltac:(lia)) as H3.
  pose proof (le_bytes4_value _ Hbr) as H4.
  pose proof (le_bytes2_value ch ltac:(lia)) as H5.
  pose proof (le_bytes2_value _ Hba) as H6.
  pose proof (le_bytes2_value bits ltac:(lia)) as H7.
  split; [reflexivity|]. split.
  { unfold wav_layout. repeat apply Forall_app_2;
      try (apply Forall_forall; intros b Hb; apply list_elem_of_In in Hb;
           eapply le_bytes_range; exact Hb);
      repeat constructor; lia. }
  cbv [readUInt32LE readUInt16LE byte_at wav_layout le_bytes app
       lookup list_lookup default Nat.add length take drop bytes_of_string].
  repeat split; try reflexivity; assumption.
Qed.

End WavGeneral.

(** ** Relaying the messages of the AI ([handleGeminiMessage]) *)

Section Relay.
Import Backend Connection.

Variable base64_decode : string -> Buf.Buffer.

#[local] Abbreviation decoded := (Connection.decoded base64_decode).

(** One part: its text is sent, its audio accumulated, and nothing else
    changes. *)
Lemma handleGeminiPart_spec (ws : ws_id) (cs : clientState) (w : world)
  (part : Live.Part) :
  let r := handleGeminiPart base64_decode ws (cs, w) part in
  trace r.2 = trace w ++ sends ws (text_of part) /\
  running r.2 = running w /\ open_streams r.2 = open_streams w /\
  next_pid r.2 = next_pid w /\ next_stream r.2 = next_stream w /\
  audioBuffer r.1 = audioBuffer cs ++ decoded (audio_of part) /\
  handles r.1 = handles cs /\
  isSendingAudioToGemini r.1 = isSendingAudioToGemini cs /\
  firstGeminiResponseReceived r.1 = firstGeminiResponseReceived cs.
Proof.
  cbv zeta. unfold handleGeminiPart, text_of, audio_of, decoded, handles,
    processGeminiTextPart, processGeminiAudioPart.
  destruct (Live.text part) as [t|]; [destruct (negb (t =? "")%string)|];
    (destruct (Live.inlineData part) as [d|];
     [destruct (nonempty (Live.mimeType d) && startsWith (Live.mimeType d) "audio/");
      [destruct (Live.data d) as [x|]; [destruct (negb (x =? "")%string)|]|]|]);
    simpl; rewrite ?app_nil_r; repeat split; reflexivity.
Qed.

Lemma sends_app (ws : ws_id) (a b : list string) :
  sends ws (a ++ b) = sends ws a ++ sends ws b.
Proof. apply map_app. Qed.

Lemma sends_map (ws : ws_id) (ts : list string) :
  sends ws ts = map (WsSend ws) (map MsgText ts).
Proof. unfold sends. rewrite map_map. reflexivity. Qed.

Lemma decoded_app (xs ys : list string) : decoded (xs ++ ys) = decoded xs ++ decoded ys.
Proof. apply flat_map_app. Qed.

(** The loop over the parts. *)
Lemma handleGeminiParts_spec (ws : ws_id) (ps : list Live.Part) :
  forall (cs : clientState) (w : world),
  let r := fold_left (handleGeminiPart base64_decode ws) ps (cs, w) in
  trace r.2 = trace w ++ sends ws (flat_map text_of ps) /\
  running r.2 = running w /\ open_streams r.2 = open_streams w /\
  next_pid r.2 = next_pid w /\ next_stream r.2 = next_stream w /\
  audioBuffer r.1 = audioBuffer cs ++ decoded (flat_map audio_of ps) /\
  handles r.1 = handles cs /\
  isSendingAudioToGemini r.1 = isSendingAudioToGemini cs /\
  firstGeminiResponseReceived r.1 = firstGeminiResponseReceived cs.
Proof.
  induction ps as [|p ps IH]; intros cs w.
  - simpl. rewrite !app_nil_r. repeat split; reflexivity.
  - cbn [fold_left flat_map].
    pose proof (handleGeminiPart_spec ws cs w p) as Hp. cbv zeta in Hp.
    destruct (handleGeminiPart base64_decode ws (cs, w) p) as [cs1 w1].
    cbn [fst snd] in Hp.
    destruct Hp as (H1 & H2 & H3 & H4 & H5 & H6 & H7 & H8 & H9).
    specialize (IH cs1 w1). cbv zeta in IH.
    destruct IH as (I1 & I2 & I3 & I4 & I5 & I6 & I7 & I8 & I9).
    rewrite I1, I2, I3, I4, I5, I6, I7, I8, I9, H1, H2, H3, H4, H5, H6, H7, H8, H9.
    rewrite sends_app, decoded_app, <- !app_assoc. repeat split; reflexivity.
Qed.

(** The loop over the parts, as [handleGeminiMessage] runs it. *)
Lemma handleGeminiMessage_unfold (ws : ws_id) (m : Live.LiveServerMessage)
  (st : state) (cs : clientState) :
  clientStateMap st !! ws = Some cs ->
  let r := fold_left (handleGeminiPart base64_decode ws) (parts_of m)
             (set_firstGeminiResponseReceived true cs, env st) in
  handleGeminiMessage base64_decode ws m st =
  if ends_turn m
  then with_env (handleGeminiTurnComplete ws r.1 r.2).2
         (with_client ws (handleGeminiTurnComplete ws r.1 r.2).1 st)
  else with_env r.2 (with_client ws r.1 st).
Proof.
  intros Hc. cbv zeta. unfold handleGeminiMessage, parts_of, ends_turn. rewrite Hc.
  assert ((if firstGeminiResponseReceived cs then cs
           else set_firstGeminiResponseReceived true cs)
          = set_firstGeminiResponseReceived true cs) as ->.
  { destruct cs as [a b c d e f []]; reflexivity. }
  destruct (Live.serverContent m) as [sc|]; [|reflexivity].
  destruct (Live.modelTurn sc) as [mt|];
    [destruct (Live.parts mt) as [ps|]|]; simpl;
    try (destruct (fold_left _ _ _) as [cs1 w1]);
    destruct (Live.turnComplete sc); simpl;
    try (destruct (handleGeminiTurnComplete _ _ _)); reflexivity.
Qed.

(** A message that does not end the turn. *)
Lemma handleGeminiMessage_open (ws : ws_id) (m : Live.LiveServerMessage)
  (st : state) (cs : clientState) :
  clientStateMap st !! ws = Some cs -> ends_turn m = false ->
  let st' := handleGeminiMessage base64_decode ws m st in
  exists cs',
    clientStateMap st' = <[ws := cs']> (clientStateMap st) /\
    geminiSessionMap st' = geminiSessionMap st /\
    trace (env st') = trace (env st) ++ sends ws (flat_map text_of (parts_of m)) /\
    running (env st') = running (env st) /\
    open_streams (env st') = open_streams (env st) /\
    audioBuffer cs' = audioBuffer cs ++ decoded (flat_map audio_of (parts_of m)) /\
    handles cs' = handles cs /\
    isSendingAudioToGemini cs' = isSendingAudioToGemini cs /\
    firstGeminiResponseReceived cs' = true.
Proof.
  intros Hc He. cbv zeta. rewrite (handleGeminiMessage_unfold ws m st cs Hc). rewrite He.
  pose proof (handleGeminiParts_spec ws (parts_of m)
                (set_firstGeminiResponseReceived true cs) (env st)) as H.
  cbv zeta in H. destruct (fold_left _ _ _) as [cs1 w1]. cbn [fst snd] in *.
  destruct H as (H1 & H2 & H3 & H4 & H5 & H6 & H7 & H8 & H9).
  exists cs1. repeat split; assumption.
Qed.

(** Messages that do not end the turn, in a row. *)
Lemma relay_open (ws : ws_id) (ms : list Live.LiveServerMessage) :
  Forall (fun m => ends_turn m = false) ms ->
  forall (st : state) (cs : clientState),
  clientStateMap st !! ws = Some cs ->
  let st' := relay base64_decode ws ms st in
  exists cs',
    clientStateMap st' !! ws = Some cs' /\
    trace (env st') =
      trace (env st) ++ sends ws (flat_map text_of (flat_map parts_of ms)) /\
    audioBuffer cs' =
      audioBuffer cs ++ decoded (flat_map audio_of (flat_map parts_of ms)) /\
    handles cs' = handles cs /\
    isSendingAudioToGemini cs' = isSendingAudioToGemini cs.
Proof.
  induction 1 as [|m ms Hm Hms IH]; intros st cs Hc.
  - exists cs. simpl. rewrite !app_nil_r. repeat split; try reflexivity. exact Hc.
  - cbn [relay fold_left flat_map].
    destruct (handleGeminiMessage_open ws m st cs Hc Hm)
      as (cs1 & E1 & _ & E3 & _ & _ & E6 & E7 & E8 & _).
    assert (clientStateMap (handleGeminiMessage base64_decode ws m st) !! ws = Some cs1)
      as Hc1 by (rewrite E1; apply lookup_insert_eq).
    destruct (IH _ cs1 Hc1) as (cs2 & F1 & F2 & F3 & F4 & F5).
    exists cs2. unfold relay in *. rewrite F2, F3, F4, F5, E3, E6, E7, E8.
    rewrite !flat_map_app, sends_app, decoded_app, <- !app_assoc.
    repeat split; try reflexivity. exact F1.
Qed.

(** X3. One turn of the assistant, from the first message to the one
    that carries [turnComplete]. The text of every part is sent to the
    client at once, in order. The audio of every part (base64 data that
    is not empty, under a mime type that starts with [audio/]) is
    appended to the accumulator and nothing is sent for it until the turn
    ends; then, if the accumulator is not empty (and has at most
    402653065 bytes, the most that goes into one message), one audio
    message carries the WAV header followed by everything accumulated,
    in order, and the [turnComplete] message follows. Afterwards the
    accumulator is empty, [firstGeminiResponseReceived] is false, and
    the pipeline handles are those the state object had. *)
Theorem turn_is_relayed (ws : ws_id) (ms : list Live.LiveServerMessage)
  (last : Live.LiveServerMessage) (st : state) (cs : clientState) :
  clientStateMap st !! ws = Some cs ->
  Forall (fun m => ends_turn m = false) ms ->
  ends_turn last = true ->
  let parts := flat_map parts_of (ms ++ [last]) in
  let payload := audioBuffer cs ++ decoded (flat_map audio_of parts) in
  Z.of_nat (length payload) <= 402653065 ->
  let st' := relay base64_decode ws (ms ++ [last]) st in
  trace (env st') =
    trace (env st)
    ++ sends ws (flat_map text_of parts)
    ++ (if 0 <? Z.of_nat (length payload)
        then [WsSend ws
                (MsgAudio
                   (Buf.toString_base64 (wav24k (Z.of_nat (length payload)) ++ payload))
                   "audio/wav")]
        else [])
    ++ [WsSend ws MsgTurnComplete] /\
  exists cs',
    clientStateMap st' !! ws = Some cs' /\
    audioBuffer cs' = [] /\
    firstGeminiResponseReceived cs' = false /\
    handles cs' = handles cs.
Proof.
  intros Hc Hms Hlast parts payload Hlen st'.
  subst st'. unfold relay. rewrite fold_left_app. cbn [fold_left].
  destruct (relay_open ws ms Hms st cs Hc) as (cs1 & F1 & F2 & F3 & F4 & _).
  unfold relay in F1, F2. set (st1 := fold_left _ ms st) in *.
  rewrite (handleGeminiMessage_unfold ws last st1 cs1 F1). rewrite Hlast.
  pose proof (handleGeminiParts_spec ws (parts_of last)
                (set_firstGeminiResponseReceived true cs1) (env st1)) as H.
  cbv zeta in H. destruct (fold_left _ (parts_of last) _) as [cs2 w2].
  cbn [fst snd] in *.
  destruct H as (H1 & _ & _ & _ & _ & H6 & H7 & _ & _).
  assert (audioBuffer cs2 = payload) as Hpay.
  { rewrite H6. cbn [audioBuffer set_firstGeminiResponseReceived]. rewrite F3.
    subst payload parts. rewrite !flat_map_app, decoded_app. cbn [flat_map].
    rewrite !app_nil_r, <- app_assoc. reflexivity. }
  assert (trace w2 = trace (env st) ++ sends ws (flat_map text_of parts)) as Htr.
  { rewrite H1, F2. subst parts. rewrite !flat_map_app, sends_app. cbn [flat_map].
    rewrite !app_nil_r, <- app_assoc. reflexivity. }
  assert (handles cs2 = handles cs) as Hh.
  { rewrite H7, <- F4. reflexivity. }
  destruct (Z.ltb_spec 0 (Z.of_nat (length payload))) as [Hpos|Hzero].
  - rewrite handleGeminiTurnComplete_audio by (rewrite Hpay; lia).
    cbn [with_env with_client env clientStateMap fst snd log trace].
    rewrite Htr, Hpay, <- !app_assoc. split; [reflexivity|].
    eexists. split; [apply lookup_insert_eq|]. repeat split. exact Hh.
  - assert (audioBuffer cs2 = []) as Hnil.
    { rewrite Hpay. destruct payload; [reflexivity|simpl in Hzero; lia]. }
    rewrite handleGeminiTurnComplete_silent by exact Hnil.
    cbn [with_env with_client env clientStateMap fst snd log trace].
    rewrite Htr, <- !app_assoc. split; [reflexivity|].
    eexists. split; [apply lookup_insert_eq|]. repeat split; [exact Hnil|exact Hh].
Qed.

(** The end of a turn sends to the socket only and keeps the handles. *)
Lemma handleGeminiTurnComplete_frame (ws : ws_id) (cs : clientState) (w : world) :
  let r := handleGeminiTurnComplete ws cs w in
  (exists sent, trace r.2 = trace w ++ map (WsSend ws) sent) /\
  running r.2 = running w /\ open_streams r.2 = open_streams w /\
  next_pid r.2 = next_pid w /\ next_stream r.2 = next_stream w /\
  handles r.1 = handles cs /\
  isSendingAudioToGemini r.1 = isSendingAudioToGemini cs.
Proof.
  cbv zeta. unfold handleGeminiTurnComplete. cbn [audioBuffer set_firstGeminiResponseReceived].
  destruct (0 <? Z.of_nat (length (audioBuffer cs)));
    [destruct (bind _ _)|]; cbn [fst snd log trace running open_streams
                                   next_pid next_stream].
  - split; [|repeat split]. eexists [_; _]. rewrite <- app_assoc. reflexivity.
  - split; [|repeat split]. eexists [_; _]. rewrite <- app_assoc. reflexivity.
  - split; [|repeat split]. eexists [_]. reflexivity.
Qed.

(** Everything [handleGeminiMessage] can change. *)
Lemma handleGeminiMessage_effects (ws : ws_id) (m : Live.LiveServerMessage)
  (st : state) :
  let st' := handleGeminiMessage base64_decode ws m st in
  (exists sent, trace (env st') = trace (env st) ++ map (WsSend ws) sent) /\
  geminiSessionMap st' = geminiSessionMap st /\
  running (env st') = running (env st) /\
  open_streams (env st') = open_streams (env st) /\
  next_pid (env st') = next_pid (env st) /\
  next_stream (env st') = next_stream (env st) /\
  (forall ws', ws' <> ws -> clientStateMap st' !! ws' = clientStateMap st !! ws') /\
  (clientStateMap st !! ws = None -> st' = st) /\
  (forall cs, clientStateMap st !! ws = Some cs ->
     exists cs', clientStateMap st' !! ws = Some cs' /\
                 handles cs' = handles cs /\
                 isSendingAudioToGemini cs' = isSendingAudioToGemini cs).
Proof.
  cbv zeta. destruct (clientStateMap st !! ws) as [cs|] eqn:Hc.
  2:{ unfold handleGeminiMessage. rewrite Hc.
      split; [exists []; rewrite app_nil_r; reflexivity|].
      repeat split; try reflexivity. intros cs [=]. }
  rewrite (handleGeminiMessage_unfold ws m st cs Hc).
  pose proof (handleGeminiParts_spec ws (parts_of m)
                (set_firstGeminiResponseReceived true cs) (env st)) as H.
  cbv zeta in H. destruct (fold_left _ (parts_of m) _) as [cs1 w1].
  cbn [fst snd] in *.
  destruct H as (H1 & H2 & H3 & H4 & H5 & _ & H7 & H8 & _).
  pose proof (handleGeminiTurnComplete_frame ws cs1 w1) as T. cbv zeta in T.
  destruct T as ([sent T1] & T2 & T3 & T4 & T5 & T6 & T7).
  destruct (ends_turn m);
    cbn [with_env with_client env clientStateMap geminiSessionMap].
  - split.
    { exists (map MsgText (flat_map text_of (parts_of m)) ++ sent).
      rewrite T1, H1, map_app, <- sends_map, <- app_assoc. reflexivity. }
    rewrite T2, T3, T4, T5, H2, H3, H4, H5. repeat split.
    + intros ws' Hne. apply lookup_insert_ne. congruence.
    + intros [=].
    + intros cs0 [= <-]. eexists. split; [apply lookup_insert_eq|].
      rewrite T6, T7, H7, H8. split; reflexivity.
  - split.
    { exists (map MsgText (flat_map text_of (parts_of m))).
      rewrite H1, sends_map. reflexivity. }
    rewrite H2, H3, H4, H5. repeat split.
    + intros ws' Hne. apply lookup_insert_ne. congruence.
    + intros [=].
    + intros cs0 [= <-]. eexists. split; [apply lookup_insert_eq|].
      rewrite H7, H8. split; reflexivity.
Qed.

(** X4. What [handleGeminiMessage] leaves alone, whatever the message:
    its only calls are [ws.send] on the socket it is given; it changes
    neither the session map, nor the process table, nor the streams, nor
    the state object of any other connection, nor the pipeline handles
    and [isSendingAudioToGemini] of its own; and for a socket without a
    state object it does nothing at all. *)
Theorem handleGeminiMessage_frame (ws : ws_id) (m : Live.LiveServerMessage)
  (st : state) :
  let st' := handleGeminiMessage base64_decode ws m st in
  (exists sent, trace (env st') = trace (env st) ++ map (WsSend ws) sent) /\
  geminiSessionMap st' = geminiSessionMap st /\
  running (env st') = running (env st) /\
  open_streams (env st') = open_streams (env st) /\
  next_pid (env st') = next_pid (env st) /\
  next_stream (env st') = next_stream (env st) /\
  (forall ws', ws' <> ws -> clientStateMap st' !! ws' = clientStateMap st !! ws') /\
  (clientStateMap st !! ws = None -> st' = st) /\
  (forall cs, clientStateMap st !! ws = Some cs ->
     exists cs', clientStateMap st' !! ws = Some cs' /\
                 handles cs' = handles cs /\
                 isSendingAudioToGemini cs' = isSendingAudioToGemini cs).
Proof. exact (handleGeminiMessage_effects ws m st). Qed.

End Relay.

(** ** The events of a connection ([utils.js]) *)

Section Streams.
Import Backend Connection.

Variable JSON_parse : string -> result json.
Variable base64_decode : string -> Buf.Buffer.
Variable Buffer_from_other : json -> result Buf.Buffer.
Variable toParts : option json -> result json.
Variable pipe_pid : Z -> option Z.

(** After [stopAudioProcessing] the open streams are those that were
    open and that the state object did not hold. *)
Lemma open_streams_stopAudioProcessing (cs : clientState) (w : world) (s : stream_id) :
  s ∈ open_streams (stopAudioProcessing cs w).2 <->
  s ∈ open_streams w /\ ~ holds cs s.
Proof.
  unfold stopAudioProcessing, holds.
  destruct (ffmpegProcess cs) as [h|], (ffmpegInputStream cs) as [i|],
    (pcmOutputStream cs) as [o|]; simpl;
    rewrite ?open_streams_process_kill; set_unfold; split;
    intros H; intuition congruence.
Qed.

Lemma streams_held_log (c : call) (st : state) :
  streams_held st -> streams_held (with_env (log c (env st)) st).
Proof. intros H s Hs. exact (H s Hs). Qed.

(** Each handler keeps [streams_held]. *)
Lemma streams_held_stop (ws : ws_id) (cs : clientState) (st : state) :
  streams_held st -> clientStateMap st !! ws = Some cs ->
  streams_held (with_env (stopAudioProcessing cs (env st)).2
                  (with_client ws (stopAudioProcessing cs (env st)).1 st)).
Proof.
  intros H Hc s Hs. cbn [with_env with_client env clientStateMap] in *.
  apply open_streams_stopAudioProcessing in Hs as [Hs Hn].
  destruct (H s Hs) as (ws0 & cs0 & Hc0 & Hh).
  exists ws0, cs0. split; [|exact Hh].
  rewrite lookup_insert_ne; [exact Hc0|].
  intros <-. rewrite Hc in Hc0. injection Hc0 as <-. exact (Hn Hh).
Qed.

Lemma streams_held_text (ws : ws_id) (m : json) (st : state) :
  streams_held st -> streams_held (handleTextMessage toParts ws m st).2.
Proof.
  intros H. unfold handleTextMessage.
  destruct (clientStateMap st !! ws) as [cs|] eqn:Hc; [|exact H].
  pose proof (streams_held_stop ws cs st H Hc) as H'.
  destruct (stopAudioProcessing cs (env st)) as [cs1 w1]. cbn [fst snd] in H'.
  destruct (bind (prop m "message") (createUserContent toParts)); [exact H'|].
  destruct (geminiSessionMap st !! ws); [|exact H'].
  exact (streams_held_log _ _ H').
Qed.

Lemma streams_held_audio (ws : ws_id) (m : json) (st : state) :
  streams_held st ->
  streams_held (handleAudioMessage base64_decode Buffer_from_other pipe_pid ws m st).2.
Proof.
  intros H. unfold handleAudioMessage.
  destruct (bind (prop m "audioData") (Buffer_from base64_decode Buffer_from_other));
    [exact H|].
  destruct (clientStateMap st !! ws) as [cs|] eqn:Hc; [|exact H].
  pose proof (open_streams_stopAudioProcessing cs (env st)) as Hopen.
  destruct (stopAudioProcessing cs (env st)) as [cs1 w1]. cbn [fst snd] in Hopen.
  unfold streams_held, configureFFmpegProcess, ffmpeg_run, new_PassThrough. cbn.
  intros s Hs.
  apply elem_of_union in Hs as [Hs|Hs].
  { apply elem_of_singleton in Hs as ->. eexists ws, _.
    split; [apply lookup_insert_eq|]. right. reflexivity. }
  apply elem_of_union in Hs as [Hs|Hs].
  { apply elem_of_singleton in Hs as ->. eexists ws, _.
    split; [apply lookup_insert_eq|]. left. reflexivity. }
  apply Hopen in Hs as [Hs Hn].
  destruct (H s Hs) as (ws0 & cs0 & Hc0 & Hh).
  exists ws0, cs0. split; [|exact Hh].
  rewrite lookup_insert_ne; [exact Hc0|].
  intros <-. rewrite Hc in Hc0. injection Hc0 as <-. exact (Hn Hh).
Qed.

Lemma streams_held_message (ws : ws_id) (message : string) (st : state) :
  streams_held st ->
  streams_held (handleWebSocketMessage JSON_parse base64_decode Buffer_from_other
                  toParts pipe_pid ws message st).
Proof.
  intros H. unfold handleWebSocketMessage.
  destruct (geminiSessionMap st !! ws); [|exact (streams_held_log _ _ H)].
  destruct (clientStateMap st !! ws); [|exact (streams_held_log _ _ H)].
  destruct (JSON_parse message) as [e|v]; [exact (streams_held_log _ _ H)|].
  destruct (prop v "type") as [e|t]; [exact (streams_held_log _ _ H)|].
  destruct (is_string t "text").
  { pose proof (streams_held_text ws v st H) as H'.
    destruct (handleTextMessage toParts ws v st) as [[e|[]] st1];
      [exact (streams_held_log _ _ H')|exact H']. }
  destruct (is_string t "audio" && truthy (get v "audioData")); [|exact H].
  pose proof (streams_held_audio ws v st H) as H'.
  destruct (handleAudioMessage _ _ _ ws v st) as [[e|[]] st1];
    [exact (streams_held_log _ _ H')|exact H'].
Qed.

Lemma streams_held_cleanup (ws : ws_id) (st : state) :
  streams_held st -> streams_held (cleanupClient ws st).
Proof.
  intros H s Hs. unfold cleanupClient in *.
  destruct (clientStateMap st !! ws) as [cs|] eqn:Hc.
  - assert (s ∈ open_streams (stopAudioProcessing cs (env st)).2) as Hs'.
    { destruct (geminiSessionMap st !! ws); exact Hs. }
    apply open_streams_stopAudioProcessing in Hs' as [Hs' Hn].
    destruct (H s Hs') as (ws0 & cs0 & Hc0 & Hh).
    exists ws0, cs0. split; [|exact Hh].
    assert (ws <> ws0) as Hne.
    { intros <-. rewrite Hc in Hc0. injection Hc0 as <-. exact (Hn Hh). }
    destruct (geminiSessionMap st !! ws); cbn; rewrite lookup_delete_ne by exact Hne;
      exact Hc0.
  - assert (s ∈ open_streams (env st)) as Hs'.
    { destruct (geminiSessionMap st !! ws); exact Hs. }
    destruct (H s Hs') as (ws0 & cs0 & Hc0 & Hh).
    exists ws0, cs0. split; [|exact Hh].
    assert (ws <> ws0) as Hne by (intros <-; congruence).
    destruct (geminiSessionMap st !! ws); cbn; rewrite lookup_delete_ne by exact Hne;
      exact Hc0.
Qed.

Lemma streams_held_gemini (ws : ws_id) (m : Live.LiveServerMessage) (st : state) :
  streams_held st -> streams_held (handleGeminiMessage base64_decode ws m st).
Proof.
  intros H s Hs.
  destruct (handleGeminiMessage_effects base64_decode ws m st)
    as (_ & _ & _ & Ho & _ & _ & Hothers & _ & Hown).
  rewrite Ho in Hs. destruct (H s Hs) as (ws0 & cs0 & Hc0 & Hh).
  destruct (decide (ws0 = ws)) as [->|Hne].
  - destruct (Hown cs0 Hc0) as (cs' & Hc' & Hhandles & _).
    exists ws, cs'. split; [exact Hc'|].
    unfold handles in Hhandles. injection Hhandles as _ Hi Ho'.
    unfold holds in *. rewrite Hi, Ho'. exact Hh.
  - exists ws0, cs0. split; [|exact Hh]. rewrite (Hothers ws0 Hne). exact Hc0.
Qed.

Lemma streams_held_step (e : event) (st : state) :
  streams_held st ->
  streams_held (step JSON_parse base64_decode Buffer_from_other toParts pipe_pid e st).
Proof.
  intros H. destruct e as [ws message|ws m|ws error|ws|ws]; cbn [step].
  - apply streams_held_message, H.
  - apply streams_held_gemini, H.
  - exact (streams_held_log _ _ H).
  - apply streams_held_cleanup, H.
  - apply streams_held_cleanup, H.
Qed.

Lemma streams_held_run (events : list event) : forall st : state,
  streams_held st ->
  streams_held (run JSON_parse base64_decode Buffer_from_other toParts pipe_pid events st).
Proof.
  induction events as [|e events IH]; intros st H; [exact H|].
  apply IH, streams_held_step, H.
Qed.

(** X5. The handlers never lose a stream. If every open stream is held
    by the state object of some connection, this is still so after any
    sequence of client messages, AI messages, AI errors, socket closes
    and socket errors, on any sockets; so once no connection is left, no
    stream is open. (For the ffmpeg subprocesses the same does not hold,
    see C3.) *)
Theorem open_streams_are_held (events : list event) (st : state) :
  streams_held st ->
  let st' := run JSON_parse base64_decode Buffer_from_other toParts pipe_pid events st in
  streams_held st' /\
  (clientStateMap st' = ∅ -> open_streams (env st') = ∅).
Proof.
  intros H st'. pose proof (streams_held_run events st H) as H'. fold st' in H'.
  split; [exact H'|]. intros Hempty.
  apply elem_of_equiv_empty_L. intros s Hs.
  destruct (H' s Hs) as (ws & cs & Hc & _). rewrite Hempty in Hc.
  rewrite lookup_empty in Hc. discriminate Hc.
Qed.

End Streams.

Section Frame.
Import Backend Connection.

Variable JSON_parse : string -> result json.
Variable base64_decode : string -> Buf.Buffer.
Variable Buffer_from_other : json -> result Buf.Buffer.
Variable toParts : option json -> result json.
Variable pipe_pid : Z -> option Z.

(** The calls of a teardown are calls on the connection's own process
    and streams. *)
Lemma teardown_calls_own (st : state) (ws : ws_id) (cs : clientState) :
  clientStateMap st !! ws = Some cs -> Forall (own_call st ws) (teardown_calls cs).
Proof.
  intros Hc. unfold teardown_calls.
  destruct (ffmpegProcess cs) as [h|] eqn:E1, (ffmpegInputStream cs) as [i|] eqn:E2,
    (pcmOutputStream cs) as [o|] eqn:E3; cbn; repeat constructor;
    try (exists cs; split; [exact Hc|]; unfold holds; tauto);
    exists cs, h; auto.
Qed.

Lemma maps_kept_refl (ws : ws_id) (st : state) : maps_kept ws st st.
Proof. repeat split; auto. Qed.

Lemma maps_kept_env (ws : ws_id) (st st' : state) (w : world) :
  maps_kept ws st st' -> maps_kept ws st (with_env w st').
Proof. intros H. exact H. Qed.

Lemma maps_kept_client (ws : ws_id) (st : state) (cs cs' : clientState) (w : world) :
  clientStateMap st !! ws = Some cs ->
  maps_kept ws st (with_env w (with_client ws cs' st)).
Proof.
  intros Hc. split; [reflexivity|]. cbn. split.
  - intros ws' Hne. apply lookup_insert_ne. congruence.
  - rewrite lookup_insert_eq, Hc. split; eauto.
Qed.

#[local] Ltac kept := unfold maps_kept; cbn; repeat split; auto.

(** The maps and the calls of the two message handlers and of the
    dispatcher. *)
Lemma handleTextMessage_calls (ws : ws_id) (m : json) (st : state) :
  let r := handleTextMessage toParts ws m st in
  maps_kept ws st r.2 /\
  exists calls, trace (env r.2) = trace (env st) ++ calls /\
                Forall (own_call st ws) calls.
Proof.
  cbv zeta. unfold handleTextMessage.
  destruct (clientStateMap st !! ws) as [cs|] eqn:Hc.
  2:{ split; [apply maps_kept_refl|]. exists []. rewrite app_nil_r. auto. }
  pose proof (stopAudioProcessing_trace cs (env st)) as Ht.
  pose proof (teardown_calls_own st ws cs Hc) as Hown.
  destruct (stopAudioProcessing cs (env st)) as [cs1 w1]. cbn [fst snd] in *.
  destruct (bind (prop m "message") (createUserContent toParts)) as [e|c].
  { split; [eapply maps_kept_client, Hc|]. eauto. }
  destruct (geminiSessionMap st !! ws) as [session|] eqn:Hs.
  2:{ split; [eapply maps_kept_client, Hc|]. eauto. }
  split; [eapply maps_kept_client, Hc|].
  exists (teardown_calls cs ++ [SendClientContent session [c] true]).
  cbn. rewrite Ht, <- app_assoc. split; [reflexivity|].
  apply Forall_app_2; [exact Hown|]. repeat constructor. exact Hs.
Qed.

Lemma handleAudioMessage_calls (ws : ws_id) (m : json) (st : state) :
  let r := handleAudioMessage base64_decode Buffer_from_other pipe_pid ws m st in
  maps_kept ws st r.2 /\
  exists calls, trace (env r.2) = trace (env st) ++ calls /\
                Forall (own_call st ws) calls.
Proof.
  cbv zeta. unfold handleAudioMessage.
  destruct (bind (prop m "audioData") (Buffer_from base64_decode Buffer_from_other)).
  { split; [apply maps_kept_refl|]. exists []. rewrite app_nil_r. auto. }
  destruct (clientStateMap st !! ws) as [cs|] eqn:Hc.
  2:{ split; [apply maps_kept_refl|]. exists []. rewrite app_nil_r. auto. }
  pose proof (stopAudioProcessing_trace cs (env st)) as Ht.
  pose proof (teardown_calls_own st ws cs Hc) as Hown.
  destruct (stopAudioProcessing cs (env st)) as [cs1 w1]. cbn [fst snd] in *.
  unfold configureFFmpegProcess, ffmpeg_run, new_PassThrough. cbn.
  split; [eapply (maps_kept_client ws st cs _ _ Hc)|].
  eexists (teardown_calls cs ++ [_; _]).
  rewrite Ht, <- !app_assoc. split; [reflexivity|].
  apply Forall_app_2; [exact Hown|]. repeat constructor.
Qed.

Lemma handleWebSocketMessage_calls (ws : ws_id) (message : string) (st : state) :
  let st' := handleWebSocketMessage JSON_parse base64_decode Buffer_from_other
               toParts pipe_pid ws message st in
  maps_kept ws st st' /\
  exists calls, trace (env st') = trace (env st) ++ calls /\
                Forall (own_call st ws) calls.
Proof.
  cbv zeta. unfold handleWebSocketMessage.
  destruct (geminiSessionMap st !! ws) as [session|] eqn:Hs.
  2:{ split; [kept|]. eexists [_]. split; [reflexivity|].
      constructor; [|constructor]. cbn. auto. }
  destruct (clientStateMap st !! ws) as [cs|] eqn:Hc.
  2:{ split; [kept|]. eexists [_]. split; [reflexivity|].
      constructor; [|constructor]. cbn. auto. }
  destruct (JSON_parse message) as [e|v].
  { split; [kept|]. eexists [_]. split; [reflexivity|].
    repeat constructor. }
  destruct (prop v "type") as [e|t].
  { split; [kept|]. eexists [_]. split; [reflexivity|].
    repeat constructor. }
  destruct (is_string t "text").
  { destruct (handleTextMessage_calls ws v st) as (Hm & calls & Ht & Hown).
    destruct (handleTextMessage toParts ws v st) as [[e|[]] st1]; cbn [fst snd] in *.
    - split; [exact Hm|]. exists (calls ++ [WsSend ws (MsgError
        "Backend error processing message: " e "Unknown error")]).
      cbn. rewrite Ht, <- app_assoc. split; [reflexivity|].
      apply Forall_app_2; [exact Hown|]. repeat constructor.
    - split; [exact Hm|]. eauto. }
  destruct (is_string t "audio" && truthy (get v "audioData")).
  2:{ split; [kept|]. exists []. rewrite app_nil_r. auto. }
  destruct (handleAudioMessage_calls ws v st) as (Hm & calls & Ht & Hown).
  destruct (handleAudioMessage _ _ _ ws v st) as [[e|[]] st1]; cbn [fst snd] in *.
  - split; [exact Hm|]. exists (calls ++ [WsSend ws (MsgError
      "Backend error processing message: " e "Unknown error")]).
    cbn. rewrite Ht, <- app_assoc. split; [reflexivity|].
    apply Forall_app_2; [exact Hown|]. repeat constructor.
  - split; [exact Hm|]. eauto.
Qed.

(** X6. What a client message can do. Whatever the text received,
    [handleWebSocketMessage] leaves the session map as it is, keeps the
    state object of every other connection, and neither adds nor removes
    the state object of its own connection; and every call it makes is
    one of: a message to its own socket; the close of its own socket with
    code 1011, only when the connection has no session or no state
    object; a turn sent to its own session, complete; the kill of the
    process and the destruction of the streams that its own state object
    names; the start of a transcoding and the feeding of its input. It
    never closes a session. *)
Theorem handleWebSocketMessage_frame (ws : ws_id) (message : string) (st : state) :
  let st' := handleWebSocketMessage JSON_parse base64_decode Buffer_from_other
               toParts pipe_pid ws message st in
  geminiSessionMap st' = geminiSessionMap st /\
  (forall ws', ws' <> ws -> clientStateMap st' !! ws' = clientStateMap st !! ws') /\
  (is_Some (clientStateMap st' !! ws) <-> is_Some (clientStateMap st !! ws)) /\
  exists calls, trace (env st') = trace (env st) ++ calls /\
                Forall (own_call st ws) calls.
Proof.
  destruct (handleWebSocketMessage_calls ws message st) as ((H1 & H2 & H3) & H4).
  cbv zeta. auto.
Qed.

(** An event leaves the other connections alone. *)
Lemma step_others (e : event) (ws' : ws_id) (st : state) :
  socket_of e <> ws' ->
  let st' := step JSON_parse base64_decode Buffer_from_other toParts pipe_pid e st in
  geminiSessionMap st' !! ws' = geminiSessionMap st !! ws' /\
  clientStateMap st' !! ws' = clientStateMap st !! ws'.
Proof.
  intros Hne. destruct e as [ws message|ws m|ws error|ws|ws]; cbn [step socket_of] in *.
  - destruct (handleWebSocketMessage_calls ws message st) as ((H1 & H2 & _) & _).
    cbv zeta. rewrite H1, H2 by congruence. auto.
  - destruct (handleGeminiMessage_effects base64_decode ws m st)
      as (_ & H1 & _ & _ & _ & _ & H2 & _).
    cbv zeta. rewrite H1, H2 by congruence. auto.
  - cbv zeta. auto.
  - apply cleanupClient_others, Hne.
  - apply cleanupClient_others, Hne.
Qed.

(** X7. Connections do not interfere. After any sequence of events none
    of which belongs to socket [ws'], the session and the state object of
    [ws'] are what they were. *)
Theorem connections_are_isolated (events : list event) (ws' : ws_id) (st : state) :
  Forall (fun e => socket_of e <> ws') events ->
  let st' := run JSON_parse base64_decode Buffer_from_other toParts pipe_pid events st in
  geminiSessionMap st' !! ws' = geminiSessionMap st !! ws' /\
  clientStateMap st' !! ws' = clientStateMap st !! ws'.
Proof.
  intros H. revert st. induction H as [|e events He _ IH]; intros st; [cbn; auto|].
  cbn [run fold_left]. cbv zeta in IH. unfold run in IH.
  destruct (step_others e ws' st He) as [H1 H2].
  destruct (IH (step JSON_parse base64_decode Buffer_from_other toParts pipe_pid e st))
    as [I1 I2].
  rewrite I1, I2. auto.
Qed.

(** An event of a connection that is in neither map. *)
Lemma step_closed (e : event) (st : state) :
  geminiSessionMap st !! socket_of e = None ->
  clientStateMap st !! socket_of e = None ->
  let st' := step JSON_parse base64_decode Buffer_from_other toParts pipe_pid e st in
  geminiSessionMap st' = geminiSessionMap st /\
  clientStateMap st' = clientStateMap st /\
  running (env st') = running (env st) /\
  open_streams (env st') = open_streams (env st) /\
  trace (env st') = trace (env st) ++ late_calls e.
Proof.
  intros Hs Hc. destruct e as [ws message|ws m|ws error|ws|ws];
    cbn [step socket_of late_calls] in *; cbv zeta.
  - unfold handleWebSocketMessage. rewrite Hs. cbn. auto.
  - unfold handleGeminiMessage. rewrite Hc, app_nil_r. auto.
  - cbn. auto.
  - unfold handleWebSocketClose. rewrite (cleanupClient_absent ws st Hs Hc), app_nil_r. auto.
  - unfold handleWebSocketError. rewrite (cleanupClient_absent ws st Hs Hc), app_nil_r. auto.
Qed.

Lemma run_closed (ws : ws_id) (events : list event) :
  Forall (fun e => socket_of e = ws) events ->
  forall st : state,
  geminiSessionMap st !! ws = None -> clientStateMap st !! ws = None ->
  let st' := run JSON_parse base64_decode Buffer_from_other toParts pipe_pid events st in
  geminiSessionMap st' = geminiSessionMap st /\
  clientStateMap st' = clientStateMap st /\
  running (env st') = running (env st) /\
  open_streams (env st') = open_streams (env st) /\
  trace (env st') = trace (env st) ++ flat_map late_calls events.
Proof.
  induction 1 as [|e events He _ IH]; intros st Hs Hc.
  - cbn. rewrite app_nil_r. auto.
  - cbn [run fold_left flat_map]. subst ws.
    destruct (step_closed e st Hs Hc) as (S1 & S2 & S3 & S4 & S5).
    cbv zeta in IH. unfold run in IH.
    destruct (IH (step JSON_parse base64_decode Buffer_from_other toParts pipe_pid e st))
      as (I1 & I2 & I3 & I4 & I5).
    { rewrite S1. exact Hs. }
    { rewrite S2. exact Hc. }
    rewrite I1, I2, I3, I4, I5, S1, S2, S3, S4, S5, <- app_assoc. auto.
Qed.

(** X8. After [cleanupClient], the connection is inert. Any further
    events of the socket leave both maps, the process table and the
    streams as [cleanupClient] left them; a client message is answered by
    closing the socket with code 1011 (No active Gemini session) without
    being parsed, an AI error by closing it with code 1011 (Gemini API
    Error), and an AI message or a second close by nothing: nothing is
    sent to the client or to the AI. *)
Theorem closed_connection_is_inert (ws : ws_id) (events : list event) (st : state) :
  Forall (fun e => socket_of e = ws) events ->
  let st0 := cleanupClient ws st in
  let st' := run JSON_parse base64_decode Buffer_from_other toParts pipe_pid events st0 in
  geminiSessionMap st' = geminiSessionMap st0 /\
  clientStateMap st' = clientStateMap st0 /\
  running (env st') = running (env st0) /\
  open_streams (env st') = open_streams (env st0) /\
  trace (env st') = trace (env st0) ++ flat_map late_calls events.
Proof.
  intros H. destruct (cleanupClient_removes ws st) as [Hs Hc].
  exact (run_closed ws events H (cleanupClient ws st) Hs Hc).
Qed.

(** X9. An audio message, through [handleWebSocketMessage]. With an
    empty [audioData] the message is ignored: nothing changes and no call
    is made. Otherwise the calls are the teardown of the pipeline the
    state object holds, the start of one transcoding between two fresh
    streams, and the feeding of the decoded clip to its input with
    [end]; the state object then holds the new handle and the two new
    streams, both open; the assistant audio accumulated so far is
    discarded and [firstGeminiResponseReceived] is false; the streams the
    state object held before, the two new ones apart, are no longer
    open. *)
Theorem audio_message_starts_one_pipeline (ws : ws_id) (message : string)
  (fields : list (string * json)) (a : string) (st : state) (cs : clientState)
  (session : session_id) :
  geminiSessionMap st !! ws = Some session ->
  clientStateMap st !! ws = Some cs ->
  JSON_parse message = inr (JObj fields) ->
  field "type" fields = Some (JStr "audio") ->
  field "audioData" fields = Some (JStr a) ->
  let st' := handleWebSocketMessage JSON_parse base64_decode Buffer_from_other
               toParts pipe_pid ws message st in
  let p := next_pid (env st) in
  let input := next_stream (env st) in
  let output := (next_stream (env st) + 1)%positive in
  (a = ""%string -> st' = st) /\
  (a <> ""%string ->
   trace (env st') =
     trace (env st) ++ teardown_calls cs ++
     [FfmpegRun p input output; StreamEnd input (base64_decode a)] /\
   clientStateMap st' !! ws =
     Some {| ffmpegProcess := Some {| pid := pipe_pid p |};
             ffmpegInputStream := Some input;
             pcmOutputStream := Some output;
             isSendingAudioToGemini := false;
             audioBuffer := [];
             mimeType := mimeType cs;
             firstGeminiResponseReceived := false |} /\
   input ∈ open_streams (env st') /\ output ∈ open_streams (env st') /\
   (forall s, holds cs s -> s <> input -> s <> output -> s ∉ open_streams (env st')) /\
   running (env st') !! p = Some ws /\
   next_pid (env st') = p + 1 /\
   next_stream (env st') = (input + 2)%positive).
Proof.
  intros Hs Hc Hp Ht Ha. cbv zeta. unfold handleWebSocketMessage.
  rewrite Hs, Hc, Hp. cbn [prop get]. rewrite Ht. cbn [ret is_string String.eqb Ascii.eqb Bool.eqb].
  cbn [andb truthy]. rewrite Ha. cbn [truthy]. split.
  - intros ->. reflexivity.
  - intros Hne. destruct (String.eqb_spec a ""); [contradiction|]. cbn [negb].
    unfold handleAudioMessage. cbn [prop get bind ret]. rewrite Ha. cbn [Buffer_from ret].
    rewrite Hc.
    pose proof (stopAudioProcessing_trace cs (env st)) as Htr.
    pose proof (stopAudioProcessing_state cs (env st)) as Hst.
    pose proof (open_streams_stopAudioProcessing cs (env st)) as Hopen.
    pose proof (next_pid_stopAudioProcessing cs (env st)) as Hpid.
    assert (next_stream (stopAudioProcessing cs (env st)).2 = next_stream (env st)) as Hns.
    { unfold stopAudioProcessing, process_kill.
      destruct (ffmpegProcess cs) as [[[q|]]|], (ffmpegInputStream cs),
        (pcmOutputStream cs); cbn; try destruct (running (env st) !! q); reflexivity. }
    destruct (stopAudioProcessing cs (env st)) as [cs1 w1]. cbn [fst snd] in *.
    subst cs1. unfold configureFFmpegProcess, ffmpeg_run, new_PassThrough.
    cbn. rewrite Htr, Hpid, Hns, <- !app_assoc. cbn.
    split; [reflexivity|]. split; [apply lookup_insert_eq|].
    split; [apply elem_of_union_r, elem_of_union_l, elem_of_singleton; reflexivity|].
    split; [apply elem_of_union_l, elem_of_singleton; reflexivity|]. split.
    + intros s Hh H1 H2 Hin. apply elem_of_union in Hin as [Hin|Hin];
        [apply elem_of_singleton in Hin; contradiction|].
      apply elem_of_union in Hin as [Hin|Hin];
        [apply elem_of_singleton in Hin; contradiction|].
      apply Hopen in Hin as [_ Hn]. exact (Hn Hh).
    + split; [apply lookup_insert_eq|]. split; [reflexivity|].
      rewrite <- Pos.add_assoc. reflexivity.
Qed.

End Frame.

Section Cleanup.
Import Backend Connection.

(** X22. What [cleanupClient] does, on every state. A first call makes
    the calls of the teardown (when the connection has a state object),
    then one [session.close()] (when it has a session), and removes the
    connection from both maps, other connections keeping their entries.
    Afterwards the streams the state object held are no longer open, and
    the process table has lost the process that the [pid] property of
    the handle names, if it names one, and no other. A second call
    returns the state it is given: nothing is called, nothing is raised. *)
Theorem cleanupClient_is_final (ws : ws_id) (st : state) :
  let st1 := cleanupClient ws st in
  geminiSessionMap st1 = delete ws (geminiSessionMap st) /\
  clientStateMap st1 = delete ws (clientStateMap st) /\
  trace (env st1) =
    trace (env st)
    ++ from_option teardown_calls [] (clientStateMap st !! ws)
    ++ from_option (fun s => [SessionClose s]) [] (geminiSessionMap st !! ws) /\
  (forall s, s ∈ open_streams (env st1) <->
     s ∈ open_streams (env st) /\
     forall cs, clientStateMap st !! ws = Some cs -> ~ holds cs s) /\
  running (env st1) =
    match clientStateMap st !! ws with
    | Some {| ffmpegProcess := Some {| pid := Some n |} |} => delete n (running (env st))
    | _ => running (env st)
    end /\
  cleanupClient ws st1 = st1.
Proof.
  cbv zeta.
  destruct (cleanupClient_removes ws st) as [Hs Hc].
  split; [|split; [|split; [|split; [|split]]]].
  - unfold cleanupClient.
    destruct (geminiSessionMap st !! ws) as [s|] eqn:E; cbn; [reflexivity|].
    symmetry. apply delete_id, E.
  - unfold cleanupClient. destruct (geminiSessionMap st !! ws); reflexivity.
  - apply cleanupClient_trace.
  - intros s. unfold cleanupClient.
    destruct (clientStateMap st !! ws) as [cs|] eqn:E.
    + assert (s ∈ open_streams (stopAudioProcessing cs (env st)).2 <->
              s ∈ open_streams (env st) /\
              forall cs0, Some cs = Some cs0 -> ~ holds cs0 s) as H.
      { rewrite open_streams_stopAudioProcessing. split; intros [H1 H2].
        - split; [exact H1|]. intros cs0 [= <-]. exact H2.
        - split; [exact H1|]. apply H2. reflexivity. }
      destruct (geminiSessionMap st !! ws); exact H.
    + assert (s ∈ open_streams (env st) <->
              s ∈ open_streams (env st) /\
              forall cs0, @None clientState = Some cs0 -> ~ holds cs0 s) as H.
      { split; [intros H; split; [exact H|intros cs0 [=]]|intros [H _]; exact H]. }
      destruct (geminiSessionMap st !! ws); exact H.
  - unfold cleanupClient.
    destruct (clientStateMap st !! ws) as [cs|] eqn:E.
    + pose proof (running_stopAudioProcessing cs (env st)) as H.
      destruct cs as [[[[n|]]|] i o sending buffer mime first];
        cbn [ffmpegProcess] in H;
        destruct (geminiSessionMap st !! ws); exact H.
    + destruct (geminiSessionMap st !! ws); reflexivity.
  - apply cleanupClient_absent; assumption.
Qed.

End Cleanup.

(** ** The callbacks of a transcoding pipeline *)

Section PipelineFacts.
Import Backend Connection Pipeline.

Variable sendRealtimeInput_outcome :
  list realtime_call -> session_id -> string -> result unit.
Variable sendClientContent_outcome : list realtime_call -> session_id -> result unit.

#[local] Abbreviation chunk_cb := (sendAudioChunkToGemini sendRealtimeInput_outcome).
#[local] Abbreviation events_cb :=
  (on_events sendRealtimeInput_outcome sendClientContent_outcome).

(** Chunks arriving while the socket is open and the session accepts
    them. *)
Lemma chunks_forwarded (ws : ws_id) (session : session_id) (chunks : list Buf.Buffer) :
  (forall before data, sendRealtimeInput_outcome before session data = ret tt) ->
  forall (cs : clientState) (x : io),
  events_cb ws (Some session) (map (PcmData 1) chunks) (cs, x) =
  (match chunks with
   | [] => cs
   | _ => set_isSendingAudioToGemini true cs
   end,
   {| sys := sys x; realtime := realtime x ++ map (forwarded session) chunks |}).
Proof.
  intros Hok. induction chunks as [|c chunks IH]; intros cs x.
  - simpl. rewrite app_nil_r. destruct x; reflexivity.
  - cbn [map on_events fold_left on_event]. unfold sendAudioChunkToGemini.
    cbn [Z.eqb Pos.eqb]. rewrite Hok. fold (forwarded session c).
    unfold ret. cbv beta iota zeta.
    unfold on_events in IH. rewrite IH. cbn [sys realtime].
    rewrite <- app_assoc. f_equal.
    destruct chunks, cs as [h i o [] buf mime first]; reflexivity.
Qed.

(** X10. A clip that is transcoded without incident. When the socket is
    open and the session accepts every call, the chunks of the [data]
    events are handed to the session with [sendRealtimeInput], each as
    base64 text with mime type [audio/pcm;rate=24000], in the order they
    arrive; the [end] of ffmpeg then sends one empty user turn with
    [turnComplete: true] and leaves [isSendingAudioToGemini] false.
    Nothing is torn down and nothing is sent to the client. *)
Theorem clip_is_forwarded_then_closed (ws : ws_id) (session : session_id)
  (chunks : list Buf.Buffer) (cs : clientState) (x : io) :
  (forall before data, sendRealtimeInput_outcome before session data = ret tt) ->
  (forall before, sendClientContent_outcome before session = ret tt) ->
  let r := events_cb ws (Some session)
             (map (PcmData 1) chunks ++ [PcmEnd; FfmpegEnd]) (cs, x) in
  realtime r.2 = realtime x ++ map (forwarded session) chunks /\
  trace (sys r.2) = trace (sys x) ++ [SendClientContent session [UserText ""] true] /\
  open_streams (sys r.2) = open_streams (sys x) /\
  running (sys r.2) = running (sys x) /\
  r.1 = set_isSendingAudioToGemini false cs.
Proof.
  intros Hok Hend r. subst r. unfold on_events. rewrite fold_left_app.
  pose proof (chunks_forwarded ws session chunks Hok cs x) as H.
  unfold on_events in H. rewrite H.
  cbn [fold_left on_event]. unfold signalAudioEndToGemini. rewrite Hend.
  cbn. repeat split. destruct chunks; reflexivity.
Qed.

(** [stopAudioProcessing] inside a callback. *)
Lemma stop_spec (cs : clientState) (x : io) :
  (stop cs x).1 = idle (audioBuffer cs) (mimeType cs) (firstGeminiResponseReceived cs) /\
  trace (sys (stop cs x).2) = trace (sys x) ++ teardown_calls cs /\
  realtime (stop cs x).2 = realtime x /\
  (forall s, holds cs s -> s ∉ open_streams (sys (stop cs x).2)).
Proof.
  unfold stop.
  pose proof (stopAudioProcessing_state cs (sys x)) as H1.
  pose proof (stopAudioProcessing_trace cs (sys x)) as H2.
  pose proof (stopAudioProcessing_streams cs (sys x)) as H3.
  destruct (stopAudioProcessing cs (sys x)) as [cs1 w1]. cbn in *.
  repeat split; auto.
Qed.

(** X11. A chunk is forwarded, or the pipeline is torn down. When the
    session is missing or the socket is not open, [sendAudioChunkToGemini]
    hands nothing to the session and runs [stopAudioProcessing]: the
    handles are null and the streams of the state object destroyed, and
    the client is told nothing. When the socket is open and
    [sendRealtimeInput] throws, the pipeline is torn down in the same
    way and one error message is sent to the client after the teardown.
    When [sendRealtimeInput] returns, the chunk has been forwarded,
    [isSendingAudioToGemini] is true and nothing else has changed. *)
Theorem chunk_is_forwarded_or_pipeline_torn_down (ws : ws_id)
  (currentSession : option session_id) (readyState : Z) (cs : clientState)
  (pcmChunk : Buf.Buffer) (x : io) :
  let r := chunk_cb ws currentSession readyState cs pcmChunk x in
  let torn_down :=
    r.1 = idle (audioBuffer cs) (mimeType cs) (firstGeminiResponseReceived cs) /\
    forall s, holds cs s -> s ∉ open_streams (sys r.2) in
  (currentSession = None \/ readyState <> 1 ->
   torn_down /\ realtime r.2 = realtime x /\
   trace (sys r.2) = trace (sys x) ++ teardown_calls cs) /\
  (forall session,
     currentSession = Some session -> readyState = 1 ->
     match sendRealtimeInput_outcome (realtime x) session
             (Buf.toString_base64 pcmChunk) with
     | inr _ =>
         r.1 = set_isSendingAudioToGemini true cs /\ sys r.2 = sys x /\
         realtime r.2 = realtime x ++ [forwarded session pcmChunk]
     | inl geminiError =>
         torn_down /\
         realtime r.2 = realtime x ++ [forwarded session pcmChunk] /\
         trace (sys r.2) =
           trace (sys x) ++ teardown_calls cs ++
           [WsSend ws (MsgError "Backend error sending audio chunk to Gemini: "
                         geminiError "Unknown Gemini send error")]
     end).
Proof.
  cbv zeta. split.
  - intros Hclosed. unfold sendAudioChunkToGemini.
    assert (match currentSession with
            | Some _ => if readyState =? 1 then None else Some tt
            | None => Some tt
            end = Some tt) as Hs.
    { destruct currentSession; [|reflexivity].
      destruct (Z.eqb_spec readyState 1); [|reflexivity].
      destruct Hclosed; congruence. }
    destruct (stop_spec cs x) as (H1 & H2 & H3 & H4).
    destruct currentSession; [destruct (readyState =? 1); [discriminate Hs|]|];
      repeat split; assumption.
  - intros session -> ->. unfold sendAudioChunkToGemini. cbn [Z.eqb Pos.eqb].
    fold (forwarded session pcmChunk).
    destruct (sendRealtimeInput_outcome _ session _) as [e|[]].
    + set (cs1 := if isSendingAudioToGemini cs then cs else _).
      set (x1 := {| sys := sys x; realtime := _ |}).
      destruct (stop_spec cs1 x1) as (H1 & H2 & H3 & H4).
      assert (teardown_calls cs1 = teardown_calls cs) as Ht
        by (subst cs1; destruct (isSendingAudioToGemini cs); reflexivity).
      destruct (stop cs1 x1) as [cs2 x2]. cbn [fst snd on_sys sys realtime log trace] in *.
      rewrite H1, H2, H3, Ht, <- app_assoc. subst cs1 x1.
      repeat split.
      * destruct (isSendingAudioToGemini cs); reflexivity.
      * intros s Hs. apply H4. unfold holds in *.
        destruct (isSendingAudioToGemini cs); exact Hs.
    + cbn. repeat split. destruct cs as [h i o [] buf mime first]; reflexivity.
Qed.

Lemma teardown_calls_pipeline (ws : ws_id) (currentSession : option session_id)
  (cs : clientState) :
  Forall (pipeline_call ws currentSession) (teardown_calls cs).
Proof.
  unfold teardown_calls.
  destruct (ffmpegProcess cs), (ffmpegInputStream cs), (pcmOutputStream cs);
    cbn; repeat constructor.
Qed.

(** One event: the calls it makes, and what it hands to the session. *)
Lemma on_event_safe (ws : ws_id) (currentSession : option session_id) (e : event)
  (cs : clientState) (x : io) :
  let r := on_event sendRealtimeInput_outcome sendClientContent_outcome ws
             currentSession (cs, x) e in
  (exists calls, trace (sys r.2) = trace (sys x) ++ calls /\
                 Forall (pipeline_call ws currentSession) calls) /\
  (exists chunks, chunks `sublist_of` chunks_of [e] /\
                  realtime r.2 = realtime x ++ handed currentSession chunks).
Proof.
  cbv zeta. pose proof (teardown_calls_pipeline ws currentSession) as Htd.
  assert (forall cs x, exists calls,
            trace (sys (stop cs x).2) = trace (sys x) ++ calls /\
            Forall (pipeline_call ws currentSession) calls) as Hstop.
  { intros cs0 x0. destruct (stop_spec cs0 x0) as (_ & H2 & _). eauto. }
  assert (realtime x = realtime x ++ handed currentSession []) as Hnone.
  { unfold handed. destruct currentSession; cbn; rewrite app_nil_r; reflexivity. }
  assert (forall l : list Buf.Buffer, [] `sublist_of` l) as Hnil
    by (intros l; apply sublist_nil_l).
  destruct e as [readyState chunk|err| |err|]; cbn [on_event].
  - unfold sendAudioChunkToGemini.
    destruct currentSession as [session|].
    2:{ destruct (stop_spec cs x) as (_ & H2 & H3 & _). split; [apply Hstop|].
        exists []. split; [apply Hnil|]. rewrite H3. cbn. rewrite app_nil_r. reflexivity. }
    destruct (readyState =? 1).
    2:{ destruct (stop_spec cs x) as (_ & H2 & H3 & _). split; [apply Hstop|].
        exists []. split; [apply Hnil|]. rewrite H3. cbn. rewrite app_nil_r. reflexivity. }
    fold (forwarded session chunk).
    destruct (sendRealtimeInput_outcome _ session _) as [e|[]].
    + set (cs1 := if isSendingAudioToGemini cs then cs else _).
      set (x1 := {| sys := sys x; realtime := _ |}).
      destruct (stop_spec cs1 x1) as (_ & H2 & H3 & _).
      destruct (stop cs1 x1) as [cs2 x2]. cbn [fst snd on_sys sys realtime log trace] in *.
      split.
      * exists (teardown_calls cs1 ++ [WsSend ws (MsgError
          "Backend error sending audio chunk to Gemini: " e "Unknown Gemini send error")]).
        rewrite H2, <- app_assoc. split; [reflexivity|].
        apply Forall_app_2; [apply Htd|]. repeat constructor.
      * exists [chunk]. split; [reflexivity|]. rewrite H3. reflexivity.
    + cbn. split; [exists []; rewrite app_nil_r; auto|].
      exists [chunk]. split; reflexivity.
  - destruct (stop_spec cs x) as (_ & H2 & H3 & _).
    destruct (stop cs x) as [cs2 x2]. cbn [fst snd on_sys sys realtime log trace] in *.
    split.
    + eexists (teardown_calls cs ++ [_]). rewrite H2, <- app_assoc.
      split; [reflexivity|]. apply Forall_app_2; [apply Htd|]. repeat constructor.
    + exists []. split; [apply Hnil|]. rewrite H3. apply Hnone.
  - split; [exists []; rewrite app_nil_r; auto|].
    exists []. split; [apply Hnil|]. apply Hnone.
  - destruct (stop_spec cs x) as (_ & H2 & H3 & _).
    destruct (stop cs x) as [cs2 x2]. cbn [fst snd on_sys sys realtime log trace] in *.
    split.
    + eexists (teardown_calls cs ++ [_]). rewrite H2, <- app_assoc.
      split; [reflexivity|]. apply Forall_app_2; [apply Htd|]. repeat constructor.
    + exists []. split; [apply Hnil|]. rewrite H3. apply Hnone.
  - unfold signalAudioEndToGemini. destruct currentSession as [session|].
    2:{ cbn. split; [exists []; rewrite app_nil_r; auto|].
        exists []. split; [apply Hnil|]. rewrite app_nil_r. reflexivity. }
    destruct (sendClientContent_outcome _ session) as [e|[]]; cbn.
    + split; [|exists []; split; [apply Hnil|]; rewrite app_nil_r; reflexivity].
      eexists [_; _]. rewrite <- app_assoc. split; [reflexivity|].
      repeat constructor.
    + split; [|exists []; split; [apply Hnil|]; rewrite app_nil_r; reflexivity].
      eexists [_]. split; [reflexivity|]. repeat constructor.
Qed.

Lemma handed_app (currentSession : option session_id) (a b : list Buf.Buffer) :
  handed currentSession (a ++ b) = handed currentSession a ++ handed currentSession b.
Proof. unfold handed. destruct currentSession; [apply map_app|reflexivity]. Qed.

(** X12. Whatever the events of a pipeline and whatever the session
    does, the callbacks only ever kill a process, destroy a stream, send
    an error message to their own client socket, or send the empty
    complete turn to their own session; and what the session is handed
    with [sendRealtimeInput] is a selection, in order, of the chunks of
    the [data] events: no chunk is handed over twice or out of order,
    and nothing else is. *)
Theorem pipeline_callbacks_are_safe (ws : ws_id) (currentSession : option session_id)
  (es : list event) (cs : clientState) (x : io) :
  let r := events_cb ws currentSession es (cs, x) in
  (exists calls, trace (sys r.2) = trace (sys x) ++ calls /\
                 Forall (pipeline_call ws currentSession) calls) /\
  (exists chunks, chunks `sublist_of` chunks_of es /\
                  realtime r.2 = realtime x ++ handed currentSession chunks).
Proof.
  cbv zeta. revert cs x. induction es as [|e es IH]; intros cs x.
  - cbn. split; [exists []; rewrite app_nil_r; auto|].
    exists []. split; [reflexivity|].
    unfold handed. destruct currentSession; cbn; rewrite app_nil_r; reflexivity.
  - cbn [on_events fold_left].
    destruct (on_event_safe ws currentSession e cs x)
      as ((c1 & T1 & F1) & (k1 & S1 & R1)).
    destruct (on_event _ _ ws currentSession (cs, x) e) as [cs1 x1].
    cbn [fst snd] in *.
    destruct (IH cs1 x1) as ((c2 & T2 & F2) & (k2 & S2 & R2)).
    unfold on_events in *. split.
    + exists (c1 ++ c2). rewrite T2, T1, <- app_assoc. split; [reflexivity|].
      apply Forall_app_2; assumption.
    + exists (k1 ++ k2). split.
      * change (e :: es) with ([e] ++ es). unfold chunks_of in *.
        rewrite flat_map_app. apply sublist_app; assumption.
      * rewrite R2, R1, handed_app, <- app_assoc. reflexivity.
Qed.

End PipelineFacts.

(** ** The handlers of [server.js] *)

Section ServerFacts.
Import Server ServerConnection.

Variable JSON_parse : string -> result json.
Variable base64_decode : string -> Buf.Buffer.
Variable Buffer_from_other : json -> result Buf.Buffer.
Variable toParts : option json -> result json.

(** The close handler on a socket that is in neither map. *)
Lemma ws_close_closed (ws : ws_id) (st : state) :
  geminiSessionMap st !! ws = None -> audioBuffers st !! ws = None ->
  ws_close ws st = st.
Proof.
  intros Hs Hb. unfold ws_close. rewrite Hs. unfold with_buffers.
  rewrite (delete_id _ _ Hb). destruct st; reflexivity.
Qed.

(** X13. The close handler of [server.js] (the same code serves the
    [error] event). It closes the session of the socket, once, if there
    is one; removes the socket from both maps; leaves the entries of
    every other socket; and is final: a second close, the [onclose]
    callback of the session, and a late message of the AI all leave the
    state exactly as it is, the late message being dropped without a
    call. *)
Theorem server_close_is_final (ws : ws_id) (st : state) (m : Live.LiveServerMessage) :
  let st1 := ws_close ws st in
  geminiSessionMap st1 !! ws = None /\
  audioBuffers st1 !! ws = None /\
  trace (env st1) =
    trace (env st)
    ++ from_option (fun s => [SessionClose s]) [] (geminiSessionMap st !! ws) /\
  (forall ws', ws' <> ws ->
     geminiSessionMap st1 !! ws' = geminiSessionMap st !! ws' /\
     audioBuffers st1 !! ws' = audioBuffers st !! ws') /\
  ws_close ws st1 = st1 /\
  onclose ws st1 = st1 /\
  onmessage base64_decode ws m st1 = (ret tt, st1).
Proof.
  cbv zeta.
  assert (geminiSessionMap (ws_close ws st) !! ws = None /\
          audioBuffers (ws_close ws st) !! ws = None) as [Hs Hb].
  { unfold ws_close. destruct (geminiSessionMap st !! ws) eqn:E; cbn;
      rewrite ?lookup_delete_eq; auto. }
  split; [exact Hs|]. split; [exact Hb|]. split.
  { unfold ws_close. destruct (geminiSessionMap st !! ws); cbn;
      rewrite ?app_nil_r; reflexivity. }
  split.
  { intros ws' Hne. unfold ws_close.
    destruct (geminiSessionMap st !! ws); cbn;
      rewrite ?lookup_delete_ne by congruence; auto. }
  split; [apply ws_close_closed; assumption|]. split.
  - unfold onclose, with_buffers. rewrite (delete_id _ _ Hb).
    destruct (ws_close ws st); reflexivity.
  - unfold onmessage. rewrite Hb. reflexivity.
Qed.

(** The loop over the parts sends text messages only and touches neither
    the processes nor the streams. *)
Lemma onmessage_part_world (ws : ws_id) (part : Live.Part)
  (acc : result unit * (audioEntry * world)) :
  let r := onmessage_part base64_decode ws acc part in
  (exists sent, trace r.2.2 = trace acc.2.2 ++ map (WsSend ws) sent) /\
  running r.2.2 = running acc.2.2 /\
  open_streams r.2.2 = open_streams acc.2.2.
Proof.
  cbv zeta. destruct acc as [[e|[]] [b w]]; cbn [onmessage_part fst snd].
  { split; [exists []; rewrite app_nil_r; reflexivity|auto]. }
  assert (exists sent,
            trace (match Live.text part with
                   | Some t => if negb (t =? "")%string
                               then log (WsSend ws (MsgText t)) w else w
                   | None => w
                   end) = trace w ++ map (WsSend ws) sent) as Ht.
  { destruct (Live.text part) as [t|]; [destruct (negb _)|];
      [exists [MsgText t]|exists []|exists []]; cbn; rewrite ?app_nil_r; reflexivity. }
  assert (forall w', running (match Live.text part with
                   | Some t => if negb (t =? "")%string
                               then log (WsSend ws (MsgText t)) w' else w'
                   | None => w'
                   end) = running w' /\
                open_streams (match Live.text part with
                   | Some t => if negb (t =? "")%string
                               then log (WsSend ws (MsgText t)) w' else w'
                   | None => w'
                   end) = open_streams w') as Hw.
  { intros w'. destruct (Live.text part) as [t|]; [destruct (negb _)|]; auto. }
  destruct (Live.inlineData part) as [d|];
    [destruct (nonempty _ && startsWith _ _); [destruct (Live.data d)|]|];
    cbn [fst snd]; (split; [exact Ht|apply Hw]).
Qed.

Lemma onmessage_parts_world (ws : ws_id) (ps : list Live.Part) :
  forall acc : result unit * (audioEntry * world),
  let r := fold_left (onmessage_part base64_decode ws) ps acc in
  (exists sent, trace r.2.2 = trace acc.2.2 ++ map (WsSend ws) sent) /\
  running r.2.2 = running acc.2.2 /\
  open_streams r.2.2 = open_streams acc.2.2.
Proof.
  induction ps as [|p ps IH]; intros acc.
  - cbn. split; [exists []; rewrite app_nil_r; reflexivity|auto].
  - cbn [fold_left]. destruct (onmessage_part_world ws p acc) as ([s1 T1] & R1 & O1).
    destruct (IH (onmessage_part base64_decode ws acc p)) as ([s2 T2] & R2 & O2).
    cbv zeta. rewrite T2, T1, R2, R1, O2, O1, <- app_assoc, <- map_app. eauto.
Qed.

Lemma onmessage_world (ws : ws_id) (m : Live.LiveServerMessage) (st : state) :
  let st' := (onmessage base64_decode ws m st).2 in
  (exists sent, trace (env st') = trace (env st) ++ map (WsSend ws) sent) /\
  running (env st') = running (env st) /\
  open_streams (env st') = open_streams (env st) /\
  geminiSessionMap st' = geminiSessionMap st.
Proof.
  cbv zeta. unfold onmessage.
  destruct (audioBuffers st !! ws) as [b|];
    [|cbn; split; [exists []; rewrite app_nil_r; reflexivity|auto]].
  destruct (Live.serverContent m) as [sc|];
    [|cbn; split; [exists []; rewrite app_nil_r; reflexivity|auto]].
  set (r := match Live.modelTurn sc with
            | Some mt => match Live.parts mt with
                         | Some ps => fold_left (onmessage_part base64_decode ws) ps
                                        (ret tt, (b, env st))
                         | None => (ret tt, (b, env st))
                         end
            | None => (ret tt, (b, env st))
            end).
  assert ((exists sent, trace r.2.2 = trace (env st) ++ map (WsSend ws) sent) /\
          running r.2.2 = running (env st) /\
          open_streams r.2.2 = open_streams (env st)) as Hr.
  { subst r. destruct (Live.modelTurn sc) as [mt|];
      [destruct (Live.parts mt) as [ps|]|];
      try (cbn; split; [exists []; rewrite app_nil_r; reflexivity|auto]).
    exact (onmessage_parts_world ws ps (ret tt, (b, env st))). }
  destruct r as [[e|[]] [b1 w1]]; cbn [fst snd] in *.
  { cbn. destruct Hr as (H1 & H2 & H3). auto. }
  destruct Hr as ([s1 H1] & H2 & H3).
  destruct (Live.turnComplete sc); [|cbn; eauto].
  unfold onmessage_turnComplete.
  destruct (0 <? Z.of_nat (length (buffer b1)));
    [destruct (bind _ _)|]; cbn.
  - split; [eauto|auto].
  - split; [|auto]. eexists (s1 ++ [_]). rewrite H1, map_app, <- app_assoc. reflexivity.
  - split; [eauto|auto].
Qed.

Lemma nothing_released_refl (w : world) : nothing_released w w.
Proof.
  split; [exists []; rewrite app_nil_r; auto|]. split; [reflexivity|auto].
Qed.

Lemma nothing_released_trans (w1 w2 w3 : world) :
  nothing_released w1 w2 -> nothing_released w2 w3 -> nothing_released w1 w3.
Proof.
  intros ((c1 & T1 & F1) & O1 & R1) ((c2 & T2 & F2) & O2 & R2). split.
  - exists (c1 ++ c2). rewrite T2, T1, <- app_assoc. split; [reflexivity|].
    apply Forall_app_2; assumption.
  - split; [etrans; eassumption|auto].
Qed.

Lemma nothing_released_log (c : call) (w : world) :
  ~ releases c -> nothing_released w (log c w).
Proof.
  intros Hc. split; [exists [c]; split; [reflexivity|repeat constructor; exact Hc]|].
  split; [reflexivity|auto].
Qed.

Lemma nothing_released_sends (ws : ws_id) (w w' : world) :
  (exists sent, trace w' = trace w ++ map (WsSend ws) sent) ->
  running w' = running w -> open_streams w' = open_streams w ->
  nothing_released w w'.
Proof.
  intros [sent Ht] Hr Ho. split.
  - exists (map (WsSend ws) sent). split; [exact Ht|].
    clear Ht. induction sent as [|x sent IH]; constructor; [cbn; tauto|exact IH].
  - rewrite Hr, Ho. split; [reflexivity|auto].
Qed.

(** Each handler releases nothing. *)
Lemma ws_message_releases_nothing (ws : ws_id) (message : string) (st : state) :
  nothing_released (env st)
    (env (ws_message JSON_parse base64_decode Buffer_from_other toParts ws message st)).
Proof.
  unfold ws_message, ws_message_try.
  destruct (JSON_parse message) as [e|v];
    [apply nothing_released_log; cbn; tauto|].
  destruct (geminiSessionMap st !! ws) as [session|];
    [|apply nothing_released_log; cbn; tauto].
  destruct (prop v "type") as [e|t]; [apply nothing_released_log; cbn; tauto|].
  destruct (is_string t "text").
  { destruct (createUserContent toParts (get v "message"));
      apply nothing_released_log; cbn; tauto. }
  destruct (is_string t "audio"); [|apply nothing_released_refl].
  destruct (Buffer_from base64_decode Buffer_from_other (get v "audioData")) as [e|blob];
    [apply nothing_released_log; cbn; tauto|].
  unfold new_PassThrough, ffmpeg_run. cbn. split.
  - eexists [_; _]. cbn [log trace]. rewrite <- app_assoc. split; [reflexivity|].
    repeat constructor; cbn; tauto.
  - cbn. split; [set_solver|]. intros p Hp.
    destruct (decide (p = next_pid (env st))) as [->|Hne].
    + rewrite lookup_insert_eq. eauto.
    + rewrite lookup_insert_ne by congruence. exact Hp.
Qed.

Lemma server_step_releases_nothing (e : event) (st : state) :
  nothing_released (env st)
    (env (step JSON_parse base64_decode Buffer_from_other toParts e st)).
Proof.
  destruct e as [ws m|ws error|ws|ws message|ws|ws]; cbn [step].
  - destruct (onmessage_world ws m st) as (Ht & Hr & Ho & _).
    eapply nothing_released_sends; eassumption.
  - apply nothing_released_log. cbn. tauto.
  - apply nothing_released_refl.
  - apply ws_message_releases_nothing.
  - unfold ws_close. destruct (geminiSessionMap st !! ws); cbn;
      [apply nothing_released_log; cbn; tauto|apply nothing_released_refl].
  - unfold ws_close. destruct (geminiSessionMap st !! ws); cbn;
      [apply nothing_released_log; cbn; tauto|apply nothing_released_refl].
Qed.

(** X14. [server.js] never releases what it starts. Over any sequence
    of events (AI messages, errors and closes, client messages, socket
    closes and errors) no handler calls [process.kill] or [destroy]:
    every stream opened and every subprocess started for an audio
    message is left to end by itself. *)
Theorem server_releases_nothing (events : list event) (st : state) :
  nothing_released (env st)
    (env (run JSON_parse base64_decode Buffer_from_other toParts events st)).
Proof.
  revert st. induction events as [|e events IH]; intros st.
  - apply nothing_released_refl.
  - cbn [run fold_left]. eapply nothing_released_trans;
      [apply server_step_releases_nothing|apply IH].
Qed.

#[local] Abbreviation decoded := (Connection.decoded base64_decode).

(** A part that is not faulty: its text is sent and its audio
    accumulated. *)
Lemma onmessage_part_sound (ws : ws_id) (part : Live.Part) (b : audioEntry) (w : world) :
  ~ faulty part ->
  exists b' w',
    onmessage_part base64_decode ws (ret tt, (b, w)) part = (ret tt, (b', w')) /\
    buffer b' = buffer b ++ decoded (inline_audio part) /\
    trace w' = trace w ++ Connection.sends ws (Connection.text_of part).
Proof.
  intros Hf. unfold onmessage_part, inline_audio, Connection.text_of, faulty in *.
  cbn [ret].
  set (w1 := match Live.text part with
             | Some t => if negb (t =? "")%string
                         then log (WsSend ws (MsgText t)) w else w
             | None => w
             end).
  assert (trace w1 = trace w ++
            Connection.sends ws
              match Live.text part with
              | Some t => if negb (t =? "")%string then [t] else []
              | None => []
              end) as Ht.
  { subst w1. destruct (Live.text part) as [t|]; [destruct (negb _)|]; cbn;
      rewrite ?app_nil_r; reflexivity. }
  destruct (Live.inlineData part) as [d|].
  2:{ exists b, w1. cbn. rewrite app_nil_r. auto. }
  destruct (nonempty (Live.mimeType d) && startsWith (Live.mimeType d) "audio/") eqn:E.
  2:{ exists b, w1. cbn. rewrite app_nil_r. auto. }
  destruct (Live.data d) as [x|] eqn:Ed.
  2:{ exfalso. apply Hf. exists d. auto. }
  eexists _, w1. split; [reflexivity|]. cbn. rewrite app_nil_r. auto.
Qed.

Lemma onmessage_parts_sound (ws : ws_id) (ps : list Live.Part) :
  Forall (fun p => ~ faulty p) ps ->
  forall (b : audioEntry) (w : world),
  exists b' w',
    fold_left (onmessage_part base64_decode ws) ps (ret tt, (b, w)) = (ret tt, (b', w')) /\
    buffer b' = buffer b ++ decoded (flat_map inline_audio ps) /\
    trace w' = trace w ++ Connection.sends ws (flat_map Connection.text_of ps).
Proof.
  induction 1 as [|p ps Hp _ IH]; intros b w.
  - exists b, w. cbn. rewrite !app_nil_r. auto.
  - cbn [fold_left flat_map].
    destruct (onmessage_part_sound ws p b w Hp) as (b1 & w1 & E1 & B1 & T1).
    destruct (IH b1 w1) as (b2 & w2 & E2 & B2 & T2).
    exists b2, w2. rewrite E1, E2, B2, B1, T2, T1.
    unfold Connection.decoded, Connection.sends.
    rewrite flat_map_app, map_app, <- !app_assoc. auto.
Qed.

(** An audio part without data ends the loop with an exception; the
    parts after it are not looked at. *)
Lemma onmessage_parts_faulty (ws : ws_id) (pre post : list Live.Part)
  (bad : Live.Part) (b : audioEntry) (w : world) :
  Forall (fun p => ~ faulty p) pre -> faulty bad ->
  exists b' w',
    fold_left (onmessage_part base64_decode ws) (pre ++ bad :: post) (ret tt, (b, w)) =
      (throw (ERR_INVALID_ARG_TYPE "first argument"), (b', w')) /\
    buffer b' = buffer b ++ decoded (flat_map inline_audio pre) /\
    trace w' = trace w ++ Connection.sends ws (flat_map Connection.text_of (pre ++ [bad])).
Proof.
  intros Hpre (d & Hd & Hm & Hx).
  destruct (onmessage_parts_sound ws pre Hpre b w) as (b1 & w1 & E1 & B1 & T1).
  rewrite fold_left_app, E1. cbn [fold_left].
  assert (forall acc : audioEntry * world,
            fold_left (onmessage_part base64_decode ws) post
              (throw (ERR_INVALID_ARG_TYPE "first argument"), acc) =
            (throw (ERR_INVALID_ARG_TYPE "first argument"), acc)) as Hpost.
  { intros acc. induction post as [|p post IH]; [reflexivity|exact IH]. }
  unfold onmessage_part at 2. cbn [ret]. rewrite Hd, Hm, Hx. rewrite Hpost.
  eexists _, _. split; [reflexivity|]. split; [exact B1|].
  rewrite flat_map_app. unfold Connection.sends in *. rewrite map_app, app_assoc, <- T1.
  cbn. unfold Connection.text_of.
  destruct (Live.text bad) as [t|]; [destruct (negb _)|]; cbn;
    rewrite ?app_nil_r; reflexivity.
Qed.

(** X16. In [server.js] an audio part without [data] aborts the
    callback. [Buffer.from(undefined, 'base64')] throws inside the loop
    over the parts and nothing catches it: the texts of the parts up to
    and including the faulty one have been sent, the audio of the parts
    before it has been accumulated, the parts after it are not
    processed, and the turn is not completed even if the message says
    so. ([utils.js] skips such a part and goes on, see X3.) *)
Theorem server_aborts_on_audio_without_data (ws : ws_id) (m : Live.LiveServerMessage)
  (st : state) (b : audioEntry) (pre post : list Live.Part) (bad : Live.Part) :
  audioBuffers st !! ws = Some b ->
  Connection.parts_of m = pre ++ bad :: post ->
  Forall (fun p => ~ faulty p) pre -> faulty bad ->
  let r := onmessage base64_decode ws m st in
  r.1 = throw (ERR_INVALID_ARG_TYPE "first argument") /\
  trace (env r.2) =
    trace (env st) ++ Connection.sends ws (flat_map Connection.text_of (pre ++ [bad])) /\
  exists b', audioBuffers r.2 !! ws = Some b' /\
             buffer b' = buffer b ++ decoded (flat_map inline_audio pre).
Proof.
  intros Hb Hparts Hpre Hbad. cbv zeta. unfold onmessage. rewrite Hb.
  unfold Connection.parts_of in Hparts.
  destruct (Live.serverContent m) as [sc|]; [|destruct pre; discriminate Hparts].
  destruct (Live.modelTurn sc) as [mt|]; [|destruct pre; discriminate Hparts].
  destruct (Live.parts mt) as [ps|]; [|destruct pre; discriminate Hparts].
  cbn in Hparts. subst ps.
  destruct (onmessage_parts_faulty ws pre post bad b (env st) Hpre Hbad)
    as (b1 & w1 & E & B & T).
  rewrite E. cbn. split; [reflexivity|]. split; [exact T|].
  exists b1. split; [apply lookup_insert_eq|exact B].
Qed.

(** The [onmessage] callback in terms of the parts of the message. *)
Lemma onmessage_unfold (ws : ws_id) (m : Live.LiveServerMessage) (st : state)
  (b : audioEntry) :
  audioBuffers st !! ws = Some b ->
  onmessage base64_decode ws m st =
  let '(outcome, (b1, w1)) :=
    fold_left (onmessage_part base64_decode ws) (Connection.parts_of m)
      (ret tt, (b, env st)) in
  let '(outcome, (b2, w2)) :=
    match outcome with
    | inl _ => (outcome, (b1, w1))
    | inr _ => if Connection.ends_turn m then onmessage_turnComplete ws b1 w1
               else (ret tt, (b1, w1))
    end in
  match Live.serverContent m with
  | Some _ => (outcome, with_env w2 (with_buffers (<[ws := b2]> (audioBuffers st)) st))
  | None => (ret tt, st)
  end.
Proof.
  intros Hb. unfold onmessage, Connection.parts_of, Connection.ends_turn. rewrite Hb.
  destruct (Live.serverContent m) as [sc|]; [|reflexivity].
  destruct (Live.modelTurn sc) as [mt|]; [destruct (Live.parts mt) as [ps|]|];
    reflexivity.
Qed.

(** Empty audio data adds no byte, so both servers accumulate the same
    bytes. *)
Lemma decoded_inline_audio (ps : list Live.Part) :
  base64_decode "" = [] ->
  decoded (flat_map inline_audio ps) = decoded (flat_map Connection.audio_of ps).
Proof.
  intros Hempty. induction ps as [|p ps IH]; [reflexivity|].
  cbn [flat_map]. unfold Connection.decoded in *. rewrite !flat_map_app, IH. f_equal.
  unfold inline_audio, Connection.audio_of.
  destruct (Live.inlineData p) as [d|]; [|reflexivity].
  destruct (nonempty _ && startsWith _ _); [|reflexivity].
  destruct (Live.data d) as [x|]; [|reflexivity].
  destruct (String.eqb_spec x ""); [subst x; cbn; rewrite Hempty|]; reflexivity.
Qed.

(** X15. [utils.js] sends the client what [server.js] sends, and then
    the [turnComplete] marker. For a message with no faulty part, on
    connections with the same accumulated audio (at most 402653065 bytes
    with the audio of the message, the most that goes into one audio
    message), the [onmessage] callback of [server.js] returns normally,
    [handleGeminiMessage] makes the same calls followed, when the
    message ends the turn, by the [turnComplete] message, and the two
    accumulators are equal again afterwards. *)
Theorem backend_sends_what_server_sends (ws : ws_id) (m : Live.LiveServerMessage)
  (st0 : state) (st : Backend.state) (b : audioEntry) (cs : Backend.clientState) :
  base64_decode "" = [] ->
  audioBuffers st0 !! ws = Some b ->
  Backend.clientStateMap st !! ws = Some cs ->
  Backend.audioBuffer cs = buffer b ->
  Forall (fun p => ~ faulty p) (Connection.parts_of m) ->
  Z.of_nat (length (buffer b ++
                    decoded (flat_map Connection.audio_of (Connection.parts_of m))))
    <= 402653065 ->
  let r0 := onmessage base64_decode ws m st0 in
  let st' := Backend.handleGeminiMessage base64_decode ws m st in
  r0.1 = ret tt /\
  exists calls,
    trace (env r0.2) = trace (env st0) ++ calls /\
    trace (Backend.env st') =
      trace (Backend.env st) ++ calls ++
      (if Connection.ends_turn m then [WsSend ws MsgTurnComplete] else []) /\
    exists b' cs',
      audioBuffers r0.2 !! ws = Some b' /\
      Backend.clientStateMap st' !! ws = Some cs' /\
      Backend.audioBuffer cs' = buffer b'.
Proof.
  intros Hempty Hb Hc Hbuf Hsound Hlen. cbv zeta.
  rewrite (onmessage_unfold ws m st0 b Hb).
  rewrite (handleGeminiMessage_unfold base64_decode ws m st cs Hc).
  destruct (onmessage_parts_sound ws (Connection.parts_of m) Hsound b (env st0))
    as (b1 & w1 & E1 & B1 & T1).
  rewrite E1. rewrite (decoded_inline_audio _ Hempty) in B1.
  pose proof (handleGeminiParts_spec base64_decode ws (Connection.parts_of m)
                (Backend.set_firstGeminiResponseReceived true cs) (Backend.env st)) as H.
  cbv zeta in H.
  destruct (fold_left (Backend.handleGeminiPart base64_decode ws) _ _) as [cs1 v1].
  cbn [fst snd] in H |- *. destruct H as (H1 & _ & _ & _ & _ & H6 & _).
  cbn [Backend.audioBuffer Backend.set_firstGeminiResponseReceived] in H6.
  assert (Backend.audioBuffer cs1 = buffer b1) as Hsame by (rewrite H6, B1, Hbuf; reflexivity).
  rewrite <- B1 in Hlen.
  destruct (Live.serverContent m) as [sc|] eqn:Esc.
  2:{ assert (Connection.ends_turn m = false) as ->
        by (unfold Connection.ends_turn; rewrite Esc; reflexivity).
      assert (Connection.parts_of m = []) as Hnil
        by (unfold Connection.parts_of; rewrite Esc; reflexivity).
      rewrite Hnil in *. cbn in T1, H1. rewrite app_nil_r in T1, H1.
      cbn. split; [reflexivity|]. exists []. rewrite !app_nil_r.
      split; [reflexivity|]. split; [exact H1|].
      exists b, cs1. split; [exact Hb|]. split; [apply lookup_insert_eq|].
      rewrite Hsame, B1. cbn. rewrite app_nil_r. reflexivity. }
  destruct (Connection.ends_turn m).
  - destruct (server_turnComplete_cases ws b1 w1) as (Hs0 & Hs1 & _).
    cbv zeta in Hs0, Hs1.
    destruct (Z.ltb_spec 0 (Z.of_nat (length (buffer b1)))) as [Hpos|Hzero].
    + rewrite (Hs1 ltac:(lia)).
      rewrite handleGeminiTurnComplete_audio by (rewrite Hsame; lia).
      rewrite Hsame. cbn. split; [reflexivity|].
      eexists (Connection.sends ws _ ++ [_]).
      rewrite T1, H1, <- !app_assoc. split; [reflexivity|].
      split; [reflexivity|].
      eexists _, _. split; [apply lookup_insert_eq|].
      split; [apply lookup_insert_eq|]. reflexivity.
    + assert (Backend.audioBuffer cs1 = []) as Hnil.
      { rewrite Hsame. destruct (buffer b1); [reflexivity|simpl in Hzero; lia]. }
      rewrite handleGeminiTurnComplete_silent by exact Hnil.
      rewrite (Hs0 ltac:(lia)).
      cbn. split; [reflexivity|]. eexists. split; [exact T1|].
      rewrite H1, <- app_assoc. split; [reflexivity|].
      eexists _, _. split; [apply lookup_insert_eq|].
      split; [apply lookup_insert_eq|]. cbn. exact Hsame.
  - cbn. split; [reflexivity|]. eexists. split; [exact T1|].
    rewrite H1, app_nil_r. split; [reflexivity|].
    eexists _, _. split; [apply lookup_insert_eq|].
    split; [apply lookup_insert_eq|]. exact Hsame.
Qed.

End ServerFacts.

(** ** The message list of the current client component *)

Section FindLastMore.
Context {A : Type}.
Variable p : A -> bool.

(** When nothing is found, no element satisfies [p]. *)
Lemma findLastIndex_None (l : list A) : forall j x,
  findLastIndex p l = None -> l !! j = Some x -> p x = false.
Proof.
  induction l as [|y r IH]; intros j x; cbn; [destruct j; discriminate|].
  destruct (findLastIndex p r) eqn:E; [discriminate|].
  destruct (p y) eqn:Ey; [discriminate|]. intros _.
  destruct j as [|j]; cbn; [intros [= <-]; exact Ey|apply IH; reflexivity].
Qed.

(** No element after the index found satisfies [p]. *)
Lemma findLastIndex_max (l : list A) : forall i j x,
  findLastIndex p l = Some i -> l !! j = Some x -> p x = true -> (j <= i)%nat.
Proof.
  induction l as [|y r IH]; intros i j x; cbn; [discriminate|].
  destruct (findLastIndex p r) as [k|] eqn:E.
  - intros [= <-]. destruct j as [|j]; [lia|]. cbn. intros Hj Hx.
    specialize (IH k j x eq_refl Hj Hx). lia.
  - destruct (p y); [|discriminate]. intros [= <-].
    destruct j as [|j]; [lia|]. cbn. intros Hj Hx.
    rewrite (findLastIndex_None r j x E Hj) in Hx. discriminate Hx.
Qed.

(** A change that keeps [p] keeps the index found. *)
Lemma findLastIndex_alter (f : A -> A) (i : nat) (l : list A) :
  (forall x, p (f x) = p x) -> findLastIndex p (alter f i l) = findLastIndex p l.
Proof.
  intros Hf. revert i. induction l as [|y r IH]; intros i; [reflexivity|].
  destruct i as [|i]; cbn.
  - rewrite Hf. reflexivity.
  - change (list_alter f i r) with (alter f i r). rewrite IH. reflexivity.
Qed.

(** Pushing an element. *)
Lemma findLastIndex_snoc (l : list A) (x : A) :
  findLastIndex p (l ++ [x]) = if p x then Some (length l) else findLastIndex p l.
Proof.
  induction l as [|y r IH]; cbn; [destruct (p x); reflexivity|].
  rewrite IH. destruct (p x); [reflexivity|]. reflexivity.
Qed.

End FindLastMore.

Section ChatFacts.
Import App Chat.

Variable JSON_parse : string -> result json.
Variable toString : option json -> result string.
Variable plus_other : value -> option json -> result value.
Variable blobUrl : json -> json -> option string.
Variable message_of : js_error -> string.

#[local] Abbreviation update := (gemini_update plus_other blobUrl).
#[local] Abbreviation handle :=
  (onmessage JSON_parse toString plus_other blobUrl message_of).
#[local] Abbreviation extends := (Chat.extends plus_other).
#[local] Abbreviation grows := (Chat.grows plus_other).

(** The four things [gemini_update] can do. *)
Lemma gemini_update_cases (data : json) (prev : list message) :
  update data prev = ret prev \/
  (exists i, findLastIndex is_bot_text prev = Some i /\
             complete_at prev (Some i) = false /\
             update data prev = add_content plus_other (get data "data") i prev) \/
  (exists new, update data prev
               = ret (close_open prev (findLastIndex is_bot prev) ++ [new]) /\
               is_bot new = true /\
               (turnComplete new = false -> is_bot_text new = true)) \/
  (is_string (get data "type") "turnComplete" = true /\
   update data prev = ret (close_open prev (findLastIndex is_bot prev))).
Proof.
  unfold gemini_update.
  destruct (is_string (get data "type") "text").
  { destruct (findLastIndex is_bot_text prev) as [i|] eqn:E.
    - destruct (complete_at prev (Some i)) eqn:Ec; cbn [negb].
      + right. right. left. eexists. split; [reflexivity|]. auto.
      + right. left. eauto.
    - right. right. left. eexists. split; [reflexivity|]. auto. }
  destruct (is_string (get data "type") "audio" && truthy (get data "data")
            && truthy (bind_get (get data "data") "audio")
            && truthy (bind_get (get data "data") "mimeType")).
  { destruct (bind_get (get data "data") "audio") as [a|]; [|left; reflexivity].
    destruct (bind_get (get data "data") "mimeType") as [m|]; [|left; reflexivity].
    destruct (blobUrl a m) as [url|]; [|left; reflexivity].
    right. right. left. eexists. split; [reflexivity|]. split; [reflexivity|].
    intros [=]. }
  destruct (is_string (get data "type") "turnComplete"); [|left; reflexivity].
  right. right. right. auto.
Qed.

(** When [+=] returns, one message has a new content. *)
Lemma add_content_ret (v : option json) (i : nat) (msgs new : list message) :
  add_content plus_other v i msgs = ret new ->
  exists msg c, msgs !! i = Some msg /\
                plus plus_other (content msg) v = ret c /\
                new = alter (set_content c) i msgs.
Proof.
  unfold add_content. destruct (msgs !! i) as [msg|] eqn:E; [|discriminate].
  destruct (plus plus_other (content msg) v) as [e|c] eqn:Ep; [discriminate|].
  cbn [bind ret]. intros [= <-]. exists msg, c. split; [reflexivity|].
  split; [exact Ep|]. clear Ep. revert i E.
  induction msgs as [|y r IH]; intros [|i] E; cbn in E; try discriminate.
  - injection E as ->. reflexivity.
  - cbn. f_equal. apply IH, E.
Qed.

(** Two facts on the concatenation of strings. *)
Lemma append_empty (s : string) : (s ++ "")%string = s.
Proof.
  induction s as [|c s IH]; [reflexivity|].
  change (String c (s ++ "") = String c s)%string. f_equal. exact IH.
Qed.

Lemma append_append (a b c : string) : ((a ++ b) ++ c)%string = (a ++ (b ++ c))%string.
Proof.
  induction a as [|x a IH]; [reflexivity|].
  change (String x ((a ++ b) ++ c) = String x (a ++ (b ++ c)))%string.
  f_equal. exact IH.
Qed.

(** Nothing is added after an exception. *)
Lemma adds_thrown (vs : list (option json)) (e : js_error) :
  fold_left (fun acc v => let* c := acc in plus plus_other c v) vs (inl e) = inl e.
Proof. induction vs as [|v r IH]; [reflexivity|exact IH]. Qed.

Lemma adds_app (c m : value) (a b : list (option json)) :
  adds plus_other c a = ret m ->
  adds plus_other c (a ++ b) = adds plus_other m b.
Proof. unfold adds. intros H. rewrite fold_left_app, H. reflexivity. Qed.

(** On strings, [+=] appends. *)
Lemma adds_strings (fs : list string) : forall c : string,
  adds plus_other (str c) (map (fun f => Some (JStr f)) fs) = ret (str (joined c fs)).
Proof.
  induction fs as [|f r IH]; intros c; [reflexivity|].
  cbn [map].
  change (Some (JStr f) :: map (fun f => Some (JStr f)) r)
    with ([Some (JStr f)] ++ map (fun f => Some (JStr f)) r).
  rewrite (adds_app (str c) (str (c ++ f)) [Some (JStr f)]) by reflexivity.
  apply IH.
Qed.

Lemma extends_refl (msg : message) : extends msg msg.
Proof. repeat split; auto. exists []. reflexivity. Qed.

Lemma extends_trans (a b c : message) : extends a b -> extends b c -> extends a c.
Proof.
  intros (S1 & T1 & E1 & [x X1] & C1) (S2 & T2 & E2 & [y X2] & C2).
  split; [congruence|]. split; [congruence|]. split; [congruence|]. split.
  - exists (x ++ y). rewrite (adds_app _ _ x y X1). exact X2.
  - intros Ha. rewrite <- (C1 Ha). apply C2. rewrite (C1 Ha). exact Ha.
Qed.

Lemma grows_refl (msgs : list message) : grows msgs msgs.
Proof. split; [lia|]. intros i msg H. exists msg. split; [exact H|apply extends_refl]. Qed.

Lemma grows_trans (a b c : list message) : grows a b -> grows b c -> grows a c.
Proof.
  intros [L1 H1] [L2 H2]. split; [lia|]. intros i msg Hi.
  destruct (H1 i msg Hi) as (m1 & Hm1 & E1).
  destruct (H2 i m1 Hm1) as (m2 & Hm2 & E2).
  exists m2. split; [exact Hm2|]. eapply extends_trans; eassumption.
Qed.

Lemma grows_app (msgs : list message) (x : message) : grows msgs (msgs ++ [x]).
Proof.
  split; [rewrite length_app; lia|]. intros i msg Hi. exists msg.
  split; [apply lookup_app_l_Some, Hi|apply extends_refl].
Qed.

(** Changing the message at [i]. *)
Lemma grows_alter (f : message -> message) (i : nat) (msgs : list message) :
  (forall msg, msgs !! i = Some msg -> extends msg (f msg)) ->
  grows msgs (alter f i msgs).
Proof.
  intros Hf. split; [rewrite length_alter; lia|]. intros j msg Hj.
  destruct (decide (j = i)) as [->|Hne].
  - exists (f msg). rewrite list_lookup_alter_eq, Hj. split; [reflexivity|].
    apply Hf, Hj.
  - exists msg. rewrite list_lookup_alter_ne by congruence.
    split; [exact Hj|apply extends_refl].
Qed.

Lemma extends_add (v : option json) (c : value) (msg : message) :
  turnComplete msg = false -> plus plus_other (content msg) v = ret c ->
  extends msg (set_content c msg).
Proof.
  intros Ho Hp. repeat split; [|congruence].
  exists [v]. unfold adds. cbn [fold_left bind ret]. exact Hp.
Qed.

Lemma extends_close (msg : message) :
  turnComplete msg = false -> extends msg (set_turnComplete msg).
Proof.
  intros Ho. repeat split; [|congruence]. exists []. reflexivity.
Qed.

(** Closing the open message, if any, is a growth of the list. *)
Lemma grows_close_open (msgs : list message) (i : option nat) :
  grows msgs (close_open msgs i).
Proof.
  unfold close_open. destruct i as [n|]; [|apply grows_refl].
  destruct (complete_at msgs (Some n)) eqn:E; [apply grows_refl|].
  apply grows_alter. intros msg Hmsg. apply extends_close.
  cbn in E. rewrite Hmsg in E. exact E.
Qed.

Lemma length_close_open (msgs : list message) (i : option nat) :
  length (close_open msgs i) = length msgs.
Proof.
  unfold close_open. destruct i as [n|]; [|reflexivity].
  destruct (complete_at msgs (Some n)); [reflexivity|apply length_alter].
Qed.

Lemma gemini_update_grows (data : json) (prev new : list message) :
  update data prev = ret new ->
  grows prev new /\ (length new <= S (length prev))%nat.
Proof.
  destruct (gemini_update_cases data prev)
    as [->|[(i & Hi & Hc & ->)|[(x & -> & _)|[_ ->]]]].
  - intros [= <-]. split; [apply grows_refl|lia].
  - intros H. apply add_content_ret in H as (msg & c & Hmsg & Hp & ->).
    split; [|rewrite length_alter; lia].
    apply grows_alter. intros msg0 Hmsg0.
    assert (msg0 = msg) as -> by congruence.
    apply (extends_add (get data "data")); [|exact Hp].
    cbn in Hc. rewrite Hmsg in Hc. exact Hc.
  - intros [= <-]. split; [|rewrite length_app, length_close_open; cbn; lia].
    eapply grows_trans; [apply grows_close_open|apply grows_app].
  - intros [= <-]. split; [apply grows_close_open|rewrite length_close_open; lia].
Qed.

Lemma onmessage_grows (event_data : string) (prev new : list message) :
  handle event_data prev = ret new ->
  grows prev new /\ (length new <= S (length prev))%nat.
Proof.
  unfold onmessage.
  destruct (bind (JSON_parse event_data) _) as [e|[data from]].
  { intros [= <-]. split; [apply grows_app|rewrite length_app; cbn; lia]. }
  destruct (is_string from "gemini"); [apply gemini_update_grows|].
  destruct (is_string from "backend" && is_string (get data "type") "error").
  - destruct (string_of toString (get data "data")) as [e|reported]; [discriminate|].
    intros [= <-]. split; [apply grows_app|rewrite length_app; cbn; lia].
  - intros [= <-]. split; [apply grows_refl|lia].
Qed.

(** Nothing is handled after an exception. *)
Lemma run_thrown (events : list string) (e : js_error) :
  fold_left (fun acc event_data => let* messages := acc in handle event_data messages)
    events (inl e) = inl e.
Proof. induction events as [|x r IH]; [reflexivity|exact IH]. Qed.

(** A run that returns has returned at every event. *)
Lemma run_cons (event_data : string) (events : list string) (prev new : list message) :
  run JSON_parse toString plus_other blobUrl message_of (event_data :: events) prev
  = ret new ->
  exists mid,
    handle event_data prev = ret mid /\
    run JSON_parse toString plus_other blobUrl message_of events mid = ret new.
Proof.
  unfold run. cbn [fold_left bind ret].
  destruct (handle event_data prev) as [e|mid]; [rewrite run_thrown; discriminate|].
  eauto.
Qed.


(** A [turnComplete] message closes the last message of the assistant. *)
Lemma gemini_update_turnComplete (data : json) (prev : list message) :
  is_string (get data "type") "turnComplete" = true ->
  update data prev = ret (close_open prev (findLastIndex is_bot prev)).
Proof.
  intros H. unfold gemini_update.
  destruct (get data "type") as [[| | |x| |]|]; try discriminate H.
  cbn in H. apply String.eqb_eq in H. subst x. reflexivity.
Qed.

(** A message of the list after [close_open] is a message of the list
    before, or the closed copy of the one that was open. *)
Lemma lookup_close_open (msgs : list message) (i : option nat) (j : nat)
  (msg : message) :
  close_open msgs i !! j = Some msg ->
  msgs !! j = Some msg \/
  (i = Some j /\ exists msg0, msgs !! j = Some msg0 /\ turnComplete msg0 = false /\
                              msg = set_turnComplete msg0).
Proof.
  unfold close_open. destruct i as [n|]; [|auto].
  destruct (complete_at msgs (Some n)) eqn:E; [auto|].
  destruct (decide (n = j)) as [->|Hne].
  - rewrite list_lookup_alter_eq. destruct (msgs !! j) as [msg0|] eqn:Ej; [|discriminate].
    cbn in E. rewrite Ej in E. intros [= <-]. right. eauto.
  - rewrite list_lookup_alter_ne by exact Hne. auto.
Qed.

(** Under [one_open], closing the last message of the assistant closes
    every message. *)
Lemma close_open_all_closed (msgs : list message) :
  one_open msgs -> all_closed (close_open msgs (findLastIndex is_bot msgs)).
Proof.
  intros H j msg Hj. destruct (turnComplete msg) eqn:Ho; [reflexivity|].
  pose proof Hj as Hj0.
  apply lookup_close_open in Hj0 as [Hj0|(_ & msg0 & _ & _ & ->)]; [|discriminate Ho].
  destruct (H j msg Hj0 Ho) as [_ Hlast].
  rewrite Hlast in Hj. unfold close_open, complete_at in Hj.
  rewrite Hj0, Ho, list_lookup_alter_eq, Hj0 in Hj. cbn in Hj.
  injection Hj as Hj. rewrite <- Hj in Ho. discriminate Ho.
Qed.

Lemma all_closed_one_open (msgs : list message) : all_closed msgs -> one_open msgs.
Proof. intros H i msg Hi Ho. rewrite (H i msg Hi) in Ho. discriminate Ho. Qed.

(** A message of the assistant pushed on a list with no open message. *)
Lemma one_open_push (msgs : list message) (new : message) :
  all_closed msgs -> is_bot new = true ->
  (turnComplete new = false -> is_bot_text new = true) ->
  one_open (msgs ++ [new]).
Proof.
  intros Hc Hb Ht i msg Hi Ho.
  apply lookup_app_Some in Hi as [Hi|[Hlen Hi]].
  { rewrite (Hc i msg Hi) in Ho. discriminate Ho. }
  destruct (i - length msgs)%nat as [|k] eqn:E; [|destruct k; discriminate Hi].
  cbn in Hi. injection Hi as <-. split; [exact (Ht Ho)|].
  rewrite findLastIndex_snoc, Hb. f_equal. lia.
Qed.

Lemma one_open_content (c : value) (i : nat) (msgs : list message) :
  one_open msgs -> one_open (alter (set_content c) i msgs).
Proof.
  intros H j msg Hj Ho.
  rewrite findLastIndex_alter by reflexivity.
  destruct (decide (i = j)) as [->|Hne].
  - rewrite list_lookup_alter_eq in Hj.
    destruct (msgs !! j) as [msg0|] eqn:E; [|discriminate Hj].
    injection Hj as <-. exact (H j msg0 E Ho).
  - rewrite list_lookup_alter_ne in Hj by exact Hne. exact (H j msg Hj Ho).
Qed.

Lemma gemini_update_one_open (data : json) (prev new : list message) :
  one_open prev -> update data prev = ret new -> one_open new.
Proof.
  intros H.
  destruct (gemini_update_cases data prev)
    as [->|[(i & _ & _ & ->)|[(x & -> & Hb & Ht)|[_ ->]]]].
  - intros [= <-]. exact H.
  - intros Hn. apply add_content_ret in Hn as (msg & c & _ & _ & ->).
    apply one_open_content, H.
  - intros [= <-].
    apply one_open_push; [apply close_open_all_closed, H|exact Hb|exact Ht].
  - intros [= <-]. apply all_closed_one_open, close_open_all_closed, H.
Qed.

Lemma deliver_one_open (datas : list json) : forall prev new : list message,
  one_open prev -> deliver plus_other blobUrl datas prev = ret new -> one_open new.
Proof.
  induction datas as [|d datas IH]; intros prev new H.
  - intros [= <-]. exact H.
  - rewrite deliver_cons.
    destruct (update d prev) as [e|mid] eqn:E; [discriminate|]. cbn [bind].
    apply IH. exact (gemini_update_one_open d prev mid H E).
Qed.

(** X18. At most one message is open. If the only open message of the
    list, if any, is a text of the assistant and is the last message of
    the assistant, the same holds of the list after any sequence of
    messages of the AI whose updates return; a [turnComplete] message
    after them is handled without exception, and every message is
    complete then. *)
Theorem at_most_one_open_message (datas : list json) (last : json)
  (prev mid : list message) :
  one_open prev ->
  deliver plus_other blobUrl datas prev = ret mid ->
  one_open mid /\
  (is_string (get last "type") "turnComplete" = true ->
   exists final,
     deliver plus_other blobUrl (datas ++ [last]) prev = ret final /\
     all_closed final).
Proof.
  intros H Hmid. pose proof (deliver_one_open datas prev mid H Hmid) as H'.
  split; [exact H'|]. intros Hlast.
  exists (close_open mid (findLastIndex is_bot mid)). split.
  - rewrite deliver_app, Hmid. cbn [bind ret]. rewrite deliver_cons.
    rewrite (gemini_update_turnComplete last mid Hlast). reflexivity.
  - apply close_open_all_closed, H'.
Qed.

Lemma findLastIndex_close_open (msgs : list message) (i : option nat) :
  findLastIndex is_bot (close_open msgs i) = findLastIndex is_bot msgs.
Proof.
  unfold close_open. destruct i as [n|]; [|reflexivity].
  destruct (complete_at msgs (Some n)); [reflexivity|].
  apply findLastIndex_alter. reflexivity.
Qed.

Lemma alter_twice (f : message -> message) (n : nat) (msgs : list message) :
  (forall x, f (f x) = f x) -> alter f n (alter f n msgs) = alter f n msgs.
Proof.
  intros Hf. revert n. induction msgs as [|y r IH]; intros n; [reflexivity|].
  destruct n as [|n]; cbn; [rewrite Hf; reflexivity|].
  change (list_alter f n) with (alter f n). rewrite IH. reflexivity.
Qed.

Lemma close_open_twice (msgs : list message) (i : option nat) :
  close_open (close_open msgs i) i = close_open msgs i.
Proof.
  destruct i as [n|]; [|reflexivity]. unfold close_open at 2 3.
  destruct (complete_at msgs (Some n)) eqn:E.
  - unfold close_open. rewrite E. reflexivity.
  - unfold close_open.
    destruct (complete_at (alter set_turnComplete n msgs) (Some n)); [reflexivity|].
    apply alter_twice. reflexivity.
Qed.

(** X19. A repeated [turnComplete] message changes nothing: both are
    handled without exception, and the second of two in a row leaves the
    list as the first left it. *)
Theorem repeated_turnComplete_is_harmless (data data' : json) (prev : list message) :
  is_string (get data "type") "turnComplete" = true ->
  is_string (get data' "type") "turnComplete" = true ->
  exists once,
    update data prev = ret once /\ update data' once = ret once.
Proof.
  intros H H'. exists (close_open prev (findLastIndex is_bot prev)).
  split; [apply (gemini_update_turnComplete data prev H)|].
  rewrite (gemini_update_turnComplete data' _ H').
  rewrite findLastIndex_close_open, close_open_twice. reflexivity.
Qed.

(** The changes [gemini_update] makes keep [sealed]. *)
Lemma sealed_alter (f : message -> message) (pre msgs : list message) (i : nat) :
  (length pre <= i)%nat -> (forall x, is_bot_text (f x) = is_bot_text x) ->
  sealed pre msgs -> sealed pre (alter f i msgs).
Proof.
  intros Hi Hf [Ht (j & x & Hj & Hx & Hb)]. split.
  - rewrite take_alter. destruct (decide (i < length pre)%nat); [lia|exact Ht].
  - destruct (decide (i = j)) as [->|Hne].
    + exists j, (f x). rewrite list_lookup_alter_eq, Hx, Hf. auto.
    + exists j, x. rewrite list_lookup_alter_ne by exact Hne. auto.
Qed.

Lemma sealed_push (pre msgs : list message) (new : message) :
  sealed pre msgs -> sealed pre (msgs ++ [new]).
Proof.
  intros [Ht (j & x & Hj & Hx & Hb)]. split.
  - rewrite take_app_le; [exact Ht|]. apply lookup_lt_Some in Hx. lia.
  - exists j, x. rewrite lookup_app_l by (apply lookup_lt_Some in Hx; exact Hx). auto.
Qed.

Lemma sealed_close_open (pre msgs : list message) :
  sealed pre msgs -> sealed pre (close_open msgs (findLastIndex is_bot msgs)).
Proof.
  intros H. unfold close_open.
  destruct (findLastIndex is_bot msgs) as [k|] eqn:E; [|exact H].
  destruct (complete_at msgs (Some k)); [exact H|].
  apply sealed_alter; [|reflexivity|exact H].
  destruct H as [_ (j & x & Hj & Hx & Hb)].
  pose proof (findLastIndex_max is_bot msgs k j x E Hx (is_bot_text_bot x Hb)). lia.
Qed.

Lemma gemini_update_sealed (data : json) (pre prev new : list message) :
  sealed pre prev -> update data prev = ret new -> sealed pre new.
Proof.
  intros H.
  destruct (gemini_update_cases data prev)
    as [->|[(i & Hi & _ & ->)|[(x & -> & _)|[_ ->]]]].
  - intros [= <-]. exact H.
  - intros Hn. apply add_content_ret in Hn as (msg & c & _ & _ & ->).
    apply sealed_alter; [|reflexivity|exact H].
    destruct H as [_ (j & x & Hj & Hx & Hb)].
    pose proof (findLastIndex_max is_bot_text prev i j x Hi Hx Hb). lia.
  - intros [= <-]. apply sealed_push, sealed_close_open, H.
  - intros [= <-]. apply sealed_close_open, H.
Qed.

Lemma onmessage_sealed (event_data : string) (pre prev new : list message) :
  sealed pre prev -> handle event_data prev = ret new -> sealed pre new.
Proof.
  intros H. unfold onmessage.
  destruct (bind (JSON_parse event_data) _) as [e|[data from]];
    [intros [= <-]; apply sealed_push, H|].
  destruct (is_string from "gemini"); [apply gemini_update_sealed, H|].
  destruct (is_string from "backend" && is_string (get data "type") "error").
  - destruct (string_of toString (get data "data")) as [e|reported]; [discriminate|].
    intros [= <-]. apply sealed_push, H.
  - intros [= <-]. exact H.
Qed.

Lemma run_sealed (events : list string) (pre : list message) :
  forall prev new, sealed pre prev ->
  run JSON_parse toString plus_other blobUrl message_of events prev = ret new ->
  sealed pre new.
Proof.
  induction events as [|e events IH]; intros prev new H Hrun.
  - injection Hrun as <-. exact H.
  - apply run_cons in Hrun as (mid & H1 & H2).
    exact (IH mid new (onmessage_sealed e pre prev mid H H1) H2).
Qed.

(** X20. Nothing before the latest text message of the assistant ever
    changes again, complete or not, in any list the component reaches.
    In particular, when an error report (itself a text message of the
    assistant) arrives while a message is open, that message is never
    continued and never marked complete: the rest of the turn goes into
    a new message. *)
Theorem messages_before_the_last_reply_are_frozen (events : list string)
  (pre post new : list message) (m : message) :
  is_bot_text m = true ->
  run JSON_parse toString plus_other blobUrl message_of events (pre ++ m :: post)
  = ret new ->
  take (length pre) new = pre.
Proof.
  intros Hm Hrun. apply (run_sealed events pre (pre ++ m :: post) new); [|exact Hrun].
  split.
  - rewrite take_app_length. reflexivity.
  - exists (length pre), m. rewrite list_lookup_middle by reflexivity. auto.
Qed.

(** The changes of the list keep [textual]. *)
Lemma textual_alter (f : message -> message) (i : nat) (msgs : list message) :
  (forall msg, (exists s, content msg = str s) -> exists s, content (f msg) = str s) ->
  textual msgs -> textual (alter f i msgs).
Proof.
  intros Hf H j msg Hj. destruct (decide (i = j)) as [->|Hne].
  - rewrite list_lookup_alter_eq in Hj.
    destruct (msgs !! j) as [msg0|] eqn:E; [|discriminate Hj].
    injection Hj as <-. apply Hf. exact (H j msg0 E).
  - rewrite list_lookup_alter_ne in Hj by exact Hne. exact (H j msg Hj).
Qed.

Lemma textual_close_open (msgs : list message) (i : option nat) :
  textual msgs -> textual (close_open msgs i).
Proof.
  intros H. unfold close_open. destruct i as [n|]; [|exact H].
  destruct (complete_at msgs (Some n)); [exact H|].
  apply textual_alter; [|exact H]. intros msg Hs. exact Hs.
Qed.

Lemma textual_push (msgs : list message) (new : message) (s : string) :
  content new = str s -> textual msgs -> textual (msgs ++ [new]).
Proof.
  intros Hn H j msg Hj. apply lookup_app_Some in Hj as [Hj|[_ Hj]]; [exact (H j msg Hj)|].
  destruct (j - length msgs)%nat as [|k]; [|destruct k; discriminate Hj].
  injection Hj as <-. eauto.
Qed.

(** A message of the backend on a list of strings: handled without
    exception, and the contents are strings again. *)
Lemma onmessage_backend (event_data : string) (m : server_msg) (prev : list message) :
  JSON_parse event_data = ret (encode message_of m) -> textual prev ->
  exists new, handle event_data prev = ret new /\ textual new.
Proof.
  intros Hp Ht. unfold onmessage. rewrite Hp.
  destruct m as [data|a mime| |prefix error fallback]; cbn [bind ret encode prop get field
    String.eqb Ascii.eqb Bool.eqb is_string andb].
  - (* text *)
    unfold gemini_update. cbn [get field String.eqb Ascii.eqb Bool.eqb is_string].
    destruct (findLastIndex is_bot_text prev) as [i|] eqn:E.
    + destruct (complete_at prev (Some i)) eqn:Ec; cbn [negb].
      * eexists. split; [reflexivity|].
        eapply textual_push; [reflexivity|]. apply textual_close_open, Ht.
      * destruct (findLastIndex_Some is_bot_text prev i E) as (msg & Hmsg & _).
        destruct (Ht i msg Hmsg) as [c Hc].
        unfold add_content. rewrite Hmsg. unfold plus. rewrite Hc.
        cbn [str bind ret]. eexists. split; [reflexivity|].
        intros j x Hj. destruct (decide (i = j)) as [->|Hne].
        -- rewrite list_lookup_insert_eq in Hj by (apply lookup_lt_Some in Hmsg; exact Hmsg).
           injection Hj as <-. eexists. reflexivity.
        -- rewrite list_lookup_insert_ne in Hj by exact Hne. exact (Ht j x Hj).
    + eexists. split; [reflexivity|].
      eapply textual_push; [reflexivity|]. apply textual_close_open, Ht.
  - (* audio *)
    unfold gemini_update. cbn [get field String.eqb Ascii.eqb Bool.eqb is_string
                                 bind_get truthy andb].
    destruct (negb (a =? "")%string && negb (mime =? "")%string);
      cbn [andb]; [|eexists; split; [reflexivity|exact Ht]].
    destruct (blobUrl (JStr a) (JStr mime)) as [url|];
      [|eexists; split; [reflexivity|exact Ht]].
    eexists. split; [reflexivity|].
    eapply textual_push; [reflexivity|]. apply textual_close_open, Ht.
  - (* turnComplete *)
    unfold gemini_update. cbn [get field String.eqb Ascii.eqb Bool.eqb is_string].
    eexists. split; [reflexivity|]. apply textual_close_open, Ht.
  - (* error report *)
    cbn [string_of bind ret]. eexists. split; [reflexivity|].
    eapply textual_push; [reflexivity|exact Ht].
Qed.

(** X23. What the backend sends never stops the client. For events that
    are the JSON texts of messages of the backend (text, audio,
    [turnComplete], error report), in any order, on a list whose
    contents are strings, every event is handled without exception, and
    the contents of the list reached are strings again. *)
Theorem backend_messages_are_handled (events : list string) (ms : list server_msg) :
  forall prev : list message,
  Forall2 (fun event_data m => JSON_parse event_data = ret (encode message_of m))
    events ms ->
  textual prev ->
  exists new,
    run JSON_parse toString plus_other blobUrl message_of events prev = ret new /\
    textual new.
Proof.
  revert ms. induction events as [|e events IH]; intros ms prev Hall Ht.
  - exists prev. split; [reflexivity|exact Ht].
  - destruct ms as [|m ms]; [apply Forall2_cons_nil_inv in Hall; contradiction|].
    apply Forall2_cons_1 in Hall as [Hm Hrest].
    destruct (onmessage_backend e m prev Hm Ht) as (mid & Hmid & Htm).
    destruct (IH ms mid Hrest Htm) as (new & Hnew & Htn).
    exists new. split; [|exact Htn].
    unfold run in *. cbn [fold_left bind ret]. rewrite Hmid. exact Hnew.
Qed.

End ChatFacts.

(** ** [truncateAudioData], applied twice *)

Module TruncateTwice.
Import Truncate.

#[local] Open Scope nat_scope.

(** The first characters of a concatenation. *)
Lemma substring_prefix (a b : string) :
  substring 0 (String.length a) (a ++ b) = a.
Proof.
  induction a as [|c a IH]; [destruct b; reflexivity|].
  change (String c (substring 0 (String.length a) (a ++ b)) = String c a)%string.
  f_equal. exact IH.
Qed.

Lemma length_substring (n : nat) : forall s : string,
  n <= String.length s -> String.length (substring 0 n s) = n.
Proof.
  induction n as [|n IH]; intros s Hn; [destruct s; reflexivity|].
  destruct s as [|c s]; cbn in *; [lia|]. rewrite IH by lia. reflexivity.
Qed.

(** Cutting a string that has been cut gives the same string. *)
Lemma cut_cut (M : Z) (s : string) :
  (M < Z.of_nat (String.length s))%Z -> cut M (cut M s) = cut M s.
Proof.
  intros Hlen. unfold cut. f_equal.
  rewrite <- (length_substring (Z.to_nat M) s) at 1 by lia.
  apply substring_prefix.
Qed.

Lemma eligible_length (M : Z) (k : key) (s : string) :
  eligible M k s = true -> (M < Z.of_nat (String.length s))%Z.
Proof.
  unfold eligible. intros H. apply andb_prop in H as [H _].
  apply andb_prop in H as [_ H]. apply Z.ltb_lt in H. exact H.
Qed.

(** A string under an audio key, truncated twice. *)
Lemma tr_string_twice (M : Z) (k : key) (s : string) :
  let s' := if eligible M k s then cut M s else s in
  (if eligible M k s' then cut M s' else s') = s'.
Proof.
  cbv zeta. destruct (eligible M k s) eqn:E.
  - destruct (eligible M k (cut M s)); [|reflexivity].
    apply cut_cut. eapply eligible_length, E.
  - rewrite E. reflexivity.
Qed.

Lemma map_twice {A} (f : A -> A) (l : list A) :
  Forall (fun x => f (f x) = f x) l -> map f (map f l) = map f l.
Proof.
  induction 1 as [|x r Hx _ IH]; cbn; [reflexivity|]. rewrite Hx, IH. reflexivity.
Qed.

Lemma tr_field_twice (M : Z) (kv : string * json) :
  truncated M (truncated M kv.2) = truncated M kv.2 ->
  tr_field M (tr_field M kv) = tr_field M kv.
Proof.
  destruct kv as [k x]. unfold tr_field. cbn [fst snd]. intros Hx. f_equal.
  destruct x as [| b | q | s | elems | fs]; try reflexivity; try exact Hx.
  pose proof (tr_string_twice M (Name k) s) as H. cbv zeta in H.
  destruct (eligible M (Name k) s) eqn:E.
  - destruct (eligible M (Name k) (cut M s)); [rewrite H|]; reflexivity.
  - rewrite E. reflexivity.
Qed.

(** On trees, truncating twice is truncating once. *)
Lemma truncated_twice (M : Z) : forall t, truncated M (truncated M t) = truncated M t.
Proof.
  apply TruncateFacts.json_nested_ind; try reflexivity.
  - intros elems Hall. cbn. f_equal. apply map_twice, Hall.
  - intros fields Hall.
    change (JObj (map (tr_field M) (map (tr_field M) fields))
            = JObj (map (tr_field M) fields)).
    f_equal. apply map_twice.
    eapply Forall_impl; [exact Hall|]. intros kv. apply tr_field_twice.
Qed.

(** X21. [truncateAudioData] applied to its own result gives a new
    object that reads the same: a string that has been cut is already
    the first [maxLength] characters followed by the marker, so it is
    cut to itself if at all. Neither call changes the object it is
    given: the first result and the original argument still read as
    they did. *)
Theorem truncateAudioData_twice (fuel : nat) (h : heap) (l : loc) (t : json) (M : Z) :
  stringify fuel h (VRef l) = Some t ->
  exists r1 h1 r2 h2,
    truncateAudioData fuel (VRef l) M h = Some (r1, h1) /\
    truncateAudioData fuel r1 M h1 = Some (r2, h2) /\
    stringify fuel h1 r1 = Some (truncated M t) /\
    stringify fuel h2 r2 = Some (truncated M t) /\
    stringify fuel h2 r1 = Some (truncated M t) /\
    stringify fuel h2 (VRef l) = Some t.
Proof.
  intros Hs.
  destruct (TruncateFacts.truncateAudioData_object fuel h l t M Hs)
    as (l1 & h1 & E1 & _ & _ & A1 & S1).
  destruct (TruncateFacts.truncateAudioData_object fuel h1 l1 (truncated M t) M S1)
    as (l2 & h2 & E2 & _ & T2 & A2 & S2).
  exists (VRef l1), h1, (VRef l2), h2. rewrite truncated_twice in S2.
  repeat split; try assumption.
  rewrite <- T2 in A1.
  rewrite <- (firstn_skipn (length h1) h2).
  apply TruncateFacts.stringify_prefix. exact A1.
Qed.

End TruncateTwice.

(** ** The statements above on concrete runs *)

Section Runs.
Import Backend.

(** CD audio: 44.1 kHz, 16 bits, stereo, a payload of 1000 bytes. *)
Lemma createWavHeader_round_trip_witness :
  wav_in_range 1000 44100 16 2 /\
  exists header,
    createWavHeader 1000 44100 16 2 = inr header /\
    Buf.readUInt32LE header 4 = 1036 /\
    Buf.readUInt16LE header 22 = 2 /\
    Buf.readUInt32LE header 24 = 44100 /\
    Buf.readUInt32LE header 28 = 176400 /\
    Buf.readUInt16LE header 32 = 4 /\
    Buf.readUInt32LE header 40 = 1000.
Proof.
  assert (wav_in_range 1000 44100 16 2) as H by (unfold wav_in_range; lia).
  split; [exact H|].
  destruct (createWavHeader_round_trip 1000 44100 16 2 H)
    as (header & E & _ & _ & _ & H4 & _ & _ & _ & H22 & H24 & H28 & H32 & _ & _ & H40).
  exists header. split; [exact E|]. split; [exact H4|]. split; [exact H22|].
  split; [exact H24|]. split; [exact H28|]. split; [exact H32|exact H40].
Defined.

(** A turn in two messages: a text and an audio chunk, then a text and
    the end of the turn. *)
Lemma turn_is_relayed_witness :
  let m1 := Samples.message [Samples.text_part "Hel";
                             Samples.audio_part (Some "GkXfow==")] false in
  let m2 := Samples.message [Samples.text_part "lo"] true in
  clientStateMap Scenario.connected !! 1%positive = Some (idle [] "" false) /\
  trace (env (Connection.relay Samples.decode 1%positive [m1; m2] Scenario.connected)) =
    [WsSend 1%positive (MsgText "Hel"); WsSend 1%positive (MsgText "lo");
     WsSend 1%positive
       (MsgAudio (Buf.toString_base64 (wav24k 4 ++ [26; 69; 223; 163])) "audio/wav");
     WsSend 1%positive MsgTurnComplete].
Proof.
  cbv zeta.
  assert (clientStateMap Scenario.connected !! 1%positive = Some (idle [] "" false))
    as Hc by (vm_compute; reflexivity).
  split; [exact Hc|].
  destruct (turn_is_relayed Samples.decode 1%positive
              [Samples.message [Samples.text_part "Hel";
                                Samples.audio_part (Some "GkXfow==")] false]
              (Samples.message [Samples.text_part "lo"] true)
              Scenario.connected (idle [] "" false) Hc
              ltac:(repeat constructor) eq_refl ltac:(cbn; lia)) as [Ht _].
  exact Ht.
Defined.

(** From a connection with a running pipeline: another clip, a text,
    and the close of the socket. *)
Lemma open_streams_are_held_witness :
  let events := [Connection.ClientMessage 1%positive Scenario.audio_clip;
                 Connection.ClientMessage 1%positive Scenario.text_hello;
                 Connection.SocketClose 1%positive] in
  Connection.streams_held Scenario.streaming /\
  open_streams
    (env (Connection.run Scenario.parse Scenario.decode Scenario.from_other
            Scenario.parts_of fluent_ffmpeg_pipe_pid events Scenario.streaming)) = ∅.
Proof.
  cbv zeta.
  assert (Connection.streams_held Scenario.streaming) as H.
  { intros s Hs. exists 1%positive, Scenario.streaming_client.
    split; [vm_compute; reflexivity|].
    destruct streaming_state as (_ & _ & _ & Ho & _). rewrite Ho in Hs.
    apply elem_of_union in Hs as [Hs|Hs]; apply elem_of_singleton in Hs; subst s;
      [left|right]; reflexivity. }
  split; [exact H|].
  destruct (open_streams_are_held Scenario.parse Scenario.decode Scenario.from_other
              Scenario.parts_of fluent_ffmpeg_pipe_pid
              [Connection.ClientMessage 1%positive Scenario.audio_clip;
               Connection.ClientMessage 1%positive Scenario.text_hello;
               Connection.SocketClose 1%positive] Scenario.streaming H) as [_ Hempty].
  apply Hempty. vm_compute. reflexivity.
Defined.

(** The events of socket 1 leave socket 2 as it was. *)
Lemma connections_are_isolated_witness :
  let events := [Connection.ClientMessage 1%positive Scenario.audio_clip;
                 Connection.GeminiMessage 1%positive
                   (Samples.message [Samples.audio_part (Some "GkXfow==")] true);
                 Connection.SocketClose 1%positive] in
  let st' := Connection.run Scenario.parse Samples.decode Scenario.from_other
               Scenario.parts_of fluent_ffmpeg_pipe_pid events Samples.two_clients in
  geminiSessionMap st' !! 2%positive = Some 8%positive /\
  clientStateMap st' !! 2%positive = Some (idle [1; 2] "audio/pcm" true).
Proof.
  cbv zeta.
  destruct (connections_are_isolated Scenario.parse Samples.decode Scenario.from_other
              Scenario.parts_of fluent_ffmpeg_pipe_pid
              [Connection.ClientMessage 1%positive Scenario.audio_clip;
               Connection.GeminiMessage 1%positive
                 (Samples.message [Samples.audio_part (Some "GkXfow==")] true);
               Connection.SocketClose 1%positive]
              2%positive Samples.two_clients
              ltac:(repeat constructor; discriminate)) as [H1 H2].
  split; [etrans; [exact H1|]|etrans; [exact H2|]]; vm_compute; reflexivity.
Defined.

(** After the close of socket 1: a text, a message of the AI, a second
    close. *)
Lemma closed_connection_is_inert_witness :
  let events := [Connection.ClientMessage 1%positive Scenario.text_hello;
                 Connection.GeminiMessage 1%positive
                   (Samples.message [Samples.text_part "late"] true);
                 Connection.SocketClose 1%positive] in
  let st0 := cleanupClient 1%positive Scenario.streaming in
  let st' := Connection.run Scenario.parse Scenario.decode Scenario.from_other
               Scenario.parts_of fluent_ffmpeg_pipe_pid events st0 in
  trace (env st') =
    trace (env st0) ++ [WsClose 1%positive 1011 "No active Gemini session"] /\
  clientStateMap st' = clientStateMap st0.
Proof.
  cbv zeta.
  destruct (closed_connection_is_inert Scenario.parse Scenario.decode
              Scenario.from_other Scenario.parts_of fluent_ffmpeg_pipe_pid 1%positive
              [Connection.ClientMessage 1%positive Scenario.text_hello;
               Connection.GeminiMessage 1%positive
                 (Samples.message [Samples.text_part "late"] true);
               Connection.SocketClose 1%positive]
              Scenario.streaming ltac:(repeat constructor)) as (_ & Hc & _ & _ & Ht).
  split; [exact Ht|exact Hc].
Defined.

(** The first clip on a connection. *)
Lemma audio_message_starts_one_pipeline_witness :
  let st' := handleWebSocketMessage Scenario.parse Scenario.decode Scenario.from_other
               Scenario.parts_of fluent_ffmpeg_pipe_pid 1%positive Scenario.audio_clip
               Scenario.connected in
  trace (env st') =
    [FfmpegRun 4000 1%positive 2%positive; StreamEnd 1%positive [26; 69; 223; 163]] /\
  clientStateMap st' !! 1%positive = Some Scenario.streaming_client.
Proof.
  cbv zeta.
  destruct (audio_message_starts_one_pipeline Scenario.parse Scenario.decode
              Scenario.from_other Scenario.parts_of fluent_ffmpeg_pipe_pid 1%positive
              Scenario.audio_clip
              [("type", JStr "audio"); ("audioData", JStr "GkXfow==")] "GkXfow=="
              Scenario.connected (idle [] "" false) 7%positive
              ltac:(vm_compute; reflexivity) ltac:(vm_compute; reflexivity)
              eq_refl eq_refl eq_refl) as [_ H].
  destruct (H ltac:(discriminate)) as (Ht & Hc & _).
  split; [exact Ht|exact Hc].
Defined.

End Runs.

Section PipelineRuns.
Import Backend Pipeline.

(** Two chunks and the end of the transcoding. *)
Lemma clip_is_forwarded_then_closed_witness :
  let x := {| sys := env Scenario.streaming; realtime := [] |} in
  let r := on_events Samples.accepts_input Samples.accepts_content 1%positive
             (Some 7%positive)
             [PcmData 1 [1; 2; 3]; PcmData 1 [4; 5; 6]; PcmEnd; FfmpegEnd]
             (Scenario.streaming_client, x) in
  realtime r.2 =
    [SendRealtimeInput 7%positive "AQID" "audio/pcm;rate=24000";
     SendRealtimeInput 7%positive "BAUG" "audio/pcm;rate=24000"] /\
  trace (sys r.2) =
    trace (env Scenario.streaming) ++ [SendClientContent 7%positive [UserText ""] true].
Proof.
  cbv zeta.
  destruct (clip_is_forwarded_then_closed Samples.accepts_input Samples.accepts_content
              1%positive 7%positive [[1; 2; 3]; [4; 5; 6]] Scenario.streaming_client
              {| sys := env Scenario.streaming; realtime := [] |}
              (fun _ _ => eq_refl) (fun _ => eq_refl)) as (Hr & Ht & _).
  split; [exact Hr|exact Ht].
Defined.

End PipelineRuns.

Section ServerRuns.
Import Server ServerConnection.

(** A text, an audio part without data, and a text that is never sent. *)
Lemma server_aborts_on_audio_without_data_witness :
  let m := Samples.message [Samples.text_part "Hel"; Samples.audio_part None;
                            Samples.text_part "lo"] true in
  let r := onmessage Samples.decode 1%positive m Scenario.server_connected in
  r.1 = throw (ERR_INVALID_ARG_TYPE "first argument") /\
  trace (env r.2) = [WsSend 1%positive (MsgText "Hel")].
Proof.
  cbv zeta.
  destruct (server_aborts_on_audio_without_data Samples.decode 1%positive
              (Samples.message [Samples.text_part "Hel"; Samples.audio_part None;
                                Samples.text_part "lo"] true)
              Scenario.server_connected {| buffer := []; mimeType := "" |}
              [Samples.text_part "Hel"] [Samples.text_part "lo"] (Samples.audio_part None)
              ltac:(vm_compute; reflexivity) eq_refl
              ltac:(repeat constructor; intros (d & [= <-] & _ & [=]))
              ltac:(eexists; repeat split)) as (Ho & Ht & _).
  split; [exact Ho|exact Ht].
Defined.

(** The same message of the AI on both servers: a text, a clip, and the
    end of the turn. *)
Lemma backend_sends_what_server_sends_witness :
  let m := Samples.message [Samples.text_part "Hel";
                            Samples.audio_part (Some "GkXfow==")] true in
  let audio := MsgAudio (Buf.toString_base64 (wav24k 4 ++ [26; 69; 223; 163]))
                 "audio/wav" in
  trace (env (onmessage Samples.decode 1%positive m Scenario.server_connected).2) =
    [WsSend 1%positive (MsgText "Hel"); WsSend 1%positive audio] /\
  trace (Backend.env
           (Backend.handleGeminiMessage Samples.decode 1%positive m Scenario.connected)) =
    [WsSend 1%positive (MsgText "Hel"); WsSend 1%positive audio;
     WsSend 1%positive MsgTurnComplete].
Proof.
  cbv zeta.
  destruct (backend_sends_what_server_sends Samples.decode 1%positive
              (Samples.message [Samples.text_part "Hel";
                                Samples.audio_part (Some "GkXfow==")] true)
              Scenario.server_connected Scenario.connected
              {| buffer := []; mimeType := "" |} (Backend.idle [] "" false)
              eq_refl ltac:(vm_compute; reflexivity) ltac:(vm_compute; reflexivity)
              eq_refl
              ltac:(repeat constructor; intros (d & [= <-] & _ & [=]))
              ltac:(cbn; lia)) as (_ & calls & H1 & H2 & _).
  assert (calls = [WsSend 1%positive (MsgText "Hel");
                   WsSend 1%positive
                     (MsgAudio (Buf.toString_base64 (wav24k 4 ++ [26; 69; 223; 163]))
                        "audio/wav")]) as ->.
  { assert (trace (env (onmessage Samples.decode 1%positive
                          (Samples.message [Samples.text_part "Hel";
                                            Samples.audio_part (Some "GkXfow==")] true)
                          Scenario.server_connected).2) =
            [WsSend 1%positive (MsgText "Hel");
             WsSend 1%positive
               (MsgAudio (Buf.toString_base64 (wav24k 4 ++ [26; 69; 223; 163]))
                  "audio/wav")]) as Hs by (vm_compute; reflexivity).
    rewrite Hs in H1. exact (eq_sym H1). }
  split; [exact H1|exact H2].
Defined.

End ServerRuns.

Section ChatRuns.
Import App Chat.


(** Two text messages that carry the number 5: the content is their
    sum, not a longer text. *)
Example numbers_are_added :
  run Samples.parse Scenario.no_string Samples.plus Scenario.no_blob Scenario.no_message
    [Samples.gemini_five; Samples.gemini_five] []
  = ret [{| sender := bot; type := text; content := Json (Some (JNum 10));
            isError := false; turnComplete := false |}].
Proof. vm_compute. reflexivity. Qed.

(** The three fragments of a reply, then the end of the turn. *)
Lemma at_most_one_open_message_witness :
  let fragments :=
    map (encode Scenario.no_message) [MsgText "Hel"; MsgText "lo"; MsgText " world"] in
  one_open Scenario.user_said_hi /\
  deliver Scenario.no_plus Scenario.no_blob fragments Scenario.user_said_hi
  = ret (Scenario.user_said_hi ++ [open_text "Hello world"]) /\
  one_open (Scenario.user_said_hi ++ [open_text "Hello world"]) /\
  exists final,
    deliver Scenario.no_plus Scenario.no_blob Scenario.hello_world
      Scenario.user_said_hi = ret final /\
    all_closed final.
Proof.
  cbv zeta.
  assert (one_open Scenario.user_said_hi) as H.
  { intros [|i] msg Hi Ho; [|destruct i; discriminate Hi].
    injection Hi as <-. discriminate Ho. }
  assert (deliver Scenario.no_plus Scenario.no_blob
            (map (encode Scenario.no_message)
               [MsgText "Hel"; MsgText "lo"; MsgText " world"])
            Scenario.user_said_hi
          = ret (Scenario.user_said_hi ++ [open_text "Hello world"])) as Hd
    by (vm_compute; reflexivity).
  split; [exact H|]. split; [exact Hd|].
  destruct (at_most_one_open_message Scenario.no_plus Scenario.no_blob
              (map (encode Scenario.no_message)
                 [MsgText "Hel"; MsgText "lo"; MsgText " world"])
              (encode Scenario.no_message MsgTurnComplete)
              Scenario.user_said_hi _ H Hd) as [Ho Hc].
  split; [exact Ho|exact (Hc eq_refl)].
Defined.

Lemma repeated_turnComplete_is_harmless_witness :
  let done := encode Scenario.no_message MsgTurnComplete in
  is_string (get done "type") "turnComplete" = true /\
  exists once,
    gemini_update Scenario.no_plus Scenario.no_blob done [open_text "hi"] = ret once /\
    gemini_update Scenario.no_plus Scenario.no_blob done once = ret once.
Proof.
  cbv zeta. split; [reflexivity|].
  exact (repeated_turnComplete_is_harmless Scenario.no_plus Scenario.no_blob
           (encode Scenario.no_message MsgTurnComplete)
           (encode Scenario.no_message MsgTurnComplete)
           [open_text "hi"] eq_refl eq_refl).
Defined.

(** After the error report, the reply that was open is never touched
    again. *)
Lemma messages_before_the_last_reply_are_frozen_witness :
  let new := [open_text "Hel"; error_message "Erro do Backend: boom"; closed_text "lo"] in
  is_bot_text (error_message "Erro do Backend: boom") = true /\
  run Samples.parse Scenario.no_string Samples.plus Scenario.no_blob Scenario.no_message
    [Samples.gemini_text; Samples.gemini_done]
    ([open_text "Hel"] ++ [error_message "Erro do Backend: boom"]) = ret new /\
  take 1 new = [open_text "Hel"].
Proof.
  cbv zeta.
  assert (run Samples.parse Scenario.no_string Samples.plus Scenario.no_blob
            Scenario.no_message [Samples.gemini_text; Samples.gemini_done]
            ([open_text "Hel"] ++ [error_message "Erro do Backend: boom"])
          = ret [open_text "Hel"; error_message "Erro do Backend: boom";
                 closed_text "lo"]) as H by (vm_compute; reflexivity).
  split; [reflexivity|]. split; [exact H|].
  exact (messages_before_the_last_reply_are_frozen Samples.parse
           Scenario.no_string Samples.plus Scenario.no_blob Scenario.no_message
           [Samples.gemini_text; Samples.gemini_done]
           [open_text "Hel"] [] _ (error_message "Erro do Backend: boom")
           eq_refl H).
Defined.

(** A fragment, the end of the turn and an error report, as the
    backend sends them. *)
Lemma backend_messages_are_handled_witness :
  let events := [Samples.gemini_text; Samples.gemini_done; Samples.backend_error] in
  let ms := [MsgText "lo"; MsgTurnComplete; MsgError "" ESRCH "boom"] in
  Forall2 (fun event_data m =>
             Samples.parse event_data = ret (encode Scenario.no_message m)) events ms /\
  textual [open_text "Hel"] /\
  exists new,
    run Samples.parse Scenario.no_string Samples.plus Scenario.no_blob
      Scenario.no_message events [open_text "Hel"] = ret new /\
    textual new.
Proof.
  cbv zeta.
  assert (Forall2 (fun event_data m =>
                     Samples.parse event_data = ret (encode Scenario.no_message m))
            [Samples.gemini_text; Samples.gemini_done; Samples.backend_error]
            [MsgText "lo"; MsgTurnComplete; MsgError "" ESRCH "boom"]) as Hall
    by (repeat constructor).
  assert (textual [open_text "Hel"]) as Ht.
  { intros [|i] msg Hi; [|destruct i; discriminate Hi].
    injection Hi as <-. exists "Hel"%string. reflexivity. }
  split; [exact Hall|]. split; [exact Ht|].
  exact (backend_messages_are_handled Samples.parse Scenario.no_string Samples.plus
           Scenario.no_blob Scenario.no_message _ _ _ Hall Ht).
Defined.

End ChatRuns.

Section TruncateRuns.
Import Truncate.

Lemma truncateAudioData_twice_witness :
  stringify 2 Scenario.audio_heap (VRef 2%nat) = Some Scenario.audio_tree /\
  exists r1 h1 r2 h2,
    truncateAudioData 2 (VRef 2%nat) 4 Scenario.audio_heap = Some (r1, h1) /\
    truncateAudioData 2 r1 4 h1 = Some (r2, h2) /\
    stringify 2 h2 r2 = Some (truncated 4 Scenario.audio_tree).
Proof.
  assert (stringify 2 Scenario.audio_heap (VRef 2%nat) = Some Scenario.audio_tree) as Hs
    by reflexivity.
  split; [exact Hs|].
  destruct (TruncateTwice.truncateAudioData_twice 2 Scenario.audio_heap 2%nat
              Scenario.audio_tree 4 Hs) as (r1 & h1 & r2 & h2 & E1 & E2 & _ & S2 & _).
  exists r1, h1, r2, h2. split; [exact E1|]. split; [exact E2|exact S2].
Defined.

End TruncateRuns.
